(** * A shallow embedding of the REST Layer MongoDB storage handler

    The development follows the two Go source files of the package:
    - [mongo.go]: the item codec ([newMongoItem], [newItem]), duplicate-key
      detection ([isDup]) and the CRUD executor ([Insert], [Update],
      [Delete], [Find], [Count]);
    - [query.go]: field translation ([getField]), sort and projection
      normalisation ([getSort], [getProjection]), windowing ([applyWindow])
      and the predicate compiler ([translatePredicate]).

    Go maps ([bson.M], payloads) are finite maps with extensional equality,
    ordered documents ([bson.D]) and slices are lists, [interface{}] values
    are an inductive type, a nil map is [None].  The MongoDB driver, the
    execution context and the [fmt] / object-id printers are not part of the
    package: they are parameters of the model. *)

From Stdlib Require Import ZArith Ascii String.
From stdpp Require Import gmap strings list fin_maps pretty.

Set Warnings "-register-all".
Local Open Scope string_scope.
Local Open Scope list_scope.
Local Open Scope Z_scope.

(** ** Values *)

(** Go's [int] on the 64-bit targets the driver supports: a signed 64-bit
    integer.  Arithmetic on it wraps around. *)
Definition int_min : Z := - 2 ^ 63.
Definition int_max : Z := 2 ^ 63 - 1.
Definition wrap_int (z : Z) : Z := (z + 2 ^ 63) mod 2 ^ 64 - 2 ^ 63.
Definition in_int (z : Z) : Prop := int_min <= z <= int_max.

(** [time.Time] and [time.Duration], as nanosecond counts. *)
Module time.
Definition Time : Type := Z.
Definition Duration : Type := Z.
End time.

(** [primitive.ObjectID] is a 12-byte array. *)
Definition ObjectID := list Byte.byte.

(** Dynamically typed Go values ([interface{}], [query.Value]) as they are
    stored in payloads and filters. *)
Inductive value : Type :=
| VNil
| VBool (b : bool)
| VInt (n : Z)
| VString (s : string)
| VTime (t : time.Time)
| VObjectID (o : ObjectID)
| VRegex (pattern : string)            (* primitive.Regex{Pattern: ...} *)
| VArray (l : list value)              (* []interface{}, []bson.M, []query.Value *)
| VDoc (m : gmap string value).        (* bson.M, map[string]interface{} *)

Module bson.
(** [bson.M]: an unordered document. *)
Abbreviation M := (gmap string value).
(** [bson.E] and [bson.D]: an ordered document. *)
Definition E : Type := string * value.
Definition D : Type := list E.
Definition Key (e : E) : string := e.1.
Definition Value (e : E) : value := e.2.
End bson.

(** A Go map variable: [None] is the nil map.  Ranging over a nil map visits
    nothing. *)
Definition gomap := option bson.M.
Definition entries (m : gomap) : bson.M := default ∅ m.

(** ** The framework's vocabulary: items, errors, queries *)

(** Go [error] values that can reach the handler.  [Wrapped] is an error
    that wraps another one ([Unwrap]), as [errors.As] follows such chains. *)
Inductive error : Type :=
| ErrNotFound                 (* resource.ErrNotFound *)
| ErrConflict                 (* resource.ErrConflict *)
| ErrNotImplemented           (* resource.ErrNotImplemented *)
| Canceled                    (* context.Canceled *)
| DeadlineExceeded            (* context.DeadlineExceeded *)
| ErrNoDocuments              (* mongo.ErrNoDocuments *)
| WriteException (codes : list Z)       (* mongo.WriteException, codes of its WriteErrors *)
| BulkWriteException (codes : list Z)   (* mongo.BulkWriteException, codes of its WriteErrors *)
| OtherError (msg : string)
| Wrapped (msg : string) (inner : error).

#[global] Instance error_eq_dec : EqDecision error.
Proof. solve_decision. Defined.

Module resource.
Record Item : Type := {
  ID : value;
  ETag : string;
  Updated : time.Time;
  Payload : gomap;
}.

Record ItemList : Type := {
  Total : Z;
  Limit : Z;
  Items : list Item;
}.
End resource.

(** ** mongo.go: the item codec *)

(** [mongoItem] is the bson representation of a [resource.Item]; the payload
    is inlined next to [_id], [_etag] and [_updated]. *)
Record mongoItem : Type := {
  ID : value;
  ETag : string;
  Updated : time.Time;
  Payload : gomap;
}.

(** [newMongoItem] copies the payload, key by key, leaving ["id"] out. *)
Definition newMongoItem (i : resource.Item) : mongoItem :=
  let p : bson.M :=
    map_fold (fun k v (p : bson.M) => if decide (k ≠ "id") then <[k := v]> p else p)
             ∅ (entries (resource.Payload i)) in
  {| ID := resource.ID i;
     ETag := resource.ETag i;
     Updated := resource.Updated i;
     Payload := Some p |}.

Section Codec.
(** [primitive.ObjectID.Hex] and [fmt.Sprint] belong to the driver and to
    the Go runtime. *)
Variable Hex : ObjectID -> string.
Variable Sprint : value -> string.

(** [newItem] converts a [mongoItem] back.  It writes ["id"] into the
    payload map of its argument and the item it returns shares that map:
    the second component is the argument as the call leaves it. *)
Definition newItem (i : mongoItem) : resource.Item * mongoItem :=
  let p : bson.M := match Payload i with
                    | None => ∅               (* make(map[string]interface{}) *)
                    | Some p => p
                    end in
  let i := {| ID := ID i; ETag := ETag i; Updated := Updated i;
              Payload := Some (<["id" := ID i]> p) |} in
  let item := {| resource.ID := ID i;
                 resource.ETag := ETag i;
                 resource.Updated := Updated i;
                 resource.Payload := Payload i |} in
  let item :=
    if decide (resource.ETag item = "") then
      let etag := match ID i with
                  | VObjectID v => "p-" +:+ Hex v
                  | _ => "p-" +:+ Sprint (ID i)
                  end in
      {| resource.ID := resource.ID item;
         resource.ETag := etag;
         resource.Updated := resource.Updated item;
         resource.Payload := resource.Payload item |}
    else item in
  (item, i).
End Codec.

(** ** The query descriptor of the framework *)

Module query.
(** The implementations of the [query.Expression] interface.  A
    [query.Predicate] (or a pointer to one) is itself an expression;
    [Foreign] stands for any implementation the package does not know. *)
Inductive Expression : Type :=
| And (exps : list Expression)
| Or (exps : list Expression)
| ElemMatch (Field : string) (Exps : list Expression)
| In (Field : string) (Values : list value)
| NotIn (Field : string) (Values : list value)
| Exist (Field : string)
| NotExist (Field : string)
| Equal (Field : string) (Value : value)
| NotEqual (Field : string) (Value : value)
| GreaterThan (Field : string) (Value : value)
| GreaterOrEqual (Field : string) (Value : value)
| LowerThan (Field : string) (Value : value)
| LowerOrEqual (Field : string) (Value : value)
| Regex (Field : string) (Value : string) (Negated : bool)
| SubPredicate (p : list Expression)
| Foreign (kind : string).

Definition Predicate : Type := list Expression.

Record SortField : Type := { Name : string; Reversed : bool }.
Definition Sort : Type := list SortField.

Record ProjectionField : Type := { PName : string }.
Definition Projection : Type := list ProjectionField.

Record Window : Type := { Offset : Z; Limit : Z }.

Record Query : Type := {
  qProjection : Projection;
  qPredicate : Predicate;
  qSort : Sort;
  qWindow : option Window;
}.
End query.

(** ** query.go *)

(** [getField] translates a schema field into a MongoDB field. *)
Definition getField (f : string) : string :=
  if decide (f = "id") then "_id" else f.

(** [expToPredicate] views an expression as a predicate. *)
Definition expToPredicate (exp : query.Expression) : query.Predicate :=
  match exp with
  | query.SubPredicate t => t
  | t => [t]
  end.

(** A nil [bson.M] stored as a value. *)
Definition docValue (m : gomap) : value :=
  match m with
  | Some b => VDoc b
  | None => VNil
  end.

(** The loops of [translatePredicate] over the sub-expressions of a
    conjunction or disjunction: [sub] compiles one sub-expression on its
    own, [s] is the slice built so far, the first error stops the loop. *)
Definition collectSubs (sub : query.Expression -> gomap * option error) :
    list query.Expression -> list gomap -> list gomap + error :=
  fix go (l : list query.Expression) (s : list gomap) : list gomap + error :=
    match l with
    | [] => inl s
    | subExp :: l' =>
        match sub subExp with
        | (_, Some err) => inr err
        | (sb, None) => go l' (s ++ [sb])
        end
    end.

(** [for k, v := range sb { s[k] = v }] *)
Definition mergeInto (s : bson.M) (sb : gomap) : bson.M :=
  map_fold (fun k v (s : bson.M) => <[k := v]> s) s (entries sb).

(** The loop over the inner conditions of an element-match: the clauses of
    every compiled condition are merged into the one document [s]. *)
Definition mergeSubs (sub : query.Expression -> gomap * option error) :
    list query.Expression -> bson.M -> bson.M + error :=
  fix go (l : list query.Expression) (s : bson.M) : bson.M + error :=
    match l with
    | [] => inl s
    | subExp :: l' =>
        match sub subExp with
        | (_, Some err) => inr err
        | (sb, None) => go l' (mergeInto s sb)
        end
    end.

(** One iteration of the loop of [translatePredicate]: the [switch] on the
    type of [exp], on the filter [b] built so far.  [inr err] is the early
    [return nil, err].  The source recurses through
    [translatePredicate(expToPredicate(subExp))]; here the recursion is on
    the expression, and [translateExp_And], [translateExp_Or] and
    [translateExp_ElemMatch] give the equations of the source back. *)
Fixpoint translateExp (b : bson.M) (exp : query.Expression) {struct exp} : bson.M + error :=
  let loop := fix loop (b : bson.M) (q : list query.Expression) : bson.M + error :=
    match q with
    | [] => inl b
    | exp :: q' =>
        match translateExp b exp with
        | inl b' => loop b' q'
        | inr err => inr err
        end
    end in
  (* translatePredicate(expToPredicate(subExp)) *)
  let sub := fun subExp : query.Expression =>
    match (match subExp with
           | query.SubPredicate t => loop ∅ t
           | t => translateExp ∅ t
           end) with
    | inl b => (Some b, None)
    | inr err => (None, Some err)
    end in
  match exp with
  | query.And t =>
      match collectSubs sub t [] with
      | inr err => inr err
      | inl s => inl (<["$and" := VArray (docValue <$> s)]> b)
      end
  | query.Or t =>
      match collectSubs sub t [] with
      | inr err => inr err
      | inl s => inl (<["$or" := VArray (docValue <$> s)]> b)
      end
  | query.ElemMatch Field Exps =>
      match mergeSubs sub Exps ∅ with
      | inr err => inr err
      | inl s => inl (<[getField Field := VDoc {[ "$elemMatch" := VDoc s ]}]> b)
      end
  | query.In Field Values =>
      inl (<[getField Field := VDoc {[ "$in" := VArray Values ]}]> b)
  | query.NotIn Field Values =>
      inl (<[getField Field := VDoc {[ "$nin" := VArray Values ]}]> b)
  | query.Exist Field =>
      inl (<[getField Field := VDoc {[ "$exists" := VBool true ]}]> b)
  | query.NotExist Field =>
      inl (<[getField Field := VDoc {[ "$exists" := VBool false ]}]> b)
  | query.Equal Field Value =>
      inl (<[getField Field := Value]> b)
  | query.NotEqual Field Value =>
      inl (<[getField Field := VDoc {[ "$ne" := Value ]}]> b)
  | query.GreaterThan Field Value =>
      inl (<[getField Field := VDoc {[ "$gt" := Value ]}]> b)
  | query.GreaterOrEqual Field Value =>
      inl (<[getField Field := VDoc {[ "$gte" := Value ]}]> b)
  | query.LowerThan Field Value =>
      inl (<[getField Field := VDoc {[ "$lt" := Value ]}]> b)
  | query.LowerOrEqual Field Value =>
      inl (<[getField Field := VDoc {[ "$lte" := Value ]}]> b)
  | query.Regex Field Value Negated =>
      if Negated then
        inl (<[getField Field := VDoc {[ "$not" := VRegex Value ]}]> b)
      else
        inl (<[getField Field := VDoc {[ "$regex" := VString Value ]}]> b)
  | _ => inr ErrNotImplemented
  end.

(** The loop [for _, exp := range q] of [translatePredicate]. *)
Fixpoint translateLoop (b : bson.M) (q : query.Predicate) : bson.M + error :=
  match q with
  | [] => inl b
  | exp :: q' =>
      match translateExp b exp with
      | inl b' => translateLoop b' q'
      | inr err => inr err
      end
  end.

Definition translatePredicate (q : query.Predicate) : gomap * option error :=
  match translateLoop ∅ q with
  | inl b => (Some b, None)
  | inr err => (None, Some err)
  end.

(** [getQuery] transforms a query into a Mongo query. *)
Definition getQuery (q : query.Query) : gomap * option error :=
  translatePredicate (query.qPredicate q).

(** The de-duplication loop of [getSort]:
    [for i := len(s) - 1; i >= 0; i--], with [n = i + 1] iterations left.
    The loop keeps [n <= len(s)], so [s[i]] is in range; out of range Go
    would panic, which the model renders by stopping. *)
Fixpoint dedupLoop (n : nat) (s : bson.D) (seen : gset string) : bson.D :=
  match n with
  | O => s
  | S i =>
      match s !! i with
      | Some e =>
          if decide (bson.Key e ∈ seen) then
            dedupLoop i (take i s ++ drop (S i) s) seen
          else
            dedupLoop i s ({[ bson.Key e ]} ∪ seen)
      | None => s
      end
  end.

(** [getSort] transforms the sort list of a query into a Mongo sort list.
    If the sort list is empty, it falls back to [_id]. *)
Definition getSort (q : query.Query) : bson.D :=
  if decide (length (query.qSort q) = 0%nat) then
    [("_id", VInt 1)]
  else
    let s := foldl (fun (s : bson.D) (sort : query.SortField) =>
                      let value := if query.Reversed sort then -1 else 1 in
                      let e : bson.E := (getField (query.Name sort), VInt value) in
                      s ++ [e])
                   [] (query.qSort q) in
    dedupLoop (length s) s ∅.

Definition hasStarProjection (q : query.Query) : bool :=
  existsb (fun field => bool_decide (query.PName field = "*")) (query.qProjection q).

(** [strings.Split(s, sep)] for a one-character separator. *)
Fixpoint splitOn (sep : ascii) (s : string) : list string :=
  match s with
  | EmptyString => [EmptyString]
  | String c s' =>
      if decide (c = sep) then EmptyString :: splitOn sep s'
      else match splitOn sep s' with
           | [] => [String c EmptyString]
           | w :: ws => String c w :: ws
           end
  end.

Definition getProjection (q : query.Query) : gomap :=
  if decide (length (query.qProjection q) = 0%nat) then None
  else if hasStarProjection q then None
  else
    let p : bson.M := <["_updated" := VInt 1]> (<["_etag" := VInt 1]> (<["_id" := VInt 1]> ∅)) in
    Some (foldl (fun (p : bson.M) (field : query.ProjectionField) =>
                   if decide (query.PName field = "id") then p
                   else
                     let fname := splitOn "."%char (query.PName field) in
                     let name := if decide (1 < length fname)%nat
                                 then default (query.PName field) (fname !! 0%nat)
                                 else query.PName field in
                     <[getField name := VInt 1]> p)
                p (query.qProjection q)).

(** [options.FindOptions], with the setters the package uses. *)
Record FindOptions : Type := {
  foSort : option bson.D;
  foProjection : option gomap;
  foSkip : option Z;
  foLimit : option Z;
  foMaxTime : option time.Duration;
}.

Definition optionsFind : FindOptions :=
  {| foSort := None; foProjection := None; foSkip := None; foLimit := None; foMaxTime := None |}.
Definition SetSort (fo : FindOptions) (s : bson.D) : FindOptions :=
  {| foSort := Some s; foProjection := foProjection fo; foSkip := foSkip fo;
     foLimit := foLimit fo; foMaxTime := foMaxTime fo |}.
Definition SetProjection (fo : FindOptions) (p : gomap) : FindOptions :=
  {| foSort := foSort fo; foProjection := Some p; foSkip := foSkip fo;
     foLimit := foLimit fo; foMaxTime := foMaxTime fo |}.
Definition SetSkip (fo : FindOptions) (n : Z) : FindOptions :=
  {| foSort := foSort fo; foProjection := foProjection fo; foSkip := Some n;
     foLimit := foLimit fo; foMaxTime := foMaxTime fo |}.
Definition SetLimit (fo : FindOptions) (n : Z) : FindOptions :=
  {| foSort := foSort fo; foProjection := foProjection fo; foSkip := foSkip fo;
     foLimit := Some n; foMaxTime := foMaxTime fo |}.
Definition SetMaxTime (fo : FindOptions) (d : time.Duration) : FindOptions :=
  {| foSort := foSort fo; foProjection := foProjection fo; foSkip := foSkip fo;
     foLimit := foLimit fo; foMaxTime := Some d |}.

Definition applyWindow (fo : FindOptions) (w : query.Window) : FindOptions :=
  let fo := if decide (query.Offset w > 0) then SetSkip fo (query.Offset w) else fo in
  let fo := if decide (query.Limit w > -1) then SetLimit fo (query.Limit w) else fo in
  fo.

(** ** The environment of the handler *)

(** The calls the handler issues to the driver, with their arguments, in the
    order they are issued. *)
Inductive NativeCall : Type :=
| CallInsertMany (documents : list mongoItem)
| CallReplaceOne (filter : bson.M) (replacement : mongoItem)
| CallDeleteOne (filter : bson.M)
| CallFindOne (filter : bson.M)
| CallFind (filter : gomap) (opts : FindOptions)
| CallCountDocuments (filter : gomap) (maxTime : option time.Duration)
| CallCursorNext
| CallCursorClose.

(** What the package takes from outside: the world the calls run in (the
    database, the clock, the state of every context), contexts, collection
    handles and the operations of the driver.  An operation reads and
    changes the world.  Where the driver documents that exactly one of
    result and error is set, the result is a sum.  A cursor is the finite
    sequence of what [Decode] yields for each document still to come. *)
Record Env : Type := {
  St : Type;
  Ctx : Type;
  Collection : Type;
  ctxErr : Ctx -> St -> option error;                  (* ctx.Err() *)
  ctxDeadline : Ctx -> option time.Time;               (* ctx.Deadline() *)
  timeUntil : time.Time -> St -> time.Duration;        (* time.Until(dl) *)
  drvInsertMany : Collection -> Ctx -> list mongoItem -> St -> option error * St;
  drvReplaceOne : Collection -> Ctx -> bson.M -> mongoItem -> St -> (Z + error) * St;
  drvDeleteOne : Collection -> Ctx -> bson.M -> St -> (Z + error) * St;
  drvFindOne : Collection -> Ctx -> bson.M -> St -> option error * St;
  drvFind : Collection -> Ctx -> gomap -> FindOptions -> St ->
            (list (mongoItem + error) + error) * St;
  drvCursorNext : Ctx -> St -> bool * St;
  drvCursorClose : Ctx -> St -> option error * St;
  drvCountDocuments : Collection -> Ctx -> gomap -> option time.Duration -> St ->
                      (Z + error) * St;
}.

(** [errors.As(err, &e)] for the two exception types: the first error of
    that type in the chain of [err], as the codes of its write errors. *)
Fixpoint asWriteException (err : error) : option (list Z) :=
  match err with
  | WriteException codes => Some codes
  | Wrapped _ inner => asWriteException inner
  | _ => None
  end.

Fixpoint asBulkWriteException (err : error) : option (list Z) :=
  match err with
  | BulkWriteException codes => Some codes
  | Wrapped _ inner => asBulkWriteException inner
  | _ => None
  end.

Definition isDup (err : option error) : bool :=
  match err with
  | None => false
  | Some err =>
      if match asWriteException err with
         | Some codes => existsb (fun code => bool_decide (code = 11000)) codes
         | None => false
         end
      then true
      else if match asBulkWriteException err with
              | Some codes => existsb (fun code => bool_decide (code = 11000)) codes
              | None => false
              end
      then true
      else false
  end.

(** An operation of the handler reads and changes a world [W] and returns
    an [A]. *)
Definition Op (W A : Type) : Type := W -> A * W.

Definition ret {W A : Type} (a : A) : Op W A := fun w => (a, w).
Definition bind {W A B : Type} (m : Op W A) (k : A -> Op W B) : Op W B :=
  fun w => let (a, w') := m w in k a w'.

Notation "'let*' x ':=' m 'in' k" := (bind m (fun x => k))
  (at level 10, x pattern, m at level 100, k at level 200).

Section Executor.
Variable env : Env.
Variable Hex : ObjectID -> string.
Variable Sprint : value -> string.

(** A run of the handler threads the world of the environment and the
    trace of the native calls issued so far. *)
Definition World : Type := St env * list NativeCall.

(** Reading the world. *)
Definition Err (ctx : Ctx env) : Op World (option error) :=
  fun w => (ctxErr env ctx w.1, w).
Definition Until (dl : time.Time) : Op World time.Duration :=
  fun w => (timeUntil env dl w.1, w).

(** Issuing a native call: the driver runs on the world and the call is
    appended to the trace. *)
Definition native {A : Type} (call : NativeCall) (op : St env -> A * St env) : Op World A :=
  fun w => let (a, st) := op w.1 in (a, (st, w.2 ++ [call])).

(** [Handler] handles resource storage in a MongoDB collection: a function
    from a context to a collection handle or an error. *)
Definition Handler : Type := Ctx env -> St env -> (Collection env + error) * St env.

(** [c] returns the mongo collection managed by this storage handler. *)
Definition c (m : Handler) (ctx : Ctx env) : Op World (Collection env + error) :=
  let* err := Err ctx in
  match err with
  | Some err => ret (inr err)
  | None =>
      let* r := (fun w => let (r, st) := m ctx w.1 in (r, (st, w.2))) in
      match r with
      | inr err => ret (inr err)
      | inl c => ret (inl c)
      end
  end.

(** [Insert] inserts new items in the mongo collection. *)
Definition Insert (m : Handler) (ctx : Ctx env) (items : list resource.Item) : Op World (option error) :=
  let mItems := newMongoItem <$> items in
  let* r := c m ctx in
  match r with
  | inr err => ret (Some err)
  | inl c =>
      let* err := native (CallInsertMany mItems) (drvInsertMany env c ctx mItems) in
      let err := if isDup err then Some ErrConflict else err in
      let* cerr := Err ctx in
      match cerr with
      | Some _ => Err ctx
      | None => ret err
      end
  end.

(** [Update] replaces an item by a new one in the mongo collection. *)
Definition Update (m : Handler) (ctx : Ctx env) (item original : resource.Item) : Op World (option error) :=
  let mItem := newMongoItem item in
  let* r := c m ctx in
  match r with
  | inr err => ret (Some err)
  | inl c =>
      let s : bson.M := {[ "_id" := resource.ID original ]} in
      let s : bson.M :=
        if String.prefix "p-" (resource.ETag original) then
          <["_etag" := VDoc {[ "$exists" := VBool false ]}]> s
        else
          <["_etag" := VString (resource.ETag original)]> s in
      let* r := native (CallReplaceOne s mItem) (drvReplaceOne env c ctx s mItem) in
      match r with
      | inr err => ret (Some err)
      | inl MatchedCount =>
          let err : option error := None in
          if decide (MatchedCount = 0) then
            let filter : bson.M := {[ "_id" := resource.ID original ]} in
            let* infoErr := native (CallFindOne filter) (drvFindOne env c ctx filter) in
            match err with
            | Some _ => ret err
            | None =>
                if decide (infoErr = Some ErrNoDocuments) then ret (Some ErrNotFound)
                else
                  let* cerr := Err ctx in
                  match cerr with
                  | Some _ => Err ctx
                  | None => ret (Some ErrConflict)
                  end
            end
          else ret err
      end
  end.

(** [Delete] deletes an item from the mongo collection. *)
Definition Delete (m : Handler) (ctx : Ctx env) (item : resource.Item) : Op World (option error) :=
  let* r := c m ctx in
  match r with
  | inr err => ret (Some err)
  | inl c =>
      let s : bson.M := {[ "_id" := resource.ID item ]} in
      let s : bson.M :=
        if String.prefix "p-" (resource.ETag item) then
          <["_etag" := VDoc {[ "$exists" := VBool false ]}]> s
        else
          <["_etag" := VString (resource.ETag item)]> s in
      let* r := native (CallDeleteOne s) (drvDeleteOne env c ctx s) in
      match r with
      | inr err => ret (Some err)
      | inl DeletedCount =>
          let err : option error := None in
          if decide (DeletedCount = 0) then
            let filter : bson.M := {[ "_id" := resource.ID item ]} in
            let* infoErr := native (CallFindOne filter) (drvFindOne env c ctx filter) in
            match err with
            | Some _ => ret err
            | None =>
                if decide (infoErr = Some ErrNoDocuments) then ret (Some ErrNotFound)
                else
                  let* cerr := Err ctx in
                  match cerr with
                  | Some _ => Err ctx
                  | None => ret (Some ErrConflict)
                  end
            end
          else ret err
      end
  end.

(** [Count] counts the number of items matching the lookup filter. *)
Definition Count (m : Handler) (ctx : Ctx env) (query : query.Query) : Op World (Z * option error) :=
  match getQuery query with
  | (_, Some err) => ret (-1, Some err)
  | (q, None) =>
      let* r := c m ctx in
      match r with
      | inr err => ret (-1, Some err)
      | inl c =>
          let* maxTime :=
            match ctxDeadline env ctx with
            | Some dl => let* d := Until dl in ret (Some d)
            | None => ret None
            end in
          let* r := native (CallCountDocuments q maxTime)
                           (drvCountDocuments env c ctx q maxTime) in
          match r with
          | inr err => ret (-1, Some err)
          | inl n => ret (n, None)
          end
      end
  end.

(** The loop [for cursor.Next(ctx)] of [Find]: [items] is [list.Items]. *)
Fixpoint findLoop (ctx : Ctx env) (cursor : list (mongoItem + error))
    (items : list resource.Item) : Op World (list resource.Item + error) :=
  match cursor with
  | [] =>
      let* _ := native CallCursorNext (drvCursorNext env ctx) in
      ret (inl items)
  | d :: cursor' =>
      let* more := native CallCursorNext (drvCursorNext env ctx) in
      if more : bool then
        match d with
        | inr err => ret (inr err)
        | inl mItem =>
            let* err := Err ctx in
            match err with
            | Some err =>
                let* _ := native CallCursorClose (drvCursorClose env ctx) in
                ret (inr err)
            | None => findLoop ctx cursor' (items ++ [(newItem Hex Sprint mItem).1])
            end
        end
      else ret (inl items)
  end.

(** [Find] items from the mongo collection matching the provided query. *)
Definition Find (m : Handler) (ctx : Ctx env) (q : query.Query) :
    Op World (option resource.ItemList * option error) :=
  let zeroLimit :=
    let* r := Count m ctx q in
    match r with
    | (_, Some err) => ret (None, Some err)
    | (n, None) =>
        let list := {| resource.Total := n;
                       resource.Limit := default 0 (query.Limit <$> query.qWindow q);
                       resource.Items := [] |} in
        ret (Some list, None)
    end in
  if match query.qWindow q with
     | Some w => bool_decide (query.Limit w = 0)
     | None => false
     end
  then zeroLimit
  else
    match getQuery q with
    | (_, Some err) => ret (None, Some err)
    | (qry, None) =>
        let findOptions := optionsFind in
        let findOptions := SetSort findOptions (getSort q) in
        let findOptions := SetProjection findOptions (getProjection q) in
        let* r := c m ctx in
        match r with
        | inr err => ret (None, Some err)
        | inl c =>
            let limit := -1 in
            let '(findOptions, limit) :=
              match query.qWindow q with
              | Some w => (applyWindow findOptions w, query.Limit w)
              | None => (findOptions, limit)
              end in
            let* findOptions :=
              match ctxDeadline env ctx with
              | Some dl => let* d := Until dl in ret (SetMaxTime findOptions d)
              | None => ret findOptions
              end in
            let* r := native (CallFind qry findOptions) (drvFind env c ctx qry findOptions) in
            match r with
            | inr err => ret (None, Some err)
            | inl cursor =>
                let* r := findLoop ctx cursor [] in
                match r with
                | inr err => ret (None, Some err)
                | inl items =>
                    let* err := native CallCursorClose (drvCursorClose env ctx) in
                    match err with
                    | Some err => ret (None, Some err)
                    | None =>
                        let len := Z.of_nat (length items) in
                        let total :=
                          if decide (limit < 0 \/ len < limit) then
                            if match query.qWindow q with
                               | Some w => bool_decide (query.Offset w > 0)
                               | None => false
                               end
                            then
                              if decide (len > 0) then
                                wrap_int (default 0 (query.Offset <$> query.qWindow q) + len)
                              else -1
                            else len
                          else -1 in
                        ret (Some {| resource.Total := total;
                                     resource.Limit := limit;
                                     resource.Items := items |}, None)
                    end
                end
            end
        end
    end.

End Executor.

(** ** A scripted environment

    An executable instance of [Env], used to run the handler on concrete
    scenarios.  The world is the number of native calls completed so far;
    every call of the driver takes one tick and answers with the reply the
    scenario fixes for it.  The context becomes done at a given tick. *)
Record Scenario : Type := {
  doneAt : option (nat * error);          (* tick and error of the context's end *)
  deadline : option time.Time;
  openReply : option error;               (* what the handler function answers *)
  insertReply : option error;
  replaceReply : Z + error;
  deleteReply : Z + error;
  findOneReply : option error;
  findReply : list (mongoItem + error) + error;
  closeReply : option error;
  countReply : Z + error;
}.

Definition scenarioEnv (sc : Scenario) : Env :=
  {| St := nat;
     Ctx := unit;
     Collection := unit;
     ctxErr := fun _ t => match doneAt sc with
                          | Some (n, e) => if decide (n ≤ t)%nat then Some e else None
                          | None => None
                          end;
     ctxDeadline := fun _ => deadline sc;
     timeUntil := fun dl t => dl - Z.of_nat t;
     drvInsertMany := fun _ _ _ t => (insertReply sc, S t);
     drvReplaceOne := fun _ _ _ _ t => (replaceReply sc, S t);
     drvDeleteOne := fun _ _ _ t => (deleteReply sc, S t);
     drvFindOne := fun _ _ _ t => (findOneReply sc, S t);
     drvFind := fun _ _ _ _ t => (findReply sc, S t);
     drvCursorNext := fun _ t => (true, S t);
     drvCursorClose := fun _ t => (closeReply sc, S t);
     drvCountDocuments := fun _ _ _ _ t => (countReply sc, S t) |}.

Definition scenarioHandler (sc : Scenario) : Handler (scenarioEnv sc) :=
  fun _ t => (match openReply sc with
              | Some err => inr err
              | None => inl tt
              end, t).

(** A scenario in which every call succeeds on an empty collection. *)
Definition quiet : Scenario :=
  {| doneAt := None; deadline := None; openReply := None; insertReply := None;
     replaceReply := inl 1; deleteReply := inl 1; findOneReply := None;
     findReply := inl []; closeReply := None; countReply := inl 0 |}.

(** Sample printers: lower-case hexadecimal for object ids, and
    [fmt.Sprint] on the scalar values. *)
Definition hexDigit (n : N) : ascii :=
  default "0"%char (String.get (N.to_nat n) "0123456789abcdef").

Fixpoint hexEncode (o : ObjectID) : string :=
  match o with
  | [] => ""
  | b :: o' => String (hexDigit (Byte.to_N b / 16)) (String (hexDigit (Byte.to_N b mod 16)) (hexEncode o'))
  end.

Definition sprintScalar (v : value) : string :=
  match v with
  | VString s => s
  | VBool true => "true"
  | VBool false => "false"
  | VInt n => pretty n
  | VObjectID o => "ObjectID(" +:+ hexEncode o +:+ ")"
  | _ => "<nil>"
  end.

(** ** Reference definitions used by the statements *)

(** The entries of an ordered document that survive when only the last
    entry of every key is kept, in their original order. *)
Fixpoint keepLast (l : bson.D) : bson.D :=
  match l with
  | [] => []
  | e :: r => if decide (bson.Key e ∈ bson.Key <$> r) then keepLast r else e :: keepLast r
  end.

(** The same, when the keys of [seen] count as occurring later. *)
Fixpoint keepLastUnseen (l : bson.D) (seen : gset string) : bson.D :=
  match l with
  | [] => []
  | e :: r =>
      if decide (bson.Key e ∈ seen ∨ bson.Key e ∈ bson.Key <$> r) then keepLastUnseen r seen
      else e :: keepLastUnseen r seen
  end.

(** The sort list of a query, field names translated and directions mapped,
    before de-duplication. *)
Definition sortEntries (q : query.Query) : bson.D :=
  (fun sort : query.SortField =>
     (getField (query.Name sort), VInt (if query.Reversed sort then -1 else 1)))
  <$> query.qSort q.

(** The sub-expressions of an expression. *)
Definition children (e : query.Expression) : list query.Expression :=
  match e with
  | query.And l | query.Or l | query.ElemMatch _ l | query.SubPredicate l => l
  | _ => []
  end.

(** [translatePredicate(expToPredicate(subExp))], the call the loops over
    sub-expressions make. *)
Definition translateSub (subExp : query.Expression) : gomap * option error :=
  translatePredicate (expToPredicate subExp).

(** The same call, in the form it takes inside [translateExp]. *)
Definition translateSubLocal (subExp : query.Expression) : gomap * option error :=
  match (match subExp with
         | query.SubPredicate t => translateLoop ∅ t
         | t => translateExp ∅ t
         end) with
  | inl b => (Some b, None)
  | inr err => (None, Some err)
  end.

(** An expression contains a node of a kind the compiler does not list. *)
Fixpoint containsForeign (e : query.Expression) : bool :=
  match e with
  | query.Foreign _ => true
  | query.And l | query.Or l | query.ElemMatch _ l | query.SubPredicate l =>
      existsb containsForeign l
  | _ => false
  end.

(** The only failure of the compiler on [e] is [ErrNotImplemented], and a
    foreign node makes it fail. *)
Definition onlyNotImplemented (e : query.Expression) : Prop :=
  (∀ b err, translateExp b e = inr err → err = ErrNotImplemented)
  ∧ (containsForeign e = true → ∀ b, translateExp b e = inr ErrNotImplemented)
  ∧ (∀ r err, translateSub e = (r, Some err) → r = None ∧ err = ErrNotImplemented)
  ∧ (containsForeign e = true → translateSub e = (None, Some ErrNotImplemented)).

(** The field name and the clause of a leaf expression; [None] for the
    other kinds. *)
Definition leafClause (e : query.Expression) : option (string * value) :=
  match e with
  | query.In f vs => Some (getField f, VDoc {[ "$in" := VArray vs ]})
  | query.NotIn f vs => Some (getField f, VDoc {[ "$nin" := VArray vs ]})
  | query.Exist f => Some (getField f, VDoc {[ "$exists" := VBool true ]})
  | query.NotExist f => Some (getField f, VDoc {[ "$exists" := VBool false ]})
  | query.Equal f v => Some (getField f, v)
  | query.NotEqual f v => Some (getField f, VDoc {[ "$ne" := v ]})
  | query.GreaterThan f v => Some (getField f, VDoc {[ "$gt" := v ]})
  | query.GreaterOrEqual f v => Some (getField f, VDoc {[ "$gte" := v ]})
  | query.LowerThan f v => Some (getField f, VDoc {[ "$lt" := v ]})
  | query.LowerOrEqual f v => Some (getField f, VDoc {[ "$lte" := v ]})
  | query.Regex f v true => Some (getField f, VDoc {[ "$not" := VRegex v ]})
  | query.Regex f v false => Some (getField f, VDoc {[ "$regex" := VString v ]})
  | _ => None
  end.

(** The key of the filter document an expression assigns to. *)
Definition writtenKey (e : query.Expression) : option string :=
  match e with
  | query.And _ => Some "$and"
  | query.Or _ => Some "$or"
  | query.ElemMatch f _ => Some (getField f)
  | query.SubPredicate _ | query.Foreign _ => None
  | _ => fst <$> leafClause e
  end.

(** Two documents agree on every key but [k]. *)
Definition agreeOff (k : string) (m1 m2 : bson.M) : Prop :=
  ∀ j, j ≠ k → m1 !! j = m2 !! j.

Definition sameOutcome (k : string) (r1 r2 : bson.M + error) : Prop :=
  match r1, r2 with
  | inl m1, inl m2 => agreeOff k m1 m2
  | inr e1, inr e2 => e1 = e2
  | _, _ => False
  end.

(** The concurrency guard on the stored tag, and the match filter of a
    conditional write: the identifier plus the guard. *)
Definition tagGuard (etag : string) : value :=
  if String.prefix "p-" etag then VDoc {[ "$exists" := VBool false ]} else VString etag.

Definition matchFilter (id : value) (etag : string) : bson.M :=
  <["_etag" := tagGuard etag]> {[ "_id" := id ]}.

(** The native calls a run [r] issued, started from the world [w]. *)
Definition issued {S A : Type} (w : S * list NativeCall) (r : A * (S * list NativeCall)) :
    list NativeCall :=
  drop (length w.2) r.2.2.

(** ** Sample data for the scenarios *)

Definition sampleItem : resource.Item :=
  {| resource.ID := VString "42";
     resource.ETag := "abc";
     resource.Updated := 7;
     resource.Payload := Some {[ "id" := VString "42"; "name" := VString "x" ]} |}.

Definition start : nat * list NativeCall := (0%nat, []).

(** The re-fetch finds no document and the context ends while it runs. *)
Definition goneAndCancelled : Scenario :=
  {| doneAt := Some (2%nat, Canceled); deadline := None; openReply := None;
     insertReply := None; replaceReply := inl 0; deleteReply := inl 0;
     findOneReply := Some ErrNoDocuments; findReply := inl []; closeReply := None;
     countReply := inl 0 |}.

(** The conditional write matches nothing although the document exists. *)
Definition staleTag : Scenario :=
  {| doneAt := None; deadline := None; openReply := None;
     insertReply := None; replaceReply := inl 0; deleteReply := inl 0;
     findOneReply := None; findReply := inl []; closeReply := None;
     countReply := inl 0 |}.

(** A bulk insert hits a duplicate key and the context ends while it runs. *)
Definition dupAndCancelled : Scenario :=
  {| doneAt := Some (1%nat, Canceled); deadline := None; openReply := None;
     insertReply := Some (BulkWriteException [11000]); replaceReply := inl 1;
     deleteReply := inl 1; findOneReply := None; findReply := inl [];
     closeReply := None; countReply := inl 0 |}.

(** A single write hits a duplicate key and the deadline passes meanwhile. *)
Definition dupPastDeadline : Scenario :=
  {| doneAt := Some (1%nat, DeadlineExceeded); deadline := Some 1; openReply := None;
     insertReply := Some (Wrapped "insert" (WriteException [121; 11000]));
     replaceReply := inl 1; deleteReply := inl 1; findOneReply := None;
     findReply := inl []; closeReply := None; countReply := inl 0 |}.

Definition storedDocument (n : Z) : mongoItem :=
  {| ID := VInt n; ETag := ""; Updated := 7; Payload := None |}.

(** Five documents match: the reply to a count is 5, the reply to a find
    from the start is the five documents. *)
Definition fiveDocuments : Scenario :=
  {| doneAt := None; deadline := None; openReply := None; insertReply := None;
     replaceReply := inl 1; deleteReply := inl 1; findOneReply := None;
     findReply := inl (inl <$> (storedDocument <$> [1; 2; 3; 4; 5]));
     closeReply := None; countReply := inl 5 |}.

(** The same collection, read from an offset past its end: the reply to a
    find is empty. *)
Definition pastTheEnd : Scenario :=
  {| doneAt := None; deadline := None; openReply := None; insertReply := None;
     replaceReply := inl 1; deleteReply := inl 1; findOneReply := None;
     findReply := inl []; closeReply := None; countReply := inl 5 |}.

Definition windowQuery (offset limit : Z) : query.Query :=
  {| query.qProjection := [];
     query.qPredicate := [];
     query.qSort := [];
     query.qWindow := Some {| query.Offset := offset; query.Limit := limit |} |}.

Definition sortQuery : query.Query :=
  {| query.qProjection := [];
     query.qPredicate := [];
     query.qSort := [ {| query.Name := "a"; query.Reversed := false |};
                      {| query.Name := "id"; query.Reversed := false |};
                      {| query.Name := "a"; query.Reversed := true |} ];
     query.qWindow := None |}.

(** * The rest of the package *)

(** ** mongo.go: [Reduce], [Clear]; query.go: [selectIDs] *)

(** A Go slice [[]interface{}]: [None] is the nil slice, which [append]
    turns into a slice that is not nil, and which is stored as a nil value
    where a slice that is not nil is stored as an array. *)
Definition slice : Type := option (list value).

Definition goAppend (s : slice) (v : value) : slice := Some (default [] s ++ [v]).

Definition sliceValue (s : slice) : value :=
  match s with
  | Some l => VArray l
  | None => VNil
  end.

Section Streaming.
Variable env : Env.
Variable Hex : ObjectID -> string.
Variable Sprint : value -> string.

(** The loop of [selectIDs], from [var ids []interface{}].  [Decode] fills
    a struct that has the one field [_id]: of what the cursor yields for a
    document, the identifier is kept. *)
Fixpoint selectLoop (ctx : Ctx env) (cursor : list (mongoItem + error))
    (ids : slice) : Op (World env) (slice + error) :=
  match cursor with
  | [] =>
      let* _ := native env CallCursorNext (drvCursorNext env ctx) in
      ret (inl ids)
  | d :: cursor' =>
      let* more := native env CallCursorNext (drvCursorNext env ctx) in
      if more : bool then
        match d with
        | inr err =>
            let* _ := native env CallCursorClose (drvCursorClose env ctx) in
            ret (inr err)
        | inl tmp => selectLoop ctx cursor' (goAppend ids (ID tmp))
        end
      else ret (inl ids)
  end.

(** [selectIDs] reads the identifiers off a cursor.  The slice it returns
    is nil when it returns an error, and also when no document was read. *)
Definition selectIDs (ctx : Ctx env) (cursor : list (mongoItem + error)) :
    Op (World env) (slice * option error) :=
  let* r := selectLoop ctx cursor None in
  match r with
  | inr err => ret (None, Some err)
  | inl ids =>
      let* err := native env CallCursorClose (drvCursorClose env ctx) in
      match err with
      | Some err => ret (None, Some err)
      | None => ret (ids, None)
      end
  end.

(** The callback of [Reduce] is a Go closure: it may fail, and what it
    does to the variables it captures is a change of a state [Acc]. *)
Definition Reducer (Acc : Type) : Type := resource.Item -> Acc -> option error * Acc.

(** The loop [for cursor.Next(ctx)] of [Reduce].  [Some err] in the result
    is an early [return err]. *)
Fixpoint reduceLoop {Acc : Type} (ctx : Ctx env) (cursor : list (mongoItem + error))
    (reducer : Reducer Acc) (acc : Acc) : Op (World env) (option error * Acc) :=
  match cursor with
  | [] =>
      let* _ := native env CallCursorNext (drvCursorNext env ctx) in
      ret (None, acc)
  | d :: cursor' =>
      let* more := native env CallCursorNext (drvCursorNext env ctx) in
      if more : bool then
        match d with
        | inr err => ret (Some err, acc)
        | inl mItem =>
            let* err := Err env ctx in
            match err with
            | Some err =>
                let* _ := native env CallCursorClose (drvCursorClose env ctx) in
                ret (Some err, acc)
            | None =>
                match reducer (newItem Hex Sprint mItem).1 acc with
                | (Some err, acc) => ret (Some err, acc)
                | (None, acc) => reduceLoop ctx cursor' reducer acc
                end
            end
        end
      else ret (None, acc)
  end.

(** [Reduce] streams the items matching the query into [reducer]. *)
Definition Reduce {Acc : Type} (m : Handler env) (ctx : Ctx env) (q : query.Query)
    (reducer : Reducer Acc) (acc : Acc) : Op (World env) (option error * Acc) :=
  if match query.qWindow q with
     | Some w => bool_decide (query.Limit w = 0)
     | None => false
     end
  then ret (None, acc)
  else
    match getQuery q with
    | (_, Some err) => ret (Some err, acc)
    | (qry, None) =>
        let findOptions := optionsFind in
        let findOptions := SetSort findOptions (getSort q) in
        let findOptions := SetProjection findOptions (getProjection q) in
        let* r := c env m ctx in
        match r with
        | inr err => ret (Some err, acc)
        | inl c =>
            let findOptions :=
              match query.qWindow q with
              | Some w => applyWindow findOptions w
              | None => findOptions
              end in
            let* findOptions :=
              match ctxDeadline env ctx with
              | Some dl => let* d := Until env dl in ret (SetMaxTime findOptions d)
              | None => ret findOptions
              end in
            let* r := native env (CallFind qry findOptions)
                             (drvFind env c ctx qry findOptions) in
            match r with
            | inr err => ret (Some err, acc)
            | inl cursor =>
                let* r := reduceLoop ctx cursor reducer acc in
                match r with
                | (Some err, acc) => ret (Some err, acc)
                | (None, acc) =>
                    let* err := native env CallCursorClose (drvCursorClose env ctx) in
                    ret (err, acc)
                end
            end
        end
    end.

End Streaming.

(** [Clear] needs one more operation of the driver, [DeleteMany], whose
    result and error can both be set. *)
Record BulkEnv : Type := {
  bulkEnv :> Env;
  drvDeleteMany : Collection bulkEnv -> Ctx bulkEnv -> gomap -> St bulkEnv ->
                  (option Z * option error) * St bulkEnv;
}.

(** The native calls of [Clear]: those of the other operations, and the
    bulk delete with its filter. *)
Inductive BulkCall : Type :=
| Native (call : NativeCall)
| CallDeleteMany (filter : gomap).

Section Bulk.
Variable env : BulkEnv.

Definition BulkWorld : Type := St env * list BulkCall.

(** An operation of the handler run inside [Clear]: it runs on the world,
    and the calls it issues join the trace. *)
Definition lift {A : Type} (op : Op (World env) A) : Op BulkWorld A :=
  fun w => let (a, w') := op (w.1, []) in (a, (w'.1, w.2 ++ (Native <$> w'.2))).

Definition nativeBulk {A : Type} (call : BulkCall) (op : St env -> A * St env) :
    Op BulkWorld A :=
  fun w => let (a, st) := op w.1 in (a, (st, w.2 ++ [call])).

(** [Clear] clears all items from the mongo collection matching the query. *)
Definition Clear (m : Handler env) (ctx : Ctx env) (q : query.Query) :
    Op BulkWorld (Z * option error) :=
  match getQuery q with
  | (_, Some err) => ret (0, Some err)
  | (qry, None) =>
      let* r := lift (c env m ctx) in
      match r with
      | inr err => ret (0, Some err)
      | inl c =>
          let* r :=
            match query.qWindow q with
            | Some w =>
                let findOptions := optionsFind in
                let findOptions := SetSort findOptions (getSort q) in
                let findOptions := applyWindow findOptions w in
                let findOptions := SetProjection findOptions (Some {[ "_id" := VInt 1 ]}) in
                let* r := lift (native env (CallFind qry findOptions)
                                       (drvFind env c ctx qry findOptions)) in
                match r with
                | inr err => ret (inr err)
                | inl cursor =>
                    let* r := lift (selectIDs env ctx cursor) in
                    match r with
                    | (ids, None) =>
                        ret (inl (Some ({[ "_id" := VDoc {[ "$in" := sliceValue ids ]} ]} : bson.M)))
                    | (_, Some err) => ret (inr err)
                    end
                end
            | None => ret (inl qry)
            end in
          match r with
          | inr err => ret (0, Some err)
          | inl qry =>
              let* r := nativeBulk (CallDeleteMany qry) (drvDeleteMany env c ctx qry) in
              let '(info, err) := r in
              let* err :=
                match err with
                | None => lift (Err env ctx)
                | Some _ => ret err
                end in
              match info with
              | None => ret (0, err)
              | Some DeletedCount => ret (DeletedCount, err)
              end
          end
      end
  end.

End Bulk.

(** The scripted environment with a reply for the bulk delete. *)
Definition bulkScenarioEnv (sc : Scenario) (reply : option Z * option error) : BulkEnv :=
  {| bulkEnv := scenarioEnv sc;
     drvDeleteMany := fun _ _ _ t => (reply, S t) |}.

(** ** Reference definitions for the rest of the package *)

(** The expressions the compiler accepts: the allow-listed kinds, a
    predicate being accepted only as a sub-expression of a conjunction, a
    disjunction or an element-match. *)
Fixpoint supported (e : query.Expression) : bool :=
  let sub := fun x : query.Expression =>
    match x with
    | query.SubPredicate p => forallb supported p
    | x => supported x
    end in
  match e with
  | query.And l | query.Or l | query.ElemMatch _ l => forallb sub l
  | query.SubPredicate _ | query.Foreign _ => false
  | _ => true
  end.

Definition supportedSub (x : query.Expression) : bool :=
  match x with
  | query.SubPredicate p => forallb supported p
  | x => supported x
  end.

(** The character [c] occurs in the string [s]. *)
Fixpoint occurs (c : ascii) (s : string) : bool :=
  match s with
  | EmptyString => false
  | String a s' => if decide (a = c) then true else occurs c s'
  end.

(** The top-level segment of a field path. *)
Fixpoint topSegment (s : string) : string :=
  match s with
  | EmptyString => EmptyString
  | String a s' => if decide (a = "."%char) then EmptyString else String a (topSegment s')
  end.

(** The requested field names of a projection. *)
Definition projectionNames (q : query.Query) : list string :=
  query.PName <$> query.qProjection q.


(** The reducer that appends every item to a list. *)
Definition collect : Reducer (list resource.Item) :=
  fun item acc => (None, acc ++ [item]).


(** A stored document with a tag and a payload. *)
Definition taggedDocument : mongoItem :=
  {| ID := VString "42"; ETag := "abc"; Updated := 7;
     Payload := Some {[ "name" := VString "x" ]} |}.

Definition plainQuery (p : query.Predicate) : query.Query :=
  {| query.qProjection := []; query.qPredicate := p; query.qSort := [];
     query.qWindow := None |}.

Definition projectionQuery (names : list string) : query.Query :=
  {| query.qProjection := (fun n => {| query.PName := n |}) <$> names;
     query.qPredicate := []; query.qSort := []; query.qWindow := None |}.

Definition bulkStart : nat * list BulkCall := (0%nat, []).

(** The context is done before the operation starts. *)
Definition alreadyCancelled : Scenario :=
  {| doneAt := Some (0%nat, Canceled); deadline := None; openReply := None;
     insertReply := None; replaceReply := inl 1; deleteReply := inl 1;
     findOneReply := None; findReply := inl []; closeReply := None;
     countReply := inl 0 |}.

(** The native write fails with an error of the driver. *)
Definition writeFails : Scenario :=
  {| doneAt := None; deadline := None; openReply := None;
     insertReply := Some (OtherError "connection reset");
     replaceReply := inr (WriteException [11000]); deleteReply := inr (OtherError "connection reset");
     findOneReply := None; findReply := inl []; closeReply := None;
     countReply := inr (OtherError "connection reset") |}.

(** The re-fetch after a zero match fails with an error of the driver. *)
Definition refetchFails : Scenario :=
  {| doneAt := None; deadline := None; openReply := None;
     insertReply := None; replaceReply := inl 0; deleteReply := inl 0;
     findOneReply := Some (OtherError "connection reset"); findReply := inl [];
     closeReply := None; countReply := inl 0 |}.

(** The context has a deadline and five documents match. *)
Definition withDeadline : Scenario :=
  {| doneAt := None; deadline := Some 1000; openReply := None; insertReply := None;
     replaceReply := inl 1; deleteReply := inl 1; findOneReply := None;
     findReply := inl (inl <$> (storedDocument <$> [1; 2; 3; 4; 5]));
     closeReply := None; countReply := inl 5 |}.

(** ** Reference definitions for the properties of the rest *)

Definition twoKeyQuery : query.Query :=
  {| query.qProjection := []; query.qPredicate := [];
     query.qSort := [ {| query.Name := "name"; query.Reversed := true |};
                      {| query.Name := "id"; query.Reversed := false |} ];
     query.qWindow := None |}.

Definition requiredFields : bson.M :=
  <["_updated" := VInt 1]> (<["_etag" := VInt 1]> (<["_id" := VInt 1]> ∅)).

Definition projectionStep (p : bson.M) (n : string) : bson.M :=
  if decide (n = "id") then p else <[getField (topSegment n) := VInt 1]> p.

Definition compiles {A : Type} (r : A + error) : Prop := ∃ a, r = inl a.

Definition zeroLimit (q : query.Query) : bool :=
  match query.qWindow q with
  | Some w => bool_decide (query.Limit w = 0)
  | None => false
  end.

Definition findOptionsFor (env : Env) (ctx : Ctx env) (q : query.Query) (st : St env) :
    FindOptions :=
  let fo := SetProjection (SetSort optionsFind (getSort q)) (getProjection q) in
  let fo := match query.qWindow q with
            | Some w => applyWindow fo w
            | None => fo
            end in
  match ctxDeadline env ctx with
  | Some dl => SetMaxTime fo (timeUntil env dl st)
  | None => fo
  end.

Definition findTotal (q : query.Query) (len : Z) : Z :=
  let limit := default (-1) (query.Limit <$> query.qWindow q) in
  if decide (limit < 0 ∨ len < limit) then
    if match query.qWindow q with
       | Some w => bool_decide (query.Offset w > 0)
       | None => false
       end
    then if decide (len > 0)
         then wrap_int (default 0 (query.Offset <$> query.qWindow q) + len)
         else -1
    else len
  else -1.

Definition itemOf (Hex : ObjectID -> string) (Sprint : value -> string) (d : mongoItem) :
    resource.Item :=
  (newItem Hex Sprint d).1.

Definition cursorCall (call : NativeCall) : Prop :=
  call = CallCursorNext ∨ call = CallCursorClose.

Definition clearFindOptions (q : query.Query) (win : query.Window) : FindOptions :=
  SetProjection (applyWindow (SetSort optionsFind (getSort q)) win) (Some {[ "_id" := VInt 1 ]}).

(** The slice a loop of appends builds from the nil slice: it stays nil
    when nothing is appended. *)
Definition collected (l : list value) : slice :=
  match l with
  | [] => None
  | _ => Some l
  end.

Definition idsFilter (ids : slice) : gomap :=
  Some {[ "_id" := VDoc {[ "$in" := sliceValue ids ]} ]}.

(** The native insert hits a duplicate key and the context stays live. *)
Definition duplicateKey : Scenario :=
  {| doneAt := None; deadline := None; openReply := None;
     insertReply := Some (Wrapped "insert" (BulkWriteException [121; 11000]));
     replaceReply := inl 1; deleteReply := inl 1; findOneReply := None;
     findReply := inl []; closeReply := None; countReply := inl 0 |}.

(** * Properties *)

(** ** The item codec *)

Lemma copy_payload_delete (m : bson.M) :
  map_fold (fun k v (p : bson.M) => if decide (k ≠ "id") then <[k := v]> p else p) ∅ m
  = delete "id" m.
Proof.
  apply (map_fold_weak_ind (fun r m => r = delete "id" m)).
  - by rewrite delete_empty.
  - intros i x m' r Hi ->. case_decide as Hne.
    + by rewrite delete_insert_ne.
    + subst i. rewrite delete_insert_eq. by rewrite delete_id.
Qed.

(** [newMongoItem] leaves its argument alone and never stores ["id"] in the
    payload. *)
Lemma newMongoItem_no_id (i : resource.Item) :
  entries (Payload (newMongoItem i)) !! "id" = None.
Proof. cbn. rewrite copy_payload_delete. apply lookup_delete_eq. Qed.

(** The payload of the item [newItem] returns carries the id, and it is the
    payload map of the argument, as the call leaves it. *)
Lemma newItem_payload_id Hex Sprint (i : mongoItem) :
  entries (resource.Payload (newItem Hex Sprint i).1) !! "id" = Some (ID i)
  ∧ Payload (newItem Hex Sprint i).2 = resource.Payload (newItem Hex Sprint i).1.
Proof.
  unfold newItem. cbn. case_decide; cbn; by rewrite lookup_insert_eq.
Qed.

(** C9. Decoding the stored form of an item gives back its identifier, its
    tag (or, when the tag was empty, ["p-"] followed by the hexadecimal form
    of an object id, or by the printed form of any other identifier), its
    timestamp, and its payload without the ["id"] key, to which the
    identifier is added again under ["id"]. *)
Theorem codec_round_trip (Hex : ObjectID -> string) (Sprint : value -> string)
    (item : resource.Item) :
  let back := (newItem Hex Sprint (newMongoItem item)).1 in
  resource.ID back = resource.ID item
  ∧ resource.ETag back =
      (if decide (resource.ETag item = "") then
         "p-" +:+ match resource.ID item with
                  | VObjectID o => Hex o
                  | v => Sprint v
                  end
       else resource.ETag item)
  ∧ resource.Updated back = resource.Updated item
  ∧ resource.Payload back =
      Some (<["id" := resource.ID item]> (delete "id" (entries (resource.Payload item)))).
Proof.
  unfold newItem, newMongoItem; cbn [ID ETag Updated Payload resource.ETag].
  rewrite copy_payload_delete.
  case_decide as He; cbn.
  - repeat split; try done. by destruct (resource.ID item).
  - done.
Qed.

Example codec_round_trip_object_id :
  (newItem hexEncode sprintScalar
     (newMongoItem {| resource.ID := VObjectID [Byte.x5f; Byte.x0a];
                      resource.ETag := "";
                      resource.Updated := 7;
                      resource.Payload := Some {[ "id" := VInt 3; "name" := VString "x" ]} |})).1
  = {| resource.ID := VObjectID [Byte.x5f; Byte.x0a];
       resource.ETag := "p-5f0a";
       resource.Updated := 7;
       resource.Payload := Some {[ "id" := VObjectID [Byte.x5f; Byte.x0a];
                                   "name" := VString "x" ]} |}.
Proof. vm_compute. reflexivity. Qed.

(** ** The sort list *)

Lemma sort_loop_entries (l : query.Sort) (acc : bson.D) :
  foldl (fun (s : bson.D) (sort : query.SortField) =>
           let value := if query.Reversed sort then -1 else 1 in
           let e : bson.E := (getField (query.Name sort), VInt value) in
           s ++ [e]) acc l
  = acc ++ ((fun sort : query.SortField =>
     (getField (query.Name sort), VInt (if query.Reversed sort then -1 else 1))) <$> l).
Proof.
  revert acc. induction l as [|x l IH]; intros acc; cbn.
  - by rewrite app_nil_r.
  - rewrite IH. by rewrite <- app_assoc.
Qed.

Lemma keepLastUnseen_snoc (l : bson.D) (e : bson.E) (seen : gset string) :
  keepLastUnseen (l ++ [e]) seen =
    if decide (bson.Key e ∈ seen) then keepLastUnseen l seen
    else keepLastUnseen l ({[ bson.Key e ]} ∪ seen) ++ [e].
Proof.
  induction l as [|x l IH]; cbn.
  - destruct (decide (bson.Key e ∈ seen)) as [Hin|Hout].
    + rewrite decide_True; [done | by left].
    + rewrite decide_False; [done |].
      intros [?|Hnil]; [done | by apply elem_of_nil in Hnil].
  - rewrite IH, fmap_app. cbn.
    destruct (decide (bson.Key e ∈ seen)) as [Hin|Hout].
    + apply decide_ext. rewrite elem_of_app, list_elem_of_singleton.
      split; [|tauto]. intros [?|[?|Heq]]; [tauto..|]. left. by rewrite Heq.
    + rewrite (decide_ext _ (bson.Key x ∈ {[bson.Key e]} ∪ seen ∨ bson.Key x ∈ bson.Key <$> l)).
      * by case_decide.
      * rewrite elem_of_app, list_elem_of_singleton, elem_of_union, elem_of_singleton. tauto.
Qed.

(** The loop run on the first [length pre] entries, the entries of [suf]
    being already visited and their keys recorded in [seen]. *)
Lemma dedupLoop_spec (pre suf : bson.D) (seen : gset string) :
  dedupLoop (length pre) (pre ++ suf) seen = keepLastUnseen pre seen ++ suf.
Proof.
  revert suf seen. induction pre as [|e pre IH] using rev_ind; intros suf seen.
  - done.
  - rewrite length_app, Nat.add_comm. cbn [length Nat.add dedupLoop].
    rewrite <- app_assoc. cbn [app].
    unfold bson.D, bson.E in *.
    rewrite list_lookup_middle by done.
    rewrite take_app_length.
    replace (drop (S (length pre)) (pre ++ e :: suf)) with suf
      by (by rewrite (cons_middle e pre suf), app_assoc, drop_app_length';
            [|rewrite length_app, Nat.add_comm]).
    rewrite keepLastUnseen_snoc.
    case_decide.
    + apply IH.
    + rewrite IH. by rewrite <- app_assoc.
Qed.

Lemma keepLastUnseen_empty (l : bson.D) : keepLastUnseen l ∅ = keepLast l.
Proof.
  induction l as [|e r IH]; cbn; [done|]. rewrite IH.
  apply decide_ext. split; [|by right].
  intros [Hin|?]; [by apply not_elem_of_empty in Hin | done].
Qed.

Lemma getSort_keepLast (q : query.Query) :
  query.qSort q ≠ [] → getSort q = keepLast (sortEntries q).
Proof.
  intros Hne. unfold getSort. rewrite decide_False by (by destruct (query.qSort q)).
  cbv zeta. rewrite sort_loop_entries. cbn [app].
  fold (sortEntries q).
  rewrite <- (app_nil_r (sortEntries q)) at 2.
  rewrite dedupLoop_spec, app_nil_r. apply keepLastUnseen_empty.
Qed.

Lemma getSort_default (q : query.Query) :
  query.qSort q = [] → getSort q = [("_id", VInt 1)].
Proof. intros Hq. unfold getSort. by rewrite Hq. Qed.

Lemma keepLast_keys (l : bson.D) (k : string) :
  k ∈ bson.Key <$> keepLast l ↔ k ∈ bson.Key <$> l.
Proof.
  induction l as [|e r IH]; cbn; [done|].
  case_decide as Hin; cbn; rewrite !elem_of_cons, ?IH; [|done].
  split; [tauto|]. intros [->|?]; tauto.
Qed.

Lemma keepLast_NoDup (l : bson.D) : NoDup (bson.Key <$> keepLast l).
Proof.
  induction l as [|e r IH]; cbn; [constructor|].
  case_decide as Hin; [done|]. cbn. constructor; [|done].
  by rewrite keepLast_keys.
Qed.

Lemma keepLast_sublist (l : bson.D) : sublist (keepLast l) l.
Proof.
  induction l as [|e r IH]; cbn; [constructor|].
  case_decide; by constructor.
Qed.

Lemma keepLast_last (l : bson.D) (e : bson.E) :
  e ∈ keepLast l ↔ ∃ l1 l2, l = l1 ++ e :: l2 ∧ bson.Key e ∉ bson.Key <$> l2.
Proof.
  induction l as [|x r IH]; cbn.
  - split; [by intros ?%elem_of_nil|]. intros (l1 & l2 & Heq & _). by destruct l1.
  - split.
    + case_decide as Hin.
      * intros (l1 & l2 & -> & Hl)%IH. by exists (x :: l1), l2.
      * intros [->|(l1 & l2 & -> & Hl)%IH]%elem_of_cons.
        -- by exists [], r.
        -- by exists (x :: l1), l2.
    + intros (l1 & l2 & Heq & Hl). destruct l1 as [|y l1]; simplify_eq/=.
      * rewrite decide_False by done. by left.
      * assert (e ∈ keepLast (l1 ++ e :: l2)) by (apply IH; eauto).
        case_decide; [done | by right].
Qed.

(** C5. For a non-empty sort descriptor, the normalized sort list is the
    translated list (names through [getField], ascending 1, descending -1)
    from which every entry followed by a later entry of the same name is
    removed: it has exactly one entry for each name of the descriptor, that
    entry is the last occurrence of the name, with its direction, and the
    surviving entries keep their relative order. *)
Theorem getSort_keeps_last (q : query.Query) :
  query.qSort q ≠ [] →
  getSort q = keepLast (sortEntries q)
  ∧ NoDup (bson.Key <$> getSort q)
  ∧ (∀ k, k ∈ bson.Key <$> getSort q ↔ k ∈ bson.Key <$> sortEntries q)
  ∧ (∀ e, e ∈ getSort q ↔
          ∃ l1 l2, sortEntries q = l1 ++ e :: l2 ∧ bson.Key e ∉ bson.Key <$> l2)
  ∧ sublist (getSort q) (sortEntries q).
Proof.
  intros Hne. rewrite (getSort_keepLast q Hne). split; [done|].
  split; [apply keepLast_NoDup|].
  split; [apply keepLast_keys|].
  split; [apply keepLast_last | apply keepLast_sublist].
Qed.

Lemma getSort_keeps_last_witness :
  query.qSort sortQuery ≠ []
  ∧ getSort sortQuery = [("_id", VInt 1); ("a", VInt (-1))]
  ∧ getSort sortQuery = keepLast (sortEntries sortQuery)
  ∧ sublist (getSort sortQuery) (sortEntries sortQuery).
Proof.
  split; [discriminate|]. split; [reflexivity|].
  destruct (getSort_keeps_last sortQuery) as (H1 & _ & _ & _ & H5); [discriminate|].
  split; [exact H1 | exact H5].
Defined.

(** ** The predicate compiler *)

Lemma Expression_children_ind (P : query.Expression → Prop) :
  (∀ e, Forall P (children e) → P e) → ∀ e, P e.
Proof.
  intros H. fix IH 1. intros e. apply H.
  destruct e as [l|l|f l| | | | | | | | | | | |l| ]; cbn; try constructor.
  all: induction l as [|x l IHl]; constructor; [apply IH | exact IHl].
Qed.

Lemma translateSubLocal_eq x : translateSubLocal x = translateSub x.
Proof.
  unfold translateSubLocal, translateSub, translatePredicate.
  destruct x; cbn [expToPredicate translateLoop]; try done.
  all: by match goal with |- context [translateExp ∅ ?e] => destruct (translateExp ∅ e) end.
Qed.

Lemma collectSubs_ext f g l s :
  (∀ x, f x = g x) → collectSubs f l s = collectSubs g l s.
Proof.
  intros Hfg. revert s. induction l as [|x l IH]; intros s; cbn; [done|].
  rewrite Hfg. destruct (g x) as [sb [err|]]; [done | apply IH].
Qed.

Lemma mergeSubs_ext f g l s :
  (∀ x, f x = g x) → mergeSubs f l s = mergeSubs g l s.
Proof.
  intros Hfg. revert s. induction l as [|x l IH]; intros s; cbn; [done|].
  rewrite Hfg. destruct (g x) as [sb [err|]]; [done | apply IH].
Qed.

Lemma translateExp_And b t :
  translateExp b (query.And t) =
  match collectSubs translateSub t [] with
  | inr err => inr err
  | inl s => inl (<["$and" := VArray (docValue <$> s)]> b)
  end.
Proof.
  rewrite <- (collectSubs_ext _ _ t [] translateSubLocal_eq). reflexivity.
Qed.

Lemma translateExp_Or b t :
  translateExp b (query.Or t) =
  match collectSubs translateSub t [] with
  | inr err => inr err
  | inl s => inl (<["$or" := VArray (docValue <$> s)]> b)
  end.
Proof.
  rewrite <- (collectSubs_ext _ _ t [] translateSubLocal_eq). reflexivity.
Qed.

Lemma translateExp_ElemMatch b f t :
  translateExp b (query.ElemMatch f t) =
  match mergeSubs translateSub t ∅ with
  | inr err => inr err
  | inl s => inl (<[getField f := VDoc {[ "$elemMatch" := VDoc s ]}]> b)
  end.
Proof.
  rewrite <- (mergeSubs_ext _ _ t ∅ translateSubLocal_eq). reflexivity.
Qed.

Lemma translateLoop_errors (l : list query.Expression) :
  Forall onlyNotImplemented l →
  (∀ b err, translateLoop b l = inr err → err = ErrNotImplemented)
  ∧ (existsb containsForeign l = true → ∀ b, translateLoop b l = inr ErrNotImplemented).
Proof.
  induction 1 as [|x l (Hx1 & Hx2 & _) _ [IH1 IH2]]; cbn.
  - split; [done | discriminate].
  - split.
    + intros b err. destruct (translateExp b x) as [b'|err'] eqn:Hx.
      * apply IH1.
      * intros [= <-]. by eapply Hx1.
    + intros Hor b. destruct (translateExp b x) as [b'|err'] eqn:Hx.
      * apply IH2. destruct (containsForeign x) eqn:Hf; [|exact Hor].
        by rewrite (Hx2 eq_refl) in Hx.
      * f_equal. by eapply Hx1.
Qed.

Lemma collectSubs_errors (l : list query.Expression) :
  Forall onlyNotImplemented l →
  (∀ s err, collectSubs translateSub l s = inr err → err = ErrNotImplemented)
  ∧ (existsb containsForeign l = true → ∀ s, collectSubs translateSub l s = inr ErrNotImplemented).
Proof.
  induction 1 as [|x l (_ & _ & Hx3 & Hx4) _ [IH1 IH2]]; cbn.
  - split; [done | discriminate].
  - split.
    + intros s err. destruct (translateSub x) as [sb [err'|]] eqn:Hx.
      * intros [= <-]. by eapply Hx3.
      * apply IH1.
    + intros Hor s. destruct (translateSub x) as [sb [err'|]] eqn:Hx.
      * f_equal. by eapply Hx3.
      * apply IH2. destruct (containsForeign x) eqn:Hf; [|exact Hor].
        discriminate (Hx4 eq_refl).
Qed.

Lemma mergeSubs_errors (l : list query.Expression) :
  Forall onlyNotImplemented l →
  (∀ s err, mergeSubs translateSub l s = inr err → err = ErrNotImplemented)
  ∧ (existsb containsForeign l = true → ∀ s, mergeSubs translateSub l s = inr ErrNotImplemented).
Proof.
  induction 1 as [|x l (_ & _ & Hx3 & Hx4) _ [IH1 IH2]]; cbn.
  - split; [done | discriminate].
  - split.
    + intros s err. destruct (translateSub x) as [sb [err'|]] eqn:Hx.
      * intros [= <-]. by eapply Hx3.
      * apply IH1.
    + intros Hor s. destruct (translateSub x) as [sb [err'|]] eqn:Hx.
      * f_equal. by eapply Hx3.
      * apply IH2. destruct (containsForeign x) eqn:Hf; [|exact Hor].
        discriminate (Hx4 eq_refl).
Qed.

Lemma translatePredicate_errors (l : list query.Expression) :
  Forall onlyNotImplemented l →
  (∀ r err, translatePredicate l = (r, Some err) → r = None ∧ err = ErrNotImplemented)
  ∧ (existsb containsForeign l = true → translatePredicate l = (None, Some ErrNotImplemented)).
Proof.
  intros [H1 H2]%translateLoop_errors. unfold translatePredicate. split.
  - intros r err. destruct (translateLoop ∅ l) as [b|err'] eqn:Hl; [done|].
    intros [= <- <-]. split; [done|]. by eapply H1.
  - intros Hf. by rewrite H2.
Qed.

Lemma translateExp_onlyNotImplemented (e : query.Expression) : onlyNotImplemented e.
Proof.
  induction e as [e IH] using Expression_children_ind.
  assert (Hsub : (∀ b err, translateExp b e = inr err → err = ErrNotImplemented)
                 ∧ (containsForeign e = true → ∀ b, translateExp b e = inr ErrNotImplemented)).
  { destruct e as [l|l|f l| | | | | | | | | | | |l| ]; cbn [children] in IH;
      try (split; [intros b err; cbn; try destruct Negated; by intros [= <-] | done]).
    - pose proof (collectSubs_errors l IH) as [H1 H2]. split.
      + intros b err. rewrite translateExp_And.
        destruct (collectSubs translateSub l []) eqn:Hc; [done|].
        intros [= <-]. by eapply H1.
      + intros Hf b. rewrite translateExp_And. cbn in Hf. by rewrite H2.
    - pose proof (collectSubs_errors l IH) as [H1 H2]. split.
      + intros b err. rewrite translateExp_Or.
        destruct (collectSubs translateSub l []) eqn:Hc; [done|].
        intros [= <-]. by eapply H1.
      + intros Hf b. rewrite translateExp_Or. cbn in Hf. by rewrite H2.
    - pose proof (mergeSubs_errors l IH) as [H1 H2]. split.
      + intros b err. rewrite translateExp_ElemMatch.
        destruct (mergeSubs translateSub l ∅) eqn:Hc; [done|].
        intros [= <-]. by eapply H1.
      + intros Hf b. rewrite translateExp_ElemMatch. cbn in Hf. by rewrite H2.
  }
  destruct Hsub as [H1 H2]. split; [done|]. split; [done|].
  assert (Hone : (∀ r err, translatePredicate [e] = (r, Some err) → r = None ∧ err = ErrNotImplemented)
                 ∧ (containsForeign e = true → translatePredicate [e] = (None, Some ErrNotImplemented))).
  { unfold translatePredicate. cbn [translateLoop]. split.
    - intros r err. destruct (translateExp ∅ e) as [b|err'] eqn:He; [done|].
      intros [= <- <-]. split; [done|]. by eapply H1.
    - intros Hf. by rewrite H2. }
  unfold translateSub.
  destruct e as [l|l|f l| | | | | | | | | | | |l| ]; cbn [expToPredicate]; try exact Hone.
  cbn [children] in IH. apply (translatePredicate_errors l IH).
Qed.

(** C8. A predicate that contains, at any depth, a node of a kind outside
    the allow-list of the compiler does not compile: the result is
    [ErrNotImplemented], the only failure the compiler has, and the
    returned filter is nil. *)
Theorem translatePredicate_not_implemented (q : query.Predicate) :
  existsb containsForeign q = true →
  translatePredicate q = (None, Some ErrNotImplemented).
Proof.
  apply translatePredicate_errors, Forall_forall.
  intros e _. apply translateExp_onlyNotImplemented.
Qed.

Lemma translateExp_leaf e k v b :
  leafClause e = Some (k, v) → translateExp b e = inl (<[k := v]> b).
Proof.
  destruct e as [| | | | | | | | | | | | |f p []| | ]; cbn; intros [= <- <-]; done.
Qed.

Lemma translateExp_frame e :
  (∃ k v, writtenKey e = Some k ∧ ∀ b, translateExp b e = inl (<[k := v]> b))
  ∨ (∃ err, ∀ b, translateExp b e = inr err).
Proof.
  destruct (leafClause e) as [[k v]|] eqn:Hleaf.
  { left. exists k, v. split; [|intros b; by apply translateExp_leaf].
    destruct e as [| | | | | | | | | | | | |f p []| | ]; by simplify_eq/=. }
  destruct e as [l|l|f l| | | | | | | | | | | |l| ]; try discriminate Hleaf.
  - destruct (collectSubs translateSub l []) as [s|err] eqn:Hc.
    + left. eexists _, _. split; [done|]. intros b. by rewrite translateExp_And, Hc.
    + right. exists err. intros b. by rewrite translateExp_And, Hc.
  - destruct (collectSubs translateSub l []) as [s|err] eqn:Hc.
    + left. eexists _, _. split; [done|]. intros b. by rewrite translateExp_Or, Hc.
    + right. exists err. intros b. by rewrite translateExp_Or, Hc.
  - destruct (mergeSubs translateSub l ∅) as [s|err] eqn:Hc.
    + left. eexists _, _. split; [done|]. intros b. by rewrite translateExp_ElemMatch, Hc.
    + right. exists err. intros b. by rewrite translateExp_ElemMatch, Hc.
  - destruct Negated; discriminate.
  - right. by exists ErrNotImplemented.
  - right. by exists ErrNotImplemented.
Qed.

Lemma agreeOff_insert k j v m1 m2 :
  agreeOff k m1 m2 → agreeOff k (<[j := v]> m1) (<[j := v]> m2).
Proof.
  intros H i Hi. destruct (decide (j = i)) as [->|Hne].
  - by rewrite !lookup_insert_eq.
  - rewrite !lookup_insert_ne by done. by apply H.
Qed.

Lemma agreeOff_insert_same k v m1 m2 :
  agreeOff k m1 m2 → <[k := v]> m1 = <[k := v]> m2.
Proof.
  intros H. apply map_eq. intros i. destruct (decide (k = i)) as [->|Hne].
  - by rewrite !lookup_insert_eq.
  - rewrite !lookup_insert_ne by done. by apply H.
Qed.

Lemma agreeOff_union k bx m1 m2 :
  agreeOff k m1 m2 → agreeOff k (bx ∪ m1) (bx ∪ m2).
Proof.
  intros H i Hi. rewrite !lookup_union. by rewrite (H i Hi).
Qed.

Lemma translateLoop_app b l1 l2 :
  translateLoop b (l1 ++ l2) =
  match translateLoop b l1 with
  | inl b' => translateLoop b' l2
  | inr err => inr err
  end.
Proof.
  revert b. induction l1 as [|x l1 IH]; intros b; cbn; [done|].
  destruct (translateExp b x); [apply IH | done].
Qed.

Lemma translateLoop_agree k q b1 b2 :
  agreeOff k b1 b2 → sameOutcome k (translateLoop b1 q) (translateLoop b2 q).
Proof.
  revert b1 b2. induction q as [|x q IH]; intros b1 b2 Hb; cbn; [done|].
  destruct (translateExp_frame x) as [(j & v & _ & Hx)|(err & Hx)]; rewrite !Hx.
  - by apply IH, agreeOff_insert.
  - done.
Qed.

Lemma translateLoop_overwrites pre e1 mid e2 post k c1 c2 b :
  leafClause e1 = Some (k, c1) → leafClause e2 = Some (k, c2) →
  translateLoop b (pre ++ e1 :: mid ++ e2 :: post)
  = translateLoop b (pre ++ mid ++ e2 :: post).
Proof.
  intros H1 H2. rewrite !translateLoop_app.
  destruct (translateLoop b pre) as [b'|err]; [|done]. cbn [translateLoop].
  rewrite (translateExp_leaf e1 k c1) by done. rewrite !translateLoop_app.
  assert (Hagree : agreeOff k (<[k := c1]> b') b').
  { intros j Hj. by rewrite lookup_insert_ne. }
  pose proof (translateLoop_agree k mid _ _ Hagree) as Hmid.
  destruct (translateLoop (<[k := c1]> b') mid) as [m1|err1],
           (translateLoop b' mid) as [m2|err2]; cbn in Hmid; try done.
  - cbn [translateLoop]. rewrite !(translateExp_leaf e2 k c2) by done.
    by rewrite (agreeOff_insert_same k c2 m1 m2).
  - by subst.
Qed.

Lemma translateLoop_keeps k q b r :
  Forall (fun x => writtenKey x ≠ Some k) q →
  translateLoop b q = inl r → r !! k = b !! k.
Proof.
  intros Hq. revert b. induction Hq as [|x q Hx _ IH]; intros b; cbn.
  - by intros [= ->].
  - destruct (translateExp_frame x) as [(j & v & Hj & Hstep)|(err & Hstep)]; rewrite Hstep.
    + intros Hr. rewrite (IH _ Hr). apply lookup_insert_ne. congruence.
    + done.
Qed.

Lemma mergeInto_union s bx : mergeInto s (Some bx) = bx ∪ s.
Proof.
  unfold mergeInto. cbn.
  apply (map_fold_weak_ind (fun r m => r = m ∪ s)).
  - by rewrite (left_id_L ∅ (∪)).
  - intros i x m r Hi ->. by rewrite insert_union_l.
Qed.

Lemma mergeInto_nil s : mergeInto s None = s.
Proof. unfold mergeInto. cbn. by rewrite map_fold_empty. Qed.

Lemma translateSub_leaf e k v :
  leafClause e = Some (k, v) → translateSub e = (Some {[ k := v ]}, None).
Proof.
  intros Hleaf. unfold translateSub, translatePredicate.
  replace (expToPredicate e) with [e] by (by destruct e).
  cbn [translateLoop]. by rewrite (translateExp_leaf e k v).
Qed.

Lemma mergeSubs_app l1 l2 s :
  mergeSubs translateSub (l1 ++ l2) s =
  match mergeSubs translateSub l1 s with
  | inl s' => mergeSubs translateSub l2 s'
  | inr err => inr err
  end.
Proof.
  revert s. induction l1 as [|x l1 IH]; intros s; cbn; [done|].
  destruct (translateSub x) as [sb [err|]]; [done | apply IH].
Qed.

Lemma mergeSubs_agree k l s1 s2 :
  agreeOff k s1 s2 →
  sameOutcome k (mergeSubs translateSub l s1) (mergeSubs translateSub l s2).
Proof.
  revert s1 s2. induction l as [|x l IH]; intros s1 s2 Hs; cbn; [done|].
  destruct (translateSub x) as [[bx|] [err|]]; try done; apply IH.
  - rewrite !mergeInto_union. by apply agreeOff_union.
  - by rewrite !mergeInto_nil.
Qed.

Lemma mergeSubs_overwrites pre e1 mid e2 post k c1 c2 s :
  leafClause e1 = Some (k, c1) → leafClause e2 = Some (k, c2) →
  mergeSubs translateSub (pre ++ e1 :: mid ++ e2 :: post) s
  = mergeSubs translateSub (pre ++ mid ++ e2 :: post) s.
Proof.
  intros H1 H2. rewrite !mergeSubs_app.
  destruct (mergeSubs translateSub pre s) as [s'|err]; [|done]. cbn [mergeSubs].
  rewrite (translateSub_leaf e1 k c1) by done. rewrite !mergeSubs_app.
  rewrite mergeInto_union, <- insert_union_singleton_l.
  assert (Hagree : agreeOff k (<[k := c1]> s') s').
  { intros j Hj. by rewrite lookup_insert_ne. }
  pose proof (mergeSubs_agree k mid _ _ Hagree) as Hmid.
  destruct (mergeSubs translateSub mid (<[k := c1]> s')) as [m1|err1],
           (mergeSubs translateSub mid s') as [m2|err2]; cbn in Hmid; try done.
  - cbn [mergeSubs]. rewrite !(translateSub_leaf e2 k c2) by done.
    rewrite !mergeInto_union, <- !insert_union_singleton_l.
    by rewrite (agreeOff_insert_same k c2 m1 m2).
  - by subst.
Qed.

Lemma collectSubs_leaves l kvs s :
  Forall2 (fun e kv => leafClause e = Some kv) l kvs →
  collectSubs translateSub l s
  = inl (s ++ ((fun kv : string * value => Some {[ kv.1 := kv.2 ]}) <$> kvs)).
Proof.
  intros H. revert s. induction H as [|e [k v] l kvs He _ IH]; intros s; cbn.
  - by rewrite app_nil_r.
  - rewrite (translateSub_leaf e k v) by done. rewrite IH. by rewrite <- app_assoc.
Qed.

Lemma translatePredicate_not_implemented_witness :
  existsb containsForeign
    [query.Equal "a" (VInt 1); query.And [query.SubPredicate [query.Foreign "geoWithin"]]] = true
  ∧ translatePredicate
      [query.Equal "a" (VInt 1); query.And [query.SubPredicate [query.Foreign "geoWithin"]]]
    = (None, Some ErrNotImplemented).
Proof.
  split; [reflexivity|].
  apply (translatePredicate_not_implemented
           [query.Equal "a" (VInt 1);
            query.And [query.SubPredicate [query.Foreign "geoWithin"]]]).
  reflexivity.
Defined.

(** A predicate used as an expression is unwrapped under a conjunction, a
    disjunction or an element-match only: as a direct element of a
    predicate the [switch] does not list it. *)
Lemma translatePredicate_nested_predicate (pre post : query.Predicate) (p : query.Predicate) :
  (∃ b, translatePredicate pre = (Some b, None)) →
  translatePredicate (pre ++ query.SubPredicate p :: post) = (None, Some ErrNotImplemented).
Proof.
  unfold translatePredicate. rewrite translateLoop_app.
  destruct (translateLoop ∅ pre) as [b|err]; [done|]. by intros [b [=]].
Qed.

(** A predicate built from allow-listed leaves compiles. *)
Lemma translateLoop_leaves (q : query.Predicate) (b : bson.M) :
  Forall (fun e => is_Some (leafClause e)) q → ∃ b', translateLoop b q = inl b'.
Proof.
  intros Hq. revert b. induction Hq as [|e q [[k v] He] _ IH]; intros b; cbn.
  - by exists b.
  - rewrite (translateExp_leaf e k v) by done. apply IH.
Qed.

Lemma translateSub_keeps k x sb :
  Forall (fun y => writtenKey y ≠ Some k) (expToPredicate x) →
  translateSub x = (sb, None) → entries sb !! k = None.
Proof.
  intros Hx. unfold translateSub, translatePredicate.
  destruct (translateLoop ∅ (expToPredicate x)) as [r|err] eqn:Hrun; [|done].
  intros [= <-]. cbn. by rewrite (translateLoop_keeps k _ ∅ r Hx Hrun).
Qed.

Lemma mergeInto_lookup s sb k :
  mergeInto s sb !! k = match entries sb !! k with Some v => Some v | None => s !! k end.
Proof.
  destruct sb as [bx|]; [rewrite mergeInto_union | rewrite mergeInto_nil]; cbn.
  - rewrite lookup_union. by destruct (bx !! k), (s !! k).
  - by rewrite lookup_empty.
Qed.

Lemma mergeSubs_keeps k l s r :
  Forall (fun x => Forall (fun y => writtenKey y ≠ Some k) (expToPredicate x)) l →
  mergeSubs translateSub l s = inl r → r !! k = s !! k.
Proof.
  intros Hl. revert s. induction Hl as [|x l Hx _ IH]; intros s; cbn.
  - by intros [= ->].
  - destruct (translateSub x) as [sb [err|]] eqn:Hsub; [done|].
    intros Hr. rewrite (IH _ Hr), mergeInto_lookup.
    by rewrite (translateSub_keeps k x sb Hx Hsub).
Qed.

Lemma mergeSubs_last_leaf pre e2 post k c2 s r :
  leafClause e2 = Some (k, c2) →
  Forall (fun x => Forall (fun y => writtenKey y ≠ Some k) (expToPredicate x)) post →
  mergeSubs translateSub (pre ++ e2 :: post) s = inl r → r !! k = Some c2.
Proof.
  intros H2 Hpost. rewrite mergeSubs_app.
  destruct (mergeSubs translateSub pre s) as [s'|err]; [|done]. cbn [mergeSubs].
  rewrite (translateSub_leaf e2 k c2) by done.
  intros Hr. rewrite (mergeSubs_keeps k post _ r Hpost Hr), mergeInto_lookup. cbn.
  by rewrite lookup_singleton_eq.
Qed.

Lemma collectSubs_all l subs s :
  Forall2 (fun x sb => translateSub x = (sb, None)) l subs →
  collectSubs translateSub l s = inl (s ++ subs).
Proof.
  intros H. revert s. induction H as [|x sb l subs Hx _ IH]; intros s; cbn.
  - by rewrite app_nil_r.
  - rewrite Hx, IH. by rewrite <- app_assoc.
Qed.

Lemma collectSubs_inv l s r :
  collectSubs translateSub l s = inl r →
  ∃ subs, r = s ++ subs ∧ Forall2 (fun x sb => translateSub x = (sb, None)) l subs.
Proof.
  revert s. induction l as [|x l IH]; intros s; cbn.
  - intros [= <-]. exists []. by rewrite app_nil_r.
  - destruct (translateSub x) as [sb [err|]] eqn:Hx; [done|].
    intros (subs & -> & Hsubs)%IH. exists (sb :: subs). split.
    + by rewrite <- app_assoc.
    + by constructor.
Qed.

(** C10. Among the expressions of one predicate (the list
    [translatePredicate] iterates over) and among the inner conditions of
    one element-match, a leaf expression followed by a later leaf on the
    same translated field name has no effect on the compiled filter and
    raises no error: its clause is overwritten.  The filter, and the merged
    document of the element-match, hold under that name the clause of the
    last such leaf when no later expression of the list assigns the same
    key.  The children of an explicit conjunction or disjunction, whatever
    their kind, are compiled into documents of their own, which are all
    kept, in order: the node compiles exactly when all its children do. *)
Theorem last_clause_wins (pre mid post : list query.Expression)
    (e1 e2 : query.Expression) (k : string) (c1 c2 : value) :
  leafClause e1 = Some (k, c1) →
  leafClause e2 = Some (k, c2) →
  translatePredicate (pre ++ e1 :: mid ++ e2 :: post)
    = translatePredicate (pre ++ mid ++ e2 :: post)
  ∧ (∀ b, Forall (fun x => writtenKey x ≠ Some k) post →
          translatePredicate (pre ++ e1 :: mid ++ e2 :: post) = (Some b, None) →
          b !! k = Some c2)
  ∧ (∀ f, translatePredicate [query.ElemMatch f (pre ++ e1 :: mid ++ e2 :: post)]
          = translatePredicate [query.ElemMatch f (pre ++ mid ++ e2 :: post)])
  ∧ (∀ f b,
        Forall (fun x => Forall (fun y => writtenKey y ≠ Some k) (expToPredicate x)) post →
        translatePredicate [query.ElemMatch f (pre ++ e1 :: mid ++ e2 :: post)] = (Some b, None) →
        ∃ s, b = {[ getField f := VDoc {[ "$elemMatch" := VDoc s ]} ]}
             ∧ s !! k = Some c2)
  ∧ (∀ l kvs, Forall2 (fun e kv => leafClause e = Some kv) l kvs →
        translatePredicate [query.And l]
          = (Some {[ "$and" := VArray ((fun kv : string * value => VDoc {[ kv.1 := kv.2 ]}) <$> kvs) ]},
             None)
        ∧ translatePredicate [query.Or l]
          = (Some {[ "$or" := VArray ((fun kv : string * value => VDoc {[ kv.1 := kv.2 ]}) <$> kvs) ]},
             None))
  ∧ (∀ l subs, Forall2 (fun x sb => translateSub x = (sb, None)) l subs →
        translatePredicate [query.And l] = (Some {[ "$and" := VArray (docValue <$> subs) ]}, None)
        ∧ translatePredicate [query.Or l] = (Some {[ "$or" := VArray (docValue <$> subs) ]}, None))
  ∧ (∀ l b, translatePredicate [query.And l] = (Some b, None)
            ∨ translatePredicate [query.Or l] = (Some b, None) →
        ∃ subs, Forall2 (fun x sb => translateSub x = (sb, None)) l subs).
Proof.
  intros H1 H2. split; [|split; [|split; [|split; [|split; [|split]]]]].
  - unfold translatePredicate.
    by rewrite (translateLoop_overwrites pre e1 mid e2 post k c1 c2 ∅ H1 H2).
  - intros b Hpost. unfold translatePredicate.
    destruct (translateLoop ∅ (pre ++ e1 :: mid ++ e2 :: post)) as [r|err] eqn:Hrun; [|done].
    intros [= <-]. revert Hrun.
    change (pre ++ e1 :: mid ++ e2 :: post) with (pre ++ (e1 :: mid) ++ e2 :: post).
    rewrite (app_assoc pre (e1 :: mid) (e2 :: post)), translateLoop_app.
    destruct (translateLoop ∅ (pre ++ e1 :: mid)) as [b1|err]; [|done].
    cbn [translateLoop]. rewrite (translateExp_leaf e2 k c2) by done.
    intros Hr. rewrite (translateLoop_keeps k post _ r Hpost Hr).
    apply lookup_insert_eq.
  - intros f. unfold translatePredicate. cbn [translateLoop].
    rewrite !translateExp_ElemMatch.
    by rewrite (mergeSubs_overwrites pre e1 mid e2 post k c1 c2 ∅ H1 H2).
  - intros f b Hpost. unfold translatePredicate. cbn [translateLoop].
    rewrite translateExp_ElemMatch.
    destruct (mergeSubs translateSub (pre ++ e1 :: mid ++ e2 :: post) ∅) as [s|err] eqn:Hrun;
      [|done].
    intros [= <-]. exists s. split; [done|].
    revert Hrun.
    change (pre ++ e1 :: mid ++ e2 :: post) with (pre ++ (e1 :: mid) ++ e2 :: post).
    rewrite (app_assoc pre (e1 :: mid) (e2 :: post)).
    by apply mergeSubs_last_leaf.
  - intros l kvs Hl. unfold translatePredicate. cbn [translateLoop].
    rewrite translateExp_And, translateExp_Or.
    rewrite (collectSubs_leaves l kvs [] Hl). cbn [app].
    rewrite <- list_fmap_compose. done.
  - intros l subs Hl. unfold translatePredicate. cbn [translateLoop].
    rewrite translateExp_And, translateExp_Or.
    by rewrite (collectSubs_all l subs [] Hl).
  - intros l b. unfold translatePredicate. cbn [translateLoop].
    rewrite translateExp_And, translateExp_Or.
    destruct (collectSubs translateSub l []) as [r|err] eqn:Hrun; [|by intros [|]].
    intros _. destruct (collectSubs_inv l [] r Hrun) as (subs & _ & Hsubs). by exists subs.
Qed.

Lemma last_clause_wins_witness :
  leafClause (query.GreaterThan "id" (VInt 1)) = Some ("_id", VDoc {[ "$gt" := VInt 1 ]})
  ∧ leafClause (query.LowerThan "_id" (VInt 5)) = Some ("_id", VDoc {[ "$lt" := VInt 5 ]})
  ∧ translatePredicate [query.GreaterThan "id" (VInt 1); query.Exist "a"; query.LowerThan "_id" (VInt 5)]
    = translatePredicate [query.Exist "a"; query.LowerThan "_id" (VInt 5)]
  ∧ (∃ s, translatePredicate
            [query.ElemMatch "tags" [query.GreaterThan "id" (VInt 1); query.Exist "a";
                                     query.LowerThan "_id" (VInt 5)]]
          = (Some {[ "tags" := VDoc {[ "$elemMatch" := VDoc s ]} ]}, None)
          ∧ s !! "_id" = Some (VDoc {[ "$lt" := VInt 5 ]}))
  ∧ translatePredicate
      [query.And [query.Exist "a"; query.SubPredicate [query.Equal "a" (VInt 1)]]]
    = (Some {[ "$and" := VArray [VDoc {[ "a" := VDoc {[ "$exists" := VBool true ]} ]};
                                 VDoc {[ "a" := VInt 1 ]}] ]}, None).
Proof.
  split; [reflexivity|]. split; [reflexivity|].
  destruct (last_clause_wins [] [query.Exist "a"] []
              (query.GreaterThan "id" (VInt 1)) (query.LowerThan "_id" (VInt 5))
              "_id" (VDoc {[ "$gt" := VInt 1 ]}) (VDoc {[ "$lt" := VInt 5 ]})
              eq_refl eq_refl) as (Hdrop & _ & _ & Hmatch & _ & Hall & _).
  split; [exact Hdrop|]. split.
  - assert (Hrun : translatePredicate
                     [query.ElemMatch "tags" [query.GreaterThan "id" (VInt 1); query.Exist "a";
                                              query.LowerThan "_id" (VInt 5)]]
                   = (Some {[ "tags" := VDoc {[ "$elemMatch" :=
                               VDoc {[ "a" := VDoc {[ "$exists" := VBool true ]};
                                       "_id" := VDoc {[ "$lt" := VInt 5 ]} ]} ]} ]}, None))
      by (vm_compute; reflexivity).
    destruct (Hmatch "tags" _ (Forall_nil_2 _) Hrun) as (s & Hb & Hs).
    exists s. split; [|exact Hs].
    exact (eq_trans Hrun (f_equal (fun b => (Some b, None)) Hb)).
  - destruct (Hall [query.Exist "a"; query.SubPredicate [query.Equal "a" (VInt 1)]]
                [Some {[ "a" := VDoc {[ "$exists" := VBool true ]} ]};
                 Some {[ "a" := VInt 1 ]}]) as [Hand _].
    + constructor; [reflexivity|]. constructor; [reflexivity | constructor].
    + exact Hand.
Defined.

(** Two comparisons on one field listed as the children of a conjunction
    are both kept, and a later element-match on the field of two sibling
    leaves overwrites the clause of the last leaf as well. *)
Lemma conjunction_keeps_both_clauses :
  translatePredicate [query.And [query.GreaterThan "a" (VInt 1); query.LowerThan "a" (VInt 5)]]
    = (Some {[ "$and" := VArray [VDoc {[ "a" := VDoc {[ "$gt" := VInt 1 ]} ]};
                                 VDoc {[ "a" := VDoc {[ "$lt" := VInt 5 ]} ]}] ]}, None)
  ∧ translatePredicate [query.And [query.GreaterThan "a" (VInt 1); query.LowerThan "a" (VInt 5)]]
    ≠ translatePredicate [query.And [query.LowerThan "a" (VInt 5)]]
  ∧ translatePredicate [query.GreaterThan "a" (VInt 1); query.LowerThan "a" (VInt 5);
                        query.ElemMatch "a" []]
    = (Some {[ "a" := VDoc {[ "$elemMatch" := VDoc ∅ ]} ]}, None).
Proof.
  split; [vm_compute; reflexivity|]. split; [|vm_compute; reflexivity].
  vm_compute. discriminate.
Qed.

(** ** The executor *)

Lemma prefix_p_dash (s : string) :
  String.prefix "p-" s = true ↔ ∃ t, s = "p-" +:+ t.
Proof.
  split.
  - destruct s as [|a1 [|a2 t]]; cbn [String.prefix]; try discriminate.
    + by destruct (Ascii.ascii_dec "p" a1).
    + destruct (Ascii.ascii_dec "p" a1) as [<-|]; [|discriminate].
      destruct (Ascii.ascii_dec "-" a2) as [<-|]; [|discriminate].
      intros _. by exists t.
  - intros [t ->]. by destruct t.
Qed.

Section Runs.
Context (env : Env) (Hex : ObjectID -> string) (Sprint : value -> string).
Implicit Types (m : Handler env) (ctx : Ctx env) (w : World env).

Lemma c_run m ctx w :
  c env m ctx w =
  match ctxErr env ctx w.1 with
  | Some err => (inr err, w)
  | None => ((m ctx w.1).1, ((m ctx w.1).2, w.2))
  end.
Proof.
  unfold c, bind, Err, ret. cbn. destruct (ctxErr env ctx w.1); [done|].
  by destruct (m ctx w.1) as [[?|?] ?].
Qed.

Lemma c_trace m ctx w r w1 : c env m ctx w = (r, w1) → w1.2 = w.2.
Proof.
  rewrite c_run. destruct (ctxErr env ctx w.1); intros ?; by simplify_eq/=.
Qed.

Lemma Insert_run m ctx items w coll w1 err st2 :
  c env m ctx w = (inl coll, w1) →
  drvInsertMany env coll ctx (newMongoItem <$> items) w1.1 = (err, st2) →
  (Insert env m ctx items w).1 =
    match ctxErr env ctx st2 with
    | Some cerr => Some cerr
    | None => if isDup err then Some ErrConflict else err
    end.
Proof.
  intros Hc Hins. unfold Insert, bind, native, Err, ret. rewrite Hc, Hins. cbn.
  destruct (ctxErr env ctx st2) eqn:E; cbn; by rewrite ?E.
Qed.

Lemma isDup_codes err codes :
  asWriteException err = Some codes ∨ asBulkWriteException err = Some codes →
  11000 ∈ codes → isDup (Some err) = true.
Proof.
  intros Hshape Hin.
  assert (Hex1 : existsb (fun code => bool_decide (code = 11000)) codes = true).
  { apply existsb_exists. exists 11000. split; [by apply list_elem_of_In|].
    by apply bool_decide_eq_true. }
  unfold isDup. destruct Hshape as [-> | ->]; rewrite Hex1; [done|].
  by destruct (match asWriteException err with Some _ => _ | None => _ end).
Qed.

(** [isDup] holds exactly of the errors whose first write exception or
    first bulk write exception carries the code 11000. *)
Lemma isDup_spec err :
  isDup (Some err) = true ↔
  ∃ codes, (asWriteException err = Some codes ∨ asBulkWriteException err = Some codes)
           ∧ 11000 ∈ codes.
Proof.
  split; [|intros (codes & Hshape & Hin); by eapply isDup_codes].
  assert (Hcode : ∀ codes, existsb (fun code => bool_decide (code = 11000)) codes = true →
                           11000 ∈ codes).
  { intros codes (code & Hin & ->%bool_decide_eq_true)%existsb_exists.
    by apply list_elem_of_In. }
  unfold isDup.
  destruct (asWriteException err) as [codes1|] eqn:H1;
    destruct (asBulkWriteException err) as [codes2|] eqn:H2;
    try destruct (existsb _ codes1) eqn:E1; try destruct (existsb _ codes2) eqn:E2;
    try discriminate; intros _; eauto.
Qed.

(** C3. When the context is found done after the native insert call has
    returned, [Insert] returns the error of the context whatever the native
    call returned: a success, a native error, and also a duplicate-key
    failure already remapped to [ErrConflict]. *)
Theorem Insert_cancellation_wins m ctx items w coll w1 err st2 cerr :
  c env m ctx w = (inl coll, w1) →
  drvInsertMany env coll ctx (newMongoItem <$> items) w1.1 = (err, st2) →
  ctxErr env ctx st2 = Some cerr →
  (Insert env m ctx items w).1 = Some cerr.
Proof.
  intros Hc Hins Hctx. by rewrite (Insert_run _ _ _ _ _ _ _ _ Hc Hins), Hctx.
Qed.

(** C7. When the native bulk insert fails with an error that carries the
    duplicate-key code 11000 among its write errors, in the single-write or
    in the bulk-write shape, possibly wrapped, [isDup] detects it and
    [Insert] returns [ErrConflict], never the native error; only when the
    context is found done after the native call is the error of the context
    returned instead. *)
Theorem Insert_duplicate_key m ctx items w coll w1 err st2 codes :
  c env m ctx w = (inl coll, w1) →
  drvInsertMany env coll ctx (newMongoItem <$> items) w1.1 = (Some err, st2) →
  asWriteException err = Some codes ∨ asBulkWriteException err = Some codes →
  11000 ∈ codes →
  isDup (Some err) = true
  ∧ (Insert env m ctx items w).1 = Some (default ErrConflict (ctxErr env ctx st2)).
Proof.
  intros Hc Hins Hshape Hin.
  pose proof (isDup_codes err codes Hshape Hin) as Hdup. split; [done|].
  rewrite (Insert_run _ _ _ _ _ _ _ _ Hc Hins), Hdup.
  by destruct (ctxErr env ctx st2).
Qed.

Lemma matchFilter_eq id etag :
  matchFilter id etag =
  if String.prefix "p-" etag
  then <["_etag" := VDoc {[ "$exists" := VBool false ]}]> ({[ "_id" := id ]} : bson.M)
  else <["_etag" := VString etag]> {[ "_id" := id ]}.
Proof. unfold matchFilter, tagGuard. by destruct (String.prefix "p-" etag). Qed.

Lemma Update_run m ctx item original w coll w1 :
  c env m ctx w = (inl coll, w1) →
  Update env m ctx item original w =
    let s := matchFilter (resource.ID original) (resource.ETag original) in
    let id : bson.M := {[ "_id" := resource.ID original ]} in
    let mItem := newMongoItem item in
    let (r, st2) := drvReplaceOne env coll ctx s mItem w1.1 in
    match r with
    | inr err => (Some err, (st2, w.2 ++ [CallReplaceOne s mItem]))
    | inl MatchedCount =>
        if decide (MatchedCount = 0) then
          let (infoErr, st3) := drvFindOne env coll ctx id st2 in
          let tr := (w.2 ++ [CallReplaceOne s mItem]) ++ [CallFindOne id] in
          if decide (infoErr = Some ErrNoDocuments) then (Some ErrNotFound, (st3, tr))
          else match ctxErr env ctx st3 with
               | Some cerr => (Some cerr, (st3, tr))
               | None => (Some ErrConflict, (st3, tr))
               end
        else (None, (st2, w.2 ++ [CallReplaceOne s mItem]))
    end.
Proof.
  intros Hc. pose proof (c_trace _ _ _ _ _ Hc) as Htr.
  unfold Update, bind, native, Err, ret. rewrite Hc. cbv zeta.
  rewrite <- matchFilter_eq, Htr.
  destruct (drvReplaceOne _ _ _ _ _ _) as [[n|err] st2]; [|done].
  case_decide; [|done]. cbn.
  destruct (drvFindOne _ _ _ _ _) as [infoErr st3]. cbn.
  case_decide; [done|]. cbn. destruct (ctxErr env ctx st3) eqn:E; cbn; by rewrite ?E.
Qed.

Lemma Delete_run m ctx item w coll w1 :
  c env m ctx w = (inl coll, w1) →
  Delete env m ctx item w =
    let s := matchFilter (resource.ID item) (resource.ETag item) in
    let id : bson.M := {[ "_id" := resource.ID item ]} in
    let (r, st2) := drvDeleteOne env coll ctx s w1.1 in
    match r with
    | inr err => (Some err, (st2, w.2 ++ [CallDeleteOne s]))
    | inl DeletedCount =>
        if decide (DeletedCount = 0) then
          let (infoErr, st3) := drvFindOne env coll ctx id st2 in
          let tr := (w.2 ++ [CallDeleteOne s]) ++ [CallFindOne id] in
          if decide (infoErr = Some ErrNoDocuments) then (Some ErrNotFound, (st3, tr))
          else match ctxErr env ctx st3 with
               | Some cerr => (Some cerr, (st3, tr))
               | None => (Some ErrConflict, (st3, tr))
               end
        else (None, (st2, w.2 ++ [CallDeleteOne s]))
    end.
Proof.
  intros Hc. pose proof (c_trace _ _ _ _ _ Hc) as Htr.
  unfold Delete, bind, native, Err, ret. rewrite Hc. cbv zeta.
  rewrite <- matchFilter_eq, Htr.
  destruct (drvDeleteOne _ _ _ _ _) as [[n|err] st2]; [|done].
  case_decide; [|done]. cbn.
  destruct (drvFindOne _ _ _ _ _) as [infoErr st3]. cbn.
  case_decide; [done|]. cbn. destruct (ctxErr env ctx st3) eqn:E; cbn; by rewrite ?E.
Qed.

Lemma issued_app {A : Type} w (a : A) st (l : list NativeCall) :
  issued w (a, (st, w.2 ++ l)) = l.
Proof. unfold issued. cbn. by rewrite drop_app_length. Qed.

Lemma issued_nil {A : Type} w (a : A) st :
  issued w (a, (st, w.2)) = [].
Proof. unfold issued. cbn. by rewrite drop_all. Qed.

(** The trace of a conditional write followed by the re-fetch, whichever
    way the disambiguation goes. *)
Ltac issued_after_refetch env ctx st :=
  case_decide; [|destruct (ctxErr env ctx st)];
  by rewrite <- app_assoc, issued_app.

(** The four facts about a zero-match run, once the run is unfolded. *)
Ltac disambiguation_cases env ctx st :=
  split; [|split; [|split]];
  [ issued_after_refetch env ctx st
  | intros ->; by rewrite decide_True
  | let Hdone := fresh "Hdone" in
    intros ? ? Hdone; by rewrite decide_False, Hdone
  | let Hlive := fresh "Hlive" in
    intros -> Hlive; by rewrite decide_False, Hlive ].


(** C4. Whenever the collection opens, the first native call of [Update] is
    a replace, and the first native call of [Delete] a delete, on the match
    filter of the original (or of the item): the ["_id"] of the identifier
    plus a guard on ["_etag"], which requires the field to be absent
    ([$exists: false]) when the tag starts with ["p-"] and to equal the tag
    string otherwise; no other replace or delete is issued. *)
Theorem conditional_write_filter m ctx w coll w1 :
  c env m ctx w = (inl coll, w1) →
  (∀ item original, ∃ rest,
      issued w (Update env m ctx item original w)
      = CallReplaceOne (matchFilter (resource.ID original) (resource.ETag original))
                       (newMongoItem item) :: rest
      ∧ Forall (fun call => call = CallFindOne {[ "_id" := resource.ID original ]}) rest)
  ∧ (∀ item, ∃ rest,
      issued w (Delete env m ctx item w)
      = CallDeleteOne (matchFilter (resource.ID item) (resource.ETag item)) :: rest
      ∧ Forall (fun call => call = CallFindOne {[ "_id" := resource.ID item ]}) rest)
  ∧ (∀ id etag,
      matchFilter id etag !! "_id" = Some id
      ∧ dom (matchFilter id etag) = {[ "_id"; "_etag" ]}
      ∧ ((∃ t, etag = "p-" +:+ t) →
         matchFilter id etag !! "_etag" = Some (VDoc {[ "$exists" := VBool false ]}))
      ∧ ((¬ ∃ t, etag = "p-" +:+ t) →
         matchFilter id etag !! "_etag" = Some (VString etag))).
Proof.
  intros Hc. split; [|split].
  - intros item original. rewrite (Update_run m ctx item original w coll w1 Hc). cbv zeta.
    destruct (drvReplaceOne _ _ _ _ _ _) as [[n|err] st2].
    + case_decide; [|exists []; by rewrite issued_app].
      destruct (drvFindOne _ _ _ _ _) as [infoErr st3].
      exists [CallFindOne {[ "_id" := resource.ID original ]}].
      split; [issued_after_refetch env ctx st3 | by repeat constructor].
    + exists []. by rewrite issued_app.
  - intros item. rewrite (Delete_run m ctx item w coll w1 Hc). cbv zeta.
    destruct (drvDeleteOne _ _ _ _ _) as [[n|err] st2].
    + case_decide; [|exists []; by rewrite issued_app].
      destruct (drvFindOne _ _ _ _ _) as [infoErr st3].
      exists [CallFindOne {[ "_id" := resource.ID item ]}].
      split; [issued_after_refetch env ctx st3 | by repeat constructor].
    + exists []. by rewrite issued_app.
  - intros id etag. unfold matchFilter, tagGuard. split; [|split; [|split]].
    + by rewrite lookup_insert_ne, lookup_singleton_eq.
    + rewrite dom_insert_L, dom_singleton_L. apply (comm_L (∪)).
    + intros Hp%prefix_p_dash. by rewrite Hp, lookup_insert_eq.
    + intros Hp. rewrite lookup_insert_eq.
      destruct (String.prefix "p-" etag) eqn:Hpre; [|done].
      by apply prefix_p_dash in Hpre.
Qed.

(** C1. When the collection opens and the conditional native write of
    [Update] (the replace) or of [Delete] (the delete) succeeds but matches
    no document, the operation re-fetches by identifier alone and returns
    [ErrNotFound] if the re-fetch reports that no document exists, also when
    the context is done by then; otherwise it returns the error of the
    context if the context is done, and [ErrConflict] if the document was
    found and the context is live. *)
Theorem zero_match_disambiguation m ctx w coll w1 :
  c env m ctx w = (inl coll, w1) →
  (∀ item original st2 infoErr st3,
      drvReplaceOne env coll ctx
        (matchFilter (resource.ID original) (resource.ETag original))
        (newMongoItem item) w1.1 = (inl 0, st2) →
      drvFindOne env coll ctx {[ "_id" := resource.ID original ]} st2 = (infoErr, st3) →
      issued w (Update env m ctx item original w)
      = [CallReplaceOne (matchFilter (resource.ID original) (resource.ETag original))
                        (newMongoItem item);
         CallFindOne {[ "_id" := resource.ID original ]}]
      ∧ (infoErr = Some ErrNoDocuments →
         (Update env m ctx item original w).1 = Some ErrNotFound)
      ∧ (infoErr ≠ Some ErrNoDocuments → ∀ cerr, ctxErr env ctx st3 = Some cerr →
         (Update env m ctx item original w).1 = Some cerr)
      ∧ (infoErr = None → ctxErr env ctx st3 = None →
         (Update env m ctx item original w).1 = Some ErrConflict))
  ∧ (∀ item st2 infoErr st3,
      drvDeleteOne env coll ctx
        (matchFilter (resource.ID item) (resource.ETag item)) w1.1 = (inl 0, st2) →
      drvFindOne env coll ctx {[ "_id" := resource.ID item ]} st2 = (infoErr, st3) →
      issued w (Delete env m ctx item w)
      = [CallDeleteOne (matchFilter (resource.ID item) (resource.ETag item));
         CallFindOne {[ "_id" := resource.ID item ]}]
      ∧ (infoErr = Some ErrNoDocuments →
         (Delete env m ctx item w).1 = Some ErrNotFound)
      ∧ (infoErr ≠ Some ErrNoDocuments → ∀ cerr, ctxErr env ctx st3 = Some cerr →
         (Delete env m ctx item w).1 = Some cerr)
      ∧ (infoErr = None → ctxErr env ctx st3 = None →
         (Delete env m ctx item w).1 = Some ErrConflict)).
Proof.
  intros Hc. split.
  - intros item original st2 infoErr st3 Hwrite Hfetch.
    rewrite (Update_run m ctx item original w coll w1 Hc). cbv zeta.
    rewrite Hwrite, decide_True, Hfetch by done.
    disambiguation_cases env ctx st3.
  - intros item st2 infoErr st3 Hwrite Hfetch.
    rewrite (Delete_run m ctx item w coll w1 Hc). cbv zeta.
    rewrite Hwrite, decide_True, Hfetch by done.
    disambiguation_cases env ctx st3.
Qed.

Lemma Count_run m ctx q w :
  Count env m ctx q w =
  match getQuery q with
  | (_, Some err) => ((-1, Some err), w)
  | (qry, None) =>
      match c env m ctx w with
      | (inr err, w1) => ((-1, Some err), w1)
      | (inl coll, w1) =>
          let maxTime := (fun dl => timeUntil env dl w1.1) <$> ctxDeadline env ctx in
          let (r, st2) := drvCountDocuments env coll ctx qry maxTime w1.1 in
          (match r with
           | inr err => (-1, Some err)
           | inl n => (n, None)
           end, (st2, w1.2 ++ [CallCountDocuments qry maxTime]))
      end
  end.
Proof.
  unfold Count, bind, native, Until, ret.
  destruct (getQuery q) as [qry [err|]]; [done|].
  destruct (c env m ctx w) as [[coll|err] w1]; [|done].
  destruct (ctxDeadline env ctx) as [dl|]; cbn;
    by destruct (drvCountDocuments _ _ _ _ _ _) as [[n|err] st2].
Qed.

Lemma Count_issued m ctx q w :
  issued w (Count env m ctx q w) = []
  ∨ ∃ filter maxTime, issued w (Count env m ctx q w) = [CallCountDocuments filter maxTime].
Proof.
  rewrite Count_run. destruct (getQuery q) as [qry [err|]].
  { left. destruct w. apply issued_nil. }
  destruct (c env m ctx w) as [[coll|err] w1] eqn:Hc;
    pose proof (c_trace _ _ _ _ _ Hc) as Htr.
  - right. cbv zeta. destruct (drvCountDocuments _ _ _ _ _ _) as [r st2].
    rewrite Htr. eexists _, _. apply issued_app.
  - left. destruct w1 as [st1 tr1]. cbn in Htr. subst tr1. apply issued_nil.
Qed.

Lemma Find_zero_limit_run m ctx q win w :
  query.qWindow q = Some win → query.Limit win = 0 →
  Find env Hex Sprint m ctx q w =
    (match (Count env m ctx q w).1 with
     | (_, Some err) => (None, Some err)
     | (n, None) => (Some {| resource.Total := n;
                             resource.Limit := 0;
                             resource.Items := [] |}, None)
     end, (Count env m ctx q w).2).
Proof.
  intros Hwin Hlimit.
  unfold Find. rewrite Hwin. cbn [fmap option_fmap option_map default].
  rewrite Hlimit, bool_decide_eq_true_2 by done.
  unfold bind, ret. by destruct (Count env m ctx q w) as [[n [err|]] w'].
Qed.

Lemma Find_zero_limit_no_find m ctx q win w filter opts :
  query.qWindow q = Some win → query.Limit win = 0 →
  CallFind filter opts ∉ issued w (Find env Hex Sprint m ctx q w).
Proof.
  intros Hwin Hlimit. rewrite (Find_zero_limit_run m ctx q win w Hwin Hlimit).
  change (issued w (?r, (Count env m ctx q w).2))
    with (issued w (Count env m ctx q w)).
  destruct (Count_issued m ctx q w) as [-> | (f & t & ->)].
  - apply not_elem_of_nil.
  - rewrite list_elem_of_singleton. discriminate.
Qed.

(** C6. When the window of the descriptor is present with limit 0, [Find]
    issues no native find: its native calls are those of [Count] on the
    same descriptor, and it returns the error of [Count], or else an empty
    item list whose total is the count and whose limit is 0. *)
Theorem Find_zero_limit_counts m ctx q win w :
  query.qWindow q = Some win → query.Limit win = 0 →
  (∀ filter opts, CallFind filter opts ∉ issued w (Find env Hex Sprint m ctx q w))
  ∧ issued w (Find env Hex Sprint m ctx q w) = issued w (Count env m ctx q w)
  ∧ Find env Hex Sprint m ctx q w =
      (match (Count env m ctx q w).1 with
       | (_, Some err) => (None, Some err)
       | (n, None) => (Some {| resource.Total := n;
                               resource.Limit := 0;
                               resource.Items := [] |}, None)
       end, (Count env m ctx q w).2).
Proof.
  intros Hwin Hlimit. split; [|split].
  - intros filter opts. by apply (Find_zero_limit_no_find m ctx q win).
  - by rewrite (Find_zero_limit_run m ctx q win w Hwin Hlimit).
  - exact (Find_zero_limit_run m ctx q win w Hwin Hlimit).
Qed.

Lemma wrap_int_id z : in_int z → wrap_int z = z.
Proof.
  unfold in_int, int_min, int_max, wrap_int. intros Hz.
  rewrite Z.mod_small; lia.
Qed.

(** C2. When [Find] issues a native find and returns a list without error,
    with [n] items, window offset [offset] (0 without a window) and limit
    [limit] (-1 without a window), and [offset + n] in the range of [int]:
    if the limit is negative or [n] is below it, the total is [n] when the
    offset is 0, [offset + n] when the offset is positive and [n > 0], and
    -1 when the offset is positive and [n = 0]; if [n] equals the limit the
    total is -1. *)
Theorem Find_total_policy m ctx q w l w' filter opts :
  Find env Hex Sprint m ctx q w = ((Some l, None), w') →
  CallFind filter opts ∈ issued w (Find env Hex Sprint m ctx q w) →
  let n := Z.of_nat (length (resource.Items l)) in
  let limit := default (-1) (query.Limit <$> query.qWindow q) in
  let offset := default 0 (query.Offset <$> query.qWindow q) in
  in_int (offset + n) →
  (limit < 0 ∨ n < limit →
     (offset = 0 → resource.Total l = n)
     ∧ (offset > 0 → n > 0 → resource.Total l = offset + n)
     ∧ (offset > 0 → n = 0 → resource.Total l = -1))
  ∧ (n = limit → resource.Total l = -1).
Proof.
  intros Hrun Hcall n limit offset Hrange.
  destruct (match query.qWindow q with
            | Some w => bool_decide (query.Limit w = 0)
            | None => false
            end) eqn:Hzero.
  { destruct (query.qWindow q) as [win|] eqn:Hwin; [|done].
    apply bool_decide_eq_true in Hzero.
    by destruct (Find_zero_limit_no_find m ctx q win w filter opts Hwin Hzero). }
  clear Hcall. unfold Find in Hrun. rewrite Hzero in Hrun.
  unfold bind, ret, native, Until in Hrun.
  destruct (getQuery q) as [qry [err|]]; [done|].
  destruct (c env m ctx w) as [[coll|err] w1]; [|done].
  set (fo := SetProjection _ _) in Hrun.
  destruct (query.qWindow q) as [win|] eqn:Hwin.
  all: cbn [fmap option_fmap option_map default] in *.
  all: destruct (ctxDeadline env ctx) as [dl|].
  all: destruct (drvFind _ _ _ _ _ _) as [[cursor|err] st2]; [|done].
  all: destruct (findLoop _ _ _ _ _ _ _) as [[items|err] w3]; [|done].
  all: destruct (drvCursorClose _ _ _) as [[err|] st4]; [done|].
  all: injection Hrun as <- _; cbn [resource.Items resource.Total] in *.
  all: subst n limit offset.
  all: try (rewrite wrap_int_id by done).
  all: apply bool_decide_eq_false in Hzero || clear Hzero.
  all: unfold id in *; repeat case_decide; try case_bool_decide; lia.
Qed.
End Runs.

(** ** The executor on the scripted scenarios *)

Lemma zero_match_disambiguation_witness :
  c (scenarioEnv staleTag) (scenarioHandler staleTag) tt start = (inl tt, start)
  ∧ (Update (scenarioEnv staleTag) (scenarioHandler staleTag) tt sampleItem sampleItem start).1
    = Some ErrConflict
  ∧ (Delete (scenarioEnv goneAndCancelled) (scenarioHandler goneAndCancelled) tt sampleItem start).1
    = Some ErrNotFound.
Proof.
  split; [reflexivity|]. split.
  - destruct (zero_match_disambiguation (scenarioEnv staleTag) (scenarioHandler staleTag)
                tt start tt start eq_refl) as [Hupdate _].
    destruct (Hupdate sampleItem sampleItem 1%nat None 2%nat eq_refl eq_refl)
      as (_ & _ & _ & Hconflict).
    apply Hconflict; reflexivity.
  - destruct (zero_match_disambiguation (scenarioEnv goneAndCancelled)
                (scenarioHandler goneAndCancelled) tt start tt start eq_refl) as [_ Hdelete].
    destruct (Hdelete sampleItem 1%nat (Some ErrNoDocuments) 2%nat eq_refl eq_refl)
      as (_ & Hgone & _).
    apply Hgone; reflexivity.
Defined.

(** The re-fetch reports no document and the context is done when it
    returns: the result is [ErrNotFound], not the error of the context. *)
Lemma not_found_beats_cancellation :
  let r := Update (scenarioEnv goneAndCancelled) (scenarioHandler goneAndCancelled)
                  tt sampleItem sampleItem start in
  issued start r = [CallReplaceOne (matchFilter (VString "42") "abc") (newMongoItem sampleItem);
                    CallFindOne {[ "_id" := VString "42" ]}]
  ∧ ctxErr (scenarioEnv goneAndCancelled) tt r.2.1 = Some Canceled
  ∧ r.1 = Some ErrNotFound
  ∧ r.1 ≠ Some Canceled.
Proof. vm_compute. repeat split; discriminate. Qed.

Lemma Insert_cancellation_wins_witness :
  c (scenarioEnv dupAndCancelled) (scenarioHandler dupAndCancelled) tt start = (inl tt, start)
  ∧ drvInsertMany (scenarioEnv dupAndCancelled) tt tt (newMongoItem <$> [sampleItem]) 0%nat
    = (Some (BulkWriteException [11000]), 1%nat)
  ∧ ctxErr (scenarioEnv dupAndCancelled) tt 1%nat = Some Canceled
  ∧ (Insert (scenarioEnv dupAndCancelled) (scenarioHandler dupAndCancelled) tt [sampleItem] start).1
    = Some Canceled.
Proof.
  split; [reflexivity|]. split; [reflexivity|]. split; [reflexivity|].
  apply (Insert_cancellation_wins (scenarioEnv dupAndCancelled) (scenarioHandler dupAndCancelled)
           tt [sampleItem] start tt start (Some (BulkWriteException [11000])) 1%nat Canceled);
    reflexivity.
Defined.

(** The native insert failed on a duplicate key, which [isDup] detects and
    remaps to [ErrConflict]; the context is done when the call returns and
    [Insert] returns the error of the context in place of the conflict. *)
Lemma Insert_conflict_lost_to_cancellation :
  isDup (insertReply dupAndCancelled) = true
  ∧ (Insert (scenarioEnv dupAndCancelled) (scenarioHandler dupAndCancelled) tt [sampleItem] start).1
    = Some Canceled
  ∧ (Insert (scenarioEnv dupAndCancelled) (scenarioHandler dupAndCancelled) tt [sampleItem] start).1
    ≠ Some ErrConflict.
Proof. vm_compute. repeat split; discriminate. Qed.

Lemma Insert_duplicate_key_witness :
  c (scenarioEnv dupPastDeadline) (scenarioHandler dupPastDeadline) tt start = (inl tt, start)
  ∧ asWriteException (Wrapped "insert" (WriteException [121; 11000])) = Some [121; 11000]
  ∧ 11000 ∈ [121; 11000]
  ∧ isDup (Some (Wrapped "insert" (WriteException [121; 11000]))) = true
  ∧ (Insert (scenarioEnv dupPastDeadline) (scenarioHandler dupPastDeadline) tt [sampleItem] start).1
    = Some DeadlineExceeded.
Proof.
  split; [reflexivity|]. split; [reflexivity|].
  assert (Hin : 11000 ∈ [121; 11000]) by (right; left).
  split; [exact Hin|].
  apply (Insert_duplicate_key (scenarioEnv dupPastDeadline) (scenarioHandler dupPastDeadline)
           tt [sampleItem] start tt start (Wrapped "insert" (WriteException [121; 11000]))
           1%nat [121; 11000]); [reflexivity | reflexivity | by left | exact Hin].
Defined.

(** A duplicate-key failure of the native insert, with the deadline passed
    when the call returns: [Insert] does not return [ErrConflict]. *)
Lemma Insert_duplicate_key_past_deadline :
  isDup (insertReply dupPastDeadline) = true
  ∧ (Insert (scenarioEnv dupPastDeadline) (scenarioHandler dupPastDeadline) tt [sampleItem] start).1
    = Some DeadlineExceeded
  ∧ (Insert (scenarioEnv dupPastDeadline) (scenarioHandler dupPastDeadline) tt [sampleItem] start).1
    ≠ Some ErrConflict.
Proof. vm_compute. repeat split; discriminate. Qed.

Lemma conditional_write_filter_witness :
  c (scenarioEnv quiet) (scenarioHandler quiet) tt start = (inl tt, start)
  ∧ (∃ rest, issued start (Update (scenarioEnv quiet) (scenarioHandler quiet) tt
                             sampleItem sampleItem start)
             = CallReplaceOne (matchFilter (VString "42") "abc") (newMongoItem sampleItem) :: rest)
  ∧ matchFilter (VString "42") "p-42" !! "_etag" = Some (VDoc {[ "$exists" := VBool false ]}).
Proof.
  split; [reflexivity|].
  destruct (conditional_write_filter (scenarioEnv quiet) (scenarioHandler quiet)
              tt start tt start eq_refl) as (Hupdate & _ & Hfilter).
  split.
  - destruct (Hupdate sampleItem sampleItem) as (rest & Hrest & _). by exists rest.
  - destruct (Hfilter (VString "42") "p-42") as (_ & _ & Hsynthetic & _).
    apply Hsynthetic. by exists "42".
Defined.

Lemma Find_zero_limit_counts_witness :
  query.qWindow (windowQuery 0 0) = Some {| query.Offset := 0; query.Limit := 0 |}
  ∧ query.Limit {| query.Offset := 0; query.Limit := 0 |} = 0
  ∧ (Find (scenarioEnv fiveDocuments) hexEncode sprintScalar (scenarioHandler fiveDocuments)
          tt (windowQuery 0 0) start).1
    = (Some {| resource.Total := 5; resource.Limit := 0; resource.Items := [] |}, None)
  ∧ issued start (Find (scenarioEnv fiveDocuments) hexEncode sprintScalar
                       (scenarioHandler fiveDocuments) tt (windowQuery 0 0) start)
    = [CallCountDocuments (Some ∅) None].
Proof.
  split; [reflexivity|]. split; [reflexivity|].
  destruct (Find_zero_limit_counts (scenarioEnv fiveDocuments) hexEncode sprintScalar
              (scenarioHandler fiveDocuments) tt (windowQuery 0 0)
              {| query.Offset := 0; query.Limit := 0 |} start eq_refl eq_refl)
    as (_ & Hissued & Hrun).
  split.
  - exact (eq_trans (f_equal fst Hrun) eq_refl).
  - exact (eq_trans Hissued eq_refl).
Defined.

Lemma Find_total_policy_witness :
  let run := Find (scenarioEnv pastTheEnd) hexEncode sprintScalar
                  (scenarioHandler pastTheEnd) tt (windowQuery 10 10) start in
  let l := {| resource.Total := -1; resource.Limit := 10; resource.Items := [] |} in
  run = ((Some l, None), run.2)
  ∧ (∃ filter opts, CallFind filter opts ∈ issued start run)
  ∧ in_int (10 + 0)
  ∧ resource.Total l = -1.
Proof.
  cbv zeta.
  assert (Hrun : Find (scenarioEnv pastTheEnd) hexEncode sprintScalar
                   (scenarioHandler pastTheEnd) tt (windowQuery 10 10) start
                 = ((Some {| resource.Total := -1; resource.Limit := 10; resource.Items := [] |},
                     None),
                    (Find (scenarioEnv pastTheEnd) hexEncode sprintScalar
                       (scenarioHandler pastTheEnd) tt (windowQuery 10 10) start).2))
    by (vm_compute; reflexivity).
  assert (Hcall : CallFind (Some ∅)
                    (SetLimit (SetSkip (SetProjection (SetSort optionsFind [("_id", VInt 1)]) None) 10) 10)
                  ∈ issued start (Find (scenarioEnv pastTheEnd) hexEncode sprintScalar
                       (scenarioHandler pastTheEnd) tt (windowQuery 10 10) start))
    by (vm_compute; left).
  assert (Hrange : in_int (10 + 0)) by (unfold in_int, int_min, int_max; lia).
  split; [exact Hrun|]. split; [eauto|]. split; [exact Hrange|].
  destruct (Find_total_policy (scenarioEnv pastTheEnd) hexEncode sprintScalar
              (scenarioHandler pastTheEnd) tt (windowQuery 10 10) start _ _ _ _
              Hrun Hcall Hrange) as [Hbelow _].
  destruct Hbelow as (_ & _ & Hpast); [right; cbn; lia|].
  apply Hpast; cbn; lia.
Defined.

(** Five matching documents read with the window [{offset: 0, limit: 10}]:
    all five items are returned and the total is 5. *)
Example Find_five_documents :
  let run := Find (scenarioEnv fiveDocuments) hexEncode sprintScalar
                  (scenarioHandler fiveDocuments) tt (windowQuery 0 10) start in
  (resource.Total <$> run.1.1) = Some 5
  ∧ (resource.Limit <$> run.1.1) = Some 10
  ∧ (fmap (M := list) resource.ID <$> (resource.Items <$> run.1.1))
    = Some [VInt 1; VInt 2; VInt 3; VInt 4; VInt 5]
  ∧ (fmap (M := list) resource.ETag <$> (resource.Items <$> run.1.1))
    = Some ["p-1"; "p-2"; "p-3"; "p-4"; "p-5"]
  ∧ run.1.2 = None.
Proof. vm_compute. repeat split. Qed.

(** A stale tag on an existing document is a conflict; a correct tag
    succeeds. *)
Example Update_outcomes :
  (Update (scenarioEnv staleTag) (scenarioHandler staleTag) tt sampleItem sampleItem start).1
  = Some ErrConflict
  ∧ (Update (scenarioEnv quiet) (scenarioHandler quiet) tt sampleItem sampleItem start).1
    = None.
Proof. vm_compute. split; reflexivity. Qed.

(** * Properties of the rest of the package *)

(** ** The item codec, the sort and the projection *)

(** X1. [newMongoItem] keeps the identifier, the tag and the timestamp of the
    item, and its payload key by key, except for the key ["id"], which the
    stored document never has. *)
Theorem newMongoItem_payload (i : resource.Item) (k : string) :
  ID (newMongoItem i) = resource.ID i
  ∧ ETag (newMongoItem i) = resource.ETag i
  ∧ Updated (newMongoItem i) = resource.Updated i
  ∧ entries (Payload (newMongoItem i)) !! k =
      (if decide (k = "id") then None else entries (resource.Payload i) !! k).
Proof.
  repeat split. cbn. rewrite copy_payload_delete.
  case_decide as Hk.
  - subst k. apply lookup_delete_eq.
  - by apply lookup_delete_ne.
Qed.

(** X2. A stored document that has a tag and a payload without the key
    ["id"] is given back unchanged when it is decoded by [newItem] and the
    item is encoded again by [newMongoItem]. *)
Theorem stored_round_trip Hex Sprint (d : mongoItem) (p : bson.M) :
  ETag d ≠ "" →
  Payload d = Some p →
  p !! "id" = None →
  newMongoItem (newItem Hex Sprint d).1 = d.
Proof.
  intros Htag Hp Hid. destruct d as [id etag upd pay]. cbn in *. subst pay.
  unfold newItem, newMongoItem. cbn.
  rewrite decide_False by done. cbn.
  rewrite copy_payload_delete, delete_insert_id by done. done.
Qed.

Lemma stored_round_trip_witness :
  ETag taggedDocument ≠ ""
  ∧ Payload taggedDocument = Some {[ "name" := VString "x" ]}
  ∧ ({[ "name" := VString "x" ]} : bson.M) !! "id" = None
  ∧ newMongoItem (newItem hexEncode sprintScalar taggedDocument).1 = taggedDocument.
Proof.
  split; [discriminate|]. split; [reflexivity|]. split; [reflexivity|].
  apply (stored_round_trip hexEncode sprintScalar taggedDocument {[ "name" := VString "x" ]});
    [discriminate | reflexivity | reflexivity].
Defined.

Lemma append_nonempty (s t : string) : s ≠ "" → s +:+ t ≠ "".
Proof. by destruct s. Qed.

(** X3. The item built by [newItem] never has an empty tag: a stored tag is
    kept, and for a document stored without one the tag built from the
    identifier starts with ["p-"], so that the filter of a conditional write
    with this item asks for the absence of [_etag], not for its value. *)
Theorem newItem_tag Hex Sprint (d : mongoItem) :
  resource.ETag (newItem Hex Sprint d).1 ≠ ""
  ∧ (ETag d ≠ "" → resource.ETag (newItem Hex Sprint d).1 = ETag d)
  ∧ (ETag d = "" →
       tagGuard (resource.ETag (newItem Hex Sprint d).1) = VDoc {[ "$exists" := VBool false ]}
       ∧ ∀ id, matchFilter id (resource.ETag (newItem Hex Sprint d).1) !! "_etag"
               = Some (VDoc {[ "$exists" := VBool false ]})).
Proof.
  unfold newItem. cbn. case_decide as Htag; cbn.
  - split; [destruct (ID d); by apply append_nonempty|]. split; [done|]. intros _.
    assert (Hg : tagGuard (match ID d with
                           | VObjectID v => "p-" +:+ Hex v
                           | _ => "p-" +:+ Sprint (ID d)
                           end) = VDoc {[ "$exists" := VBool false ]}).
    { unfold tagGuard. rewrite (proj2 (prefix_p_dash _)); [done|].
      destruct (ID d); by eexists. }
    split; [done|]. intros id. unfold matchFilter. by rewrite Hg, lookup_insert_eq.
  - done.
Qed.

Lemma keepLast_distinct (l : bson.D) : NoDup (bson.Key <$> l) → keepLast l = l.
Proof.
  induction l as [|e r IH]; cbn; [done|].
  intros [Hout Hr]%NoDup_cons. rewrite decide_False by done. by rewrite IH.
Qed.

Lemma getField_not_id (f : string) : getField f ≠ "id".
Proof. unfold getField. by case_decide. Qed.

Lemma sortEntries_shape (q : query.Query) :
  Forall (fun e : bson.E => bson.Key e ≠ "id"
                            ∧ (bson.Value e = VInt 1 ∨ bson.Value e = VInt (-1)))
         (sortEntries q).
Proof.
  unfold sortEntries. apply Forall_fmap, Forall_forall. intros sort _. cbn.
  split; [apply getField_not_id|]. destruct (query.Reversed sort); auto.
Qed.

(** X4. [getSort] never returns an empty sort; its keys are pairwise
    distinct, none of them is ["id"], and every direction is 1 or -1. *)
Theorem getSort_well_formed (q : query.Query) :
  getSort q ≠ []
  ∧ NoDup (bson.Key <$> getSort q)
  ∧ Forall (fun e : bson.E => bson.Key e ≠ "id"
                              ∧ (bson.Value e = VInt 1 ∨ bson.Value e = VInt (-1)))
           (getSort q).
Proof.
  destruct (query.qSort q) as [|s0 ss] eqn:Hq.
  - rewrite (getSort_default q Hq). split; [done|]. split.
    + cbn. apply NoDup_singleton.
    + apply Forall_singleton. cbn. split; [done | by left].
  - assert (Hne : query.qSort q ≠ []) by (by rewrite Hq).
    rewrite (getSort_keepLast q Hne). split; [|split].
    + intros Hnil.
      assert (Hin : getField (query.Name s0) ∈ bson.Key <$> keepLast (sortEntries q)).
      { apply keepLast_keys. unfold sortEntries. rewrite Hq. cbn. left. }
      rewrite Hnil in Hin. by apply elem_of_nil in Hin.
    + apply keepLast_NoDup.
    + apply Forall_forall. intros e He.
      pose proof (sortEntries_shape q) as Hall. rewrite Forall_forall in Hall.
      apply Hall. eapply elem_of_sublist; [exact He | apply keepLast_sublist].
Qed.

(** X5. When the sort fields of the query name pairwise distinct stored
    fields, [getSort] returns one entry for each of them, in the order of
    the query: nothing is dropped. *)
Theorem getSort_distinct_names (q : query.Query) :
  query.qSort q ≠ [] →
  NoDup ((fun sort => getField (query.Name sort)) <$> query.qSort q) →
  getSort q = sortEntries q.
Proof.
  intros Hne Hnd. rewrite (getSort_keepLast q Hne). apply keepLast_distinct.
  unfold sortEntries. by rewrite <- list_fmap_compose.
Qed.


Lemma getSort_distinct_names_witness :
  query.qSort twoKeyQuery ≠ []
  ∧ NoDup ((fun sort => getField (query.Name sort)) <$> query.qSort twoKeyQuery)
  ∧ getSort twoKeyQuery = [("name", VInt (-1)); ("_id", VInt 1)].
Proof.
  assert (Hnd : NoDup ((fun sort => getField (query.Name sort)) <$> query.qSort twoKeyQuery)).
  { cbn. apply NoDup_cons. split; [|apply NoDup_singleton].
    intros Hin%list_elem_of_singleton. discriminate Hin. }
  split; [discriminate|]. split; [exact Hnd|].
  exact (eq_trans (getSort_distinct_names twoKeyQuery ltac:(discriminate) Hnd) eq_refl).
Defined.

Lemma occurs_topSegment (s : string) : occurs "." (topSegment s) = false.
Proof.
  induction s as [|a s IH]; cbn; [done|].
  case_decide; [done|]. cbn. by rewrite decide_False.
Qed.

Lemma topSegment_no_dot (s : string) : occurs "." s = false → topSegment s = s.
Proof.
  induction s as [|a s IH]; cbn; [done|].
  case_decide; [done|]. intros Hs. by rewrite IH.
Qed.

Lemma splitOn_cons (s : string) : ∃ rest, splitOn "." s = topSegment s :: rest.
Proof.
  induction s as [|a s [rest IH]]; cbn.
  - by exists [].
  - case_decide.
    + by eexists.
    + rewrite IH. by eexists.
Qed.

Lemma splitOn_single (s : string) :
  (1 < length (splitOn "." s))%nat ∨ occurs "." s = false.
Proof.
  induction s as [|a s IH]; cbn; [by right|].
  case_decide.
  - left. destruct (splitOn_cons s) as [rest ->]. cbn. lia.
  - destruct (splitOn_cons s) as [rest Hs]. rewrite Hs in *. cbn in *. done.
Qed.

Lemma projection_name (s : string) :
  (if decide (1 < length (splitOn "." s))%nat
   then default s (splitOn "." s !! 0%nat)
   else s) = topSegment s.
Proof.
  case_decide as Hlen.
  - by destruct (splitOn_cons s) as [rest ->].
  - destruct (splitOn_single s) as [?|Hno]; [done|]. by rewrite topSegment_no_dot.
Qed.



Lemma getProjection_fold (q : query.Query) :
  getProjection q =
  if decide (projectionNames q = []) then None
  else if decide ("*" ∈ projectionNames q) then None
  else Some (foldl projectionStep requiredFields (projectionNames q)).
Proof.
  unfold getProjection, projectionNames, hasStarProjection.
  destruct (query.qProjection q) as [|f0 fs] eqn:Hq; [done|].
  rewrite decide_False by done. rewrite (decide_False (P := _ = [])) by done.
  set (fields := f0 :: fs).
  assert (Hstar : existsb (fun field => bool_decide (query.PName field = "*")) fields = true
                  ↔ "*" ∈ query.PName <$> fields).
  { rewrite existsb_exists, list_elem_of_fmap. split.
    - intros (f & Hin%list_elem_of_In & Hf%bool_decide_eq_true). eauto.
    - intros (f & Hf & Hin). exists f. split; [by apply list_elem_of_In|].
      by apply bool_decide_eq_true. }
  destruct (existsb _ fields) eqn:Hex.
  - rewrite decide_True; [done | by apply Hstar].
  - rewrite decide_False; [|intros Hin%Hstar; discriminate]. f_equal.
    fold requiredFields. generalize requiredFields. clear.
    induction fields as [|f fields IH]; intros p; cbn; [done|].
    rewrite <- IH. f_equal. unfold projectionStep.
    case_decide; [done|]. by rewrite projection_name.
Qed.

Lemma projection_fold_keys (names : list string) (p0 : bson.M) (k : string) :
  is_Some (foldl projectionStep p0 names !! k) ↔
  is_Some (p0 !! k) ∨ ∃ n, n ∈ names ∧ n ≠ "id" ∧ k = getField (topSegment n).
Proof.
  revert p0. induction names as [|n names IH]; intros p0; cbn.
  - split; [by left|]. intros [?|(n & Hn%elem_of_nil & _)]; done.
  - rewrite IH. unfold projectionStep. case_decide as Hid.
    + split.
      * intros [?|(n' & ? & ? & ?)]; [by left|]. right. exists n'. by rewrite elem_of_cons; auto.
      * intros [?|(n' & [->|?]%elem_of_cons & ? & ?)]; [by left | done |]. right. eauto.
    + rewrite lookup_insert_is_Some. split.
      * intros [[<-|[_ ?]]|(n' & ? & ? & ?)].
        -- right. exists n. rewrite elem_of_cons. auto.
        -- by left.
        -- right. exists n'. rewrite elem_of_cons. auto.
      * intros [?|(n' & [->|?]%elem_of_cons & ? & ->)].
        -- destruct (decide (getField (topSegment n) = k)); left; auto.
        -- left. by left.
        -- right. eauto.
Qed.

Lemma projection_fold_values (names : list string) (p0 : bson.M) :
  (∀ k v, p0 !! k = Some v → v = VInt 1) →
  ∀ k v, foldl projectionStep p0 names !! k = Some v → v = VInt 1.
Proof.
  revert p0. induction names as [|n names IH]; intros p0 Hp0; cbn; [done|].
  apply IH. unfold projectionStep. case_decide; [done|].
  intros k v. rewrite lookup_insert. case_decide; [by intros [= <-] | apply Hp0].
Qed.

Lemma requiredFields_lookup (k : string) :
  is_Some (requiredFields !! k) ↔ k ∈ ["_id"; "_etag"; "_updated"].
Proof.
  unfold requiredFields. rewrite !lookup_insert_is_Some, lookup_empty, !elem_of_cons.
  split.
  - intros [<-|[_ [<-|[_ [<-|[_ [? [=]]]]]]]]; auto.
  - intros [->|[->|[->|?%elem_of_nil]]]; [| |auto|done].
    + right. split; [done|]. right. split; [done|]. by left.
    + right. split; [done|]. by left.
Qed.

(** X6. [getProjection] returns nil exactly when the query has no projection
    or one of its projection fields is ["*"]. *)
Theorem getProjection_nil (q : query.Query) :
  getProjection q = None ↔ projectionNames q = [] ∨ "*" ∈ projectionNames q.
Proof.
  rewrite getProjection_fold. repeat case_decide; split; auto; try done.
  intros [?|?]; done.
Qed.

(** X7. A projection that is not nil maps [_id], [_etag] and [_updated] to 1
    and has no other value than 1; its keys are these three and, for every
    projected field other than ["id"], the stored name of the top-level
    segment of its path; no key holds a dot and none is ["id"]. *)
Theorem getProjection_keys (q : query.Query) (p : bson.M) :
  getProjection q = Some p →
  (∀ k, k ∈ ["_id"; "_etag"; "_updated"] → p !! k = Some (VInt 1))
  ∧ (∀ k v, p !! k = Some v → v = VInt 1)
  ∧ (∀ k, is_Some (p !! k) ↔
          k ∈ ["_id"; "_etag"; "_updated"]
          ∨ ∃ n, n ∈ projectionNames q ∧ n ≠ "id" ∧ k = getField (topSegment n))
  ∧ (∀ k, is_Some (p !! k) → occurs "." k = false ∧ k ≠ "id").
Proof.
  rewrite getProjection_fold. repeat case_decide; try done. intros [= <-].
  assert (Hvalues : ∀ k v, foldl projectionStep requiredFields (projectionNames q) !! k = Some v
                           → v = VInt 1).
  { apply projection_fold_values. intros k v. unfold requiredFields.
    rewrite !lookup_insert, lookup_empty. repeat case_decide; by intros [= <-]. }
  assert (Hkeys : ∀ k, is_Some (foldl projectionStep requiredFields (projectionNames q) !! k) ↔
          k ∈ ["_id"; "_etag"; "_updated"]
          ∨ ∃ n, n ∈ projectionNames q ∧ n ≠ "id" ∧ k = getField (topSegment n)).
  { intros k. by rewrite projection_fold_keys, requiredFields_lookup. }
  split; [|split; [done|split; [done|]]].
  - intros k Hk. destruct (proj2 (Hkeys k) (or_introl Hk)) as [v Hv].
    by rewrite Hv, (Hvalues k v Hv).
  - intros k [Hreq|(n & _ & _ & ->)]%Hkeys.
    + rewrite !elem_of_cons in Hreq.
      destruct Hreq as [->|[->|[->|?%elem_of_nil]]]; done.
    + split; [|apply getField_not_id]. unfold getField. case_decide; [done|].
      apply occurs_topSegment.
Qed.

Lemma getProjection_keys_witness :
  getProjection (projectionQuery ["id"; "meta.title"; "name"])
  = Some {[ "_id" := VInt 1; "_etag" := VInt 1; "_updated" := VInt 1;
            "meta" := VInt 1; "name" := VInt 1 ]}
  ∧ ({[ "_id" := VInt 1; "_etag" := VInt 1; "_updated" := VInt 1;
        "meta" := VInt 1; "name" := VInt 1 ]} : bson.M) !! "_etag" = Some (VInt 1).
Proof.
  assert (Hrun : getProjection (projectionQuery ["id"; "meta.title"; "name"])
                 = Some {[ "_id" := VInt 1; "_etag" := VInt 1; "_updated" := VInt 1;
                           "meta" := VInt 1; "name" := VInt 1 ]})
    by (vm_compute; reflexivity).
  split; [exact Hrun|].
  destruct (getProjection_keys _ _ Hrun) as [Hreq _].
  apply Hreq. right. left.
Defined.

(** ** The predicate compiler: what it accepts and what it writes *)

Lemma compiles_inl {A : Type} (a : A) : compiles (inl a : A + error).
Proof. by exists a. Qed.

Lemma compiles_inr {A : Type} (err : error) : ¬ compiles (inr err : A + error).
Proof. by intros [a [=]]. Qed.

Lemma translateLoop_accepted (l : list query.Expression) :
  Forall (fun e => ∀ b, compiles (translateExp b e) ↔ supported e = true) l →
  ∀ b, compiles (translateLoop b l) ↔ forallb supported l = true.
Proof.
  induction 1 as [|x l Hx _ IH]; intros b; cbn.
  - split; [done | intros _; apply compiles_inl].
  - rewrite andb_true_iff, <- (Hx b).
    destruct (translateExp b x) as [b'|err].
    + rewrite IH. split; [intros ?; split; [apply compiles_inl | done] | tauto].
    + split; [by intros ?%compiles_inr | by intros [?%compiles_inr _]].
Qed.

Lemma collectSubs_accepted (l : list query.Expression) :
  Forall (fun e => (translateSub e).2 = None ↔ supportedSub e = true) l →
  ∀ s, compiles (collectSubs translateSub l s) ↔ forallb supportedSub l = true.
Proof.
  induction 1 as [|x l Hx _ IH]; intros s; cbn.
  - split; [done | intros _; apply compiles_inl].
  - rewrite andb_true_iff, <- Hx.
    destruct (translateSub x) as [sb [err|]]; cbn.
    + split; [by intros ?%compiles_inr | by intros [[=] _]].
    + rewrite IH. tauto.
Qed.

Lemma mergeSubs_accepted (l : list query.Expression) :
  Forall (fun e => (translateSub e).2 = None ↔ supportedSub e = true) l →
  ∀ s, compiles (mergeSubs translateSub l s) ↔ forallb supportedSub l = true.
Proof.
  induction 1 as [|x l Hx _ IH]; intros s; cbn.
  - split; [done | intros _; apply compiles_inl].
  - rewrite andb_true_iff, <- Hx.
    destruct (translateSub x) as [sb [err|]]; cbn.
    + split; [by intros ?%compiles_inr | by intros [[=] _]].
    + rewrite IH. tauto.
Qed.

Lemma translatePredicate_compiles (l : query.Predicate) :
  (translatePredicate l).2 = None ↔ compiles (translateLoop ∅ l).
Proof.
  unfold translatePredicate. destruct (translateLoop ∅ l) as [b|err]; cbn.
  - split; [intros _; apply compiles_inl | done].
  - split; [done | by intros ?%compiles_inr].
Qed.

Lemma supported_composite (l : list query.Expression) f :
  supported (query.And l) = forallb supportedSub l
  ∧ supported (query.Or l) = forallb supportedSub l
  ∧ supported (query.ElemMatch f l) = forallb supportedSub l.
Proof. done. Qed.

Lemma translateExp_accepted (e : query.Expression) :
  (∀ b, compiles (translateExp b e) ↔ supported e = true)
  ∧ ((translateSub e).2 = None ↔ supportedSub e = true).
Proof.
  induction e as [e IH] using Expression_children_ind.
  assert (Hsubs : Forall (fun e => (translateSub e).2 = None ↔ supportedSub e = true) (children e)).
  { eapply Forall_impl; [exact IH|]. by intros x [_ ?]. }
  assert (Hexps : Forall (fun e => ∀ b, compiles (translateExp b e) ↔ supported e = true)
                         (children e)).
  { eapply Forall_impl; [exact IH|]. by intros x [? _]. }
  assert (Hexp : ∀ b, compiles (translateExp b e) ↔ supported e = true).
  { intros b.
    destruct e as [l|l|f l| | | | | | | | | | |f p neg|l|kind]; cbn [children] in *;
      try (cbn; split; [done | intros _; apply compiles_inl]).
    - rewrite translateExp_And, (proj1 (supported_composite l "")),
        <- (collectSubs_accepted l Hsubs []).
      destruct (collectSubs translateSub l []); split; intros H;
        try apply compiles_inl; try by apply compiles_inr in H.
    - rewrite translateExp_Or, (proj1 (proj2 (supported_composite l ""))),
        <- (collectSubs_accepted l Hsubs []).
      destruct (collectSubs translateSub l []); split; intros H;
        try apply compiles_inl; try by apply compiles_inr in H.
    - rewrite translateExp_ElemMatch, (proj2 (proj2 (supported_composite l f))),
        <- (mergeSubs_accepted l Hsubs ∅).
      destruct (mergeSubs translateSub l ∅); split; intros H;
        try apply compiles_inl; try by apply compiles_inr in H.
    - cbn. destruct neg; split; try done; intros _; apply compiles_inl.
    - cbn. split; [by intros ?%compiles_inr | done].
    - cbn. split; [by intros ?%compiles_inr | done]. }
  split; [exact Hexp|].
  unfold translateSub.
  destruct e as [l|l|f l| | | | | | | | | | |f p neg|l|kind];
    cbn [expToPredicate supportedSub children] in *;
    try (rewrite translatePredicate_compiles; cbn [translateLoop];
         rewrite <- (Hexp ∅);
         destruct (translateExp ∅ _); split; intros H;
         try apply compiles_inl; try by apply compiles_inr in H).
  rewrite translatePredicate_compiles. by apply translateLoop_accepted.
Qed.

(** X8. [translatePredicate] compiles exactly the predicates all of whose
    expressions are of the kinds its [switch] lists, a nested predicate only
    as a child of a conjunction, a disjunction or an element-match; on every
    other predicate it returns no document and [ErrNotImplemented], its only
    error. *)
Theorem translatePredicate_allow_list (q : query.Predicate) :
  if forallb supported q
  then ∃ b, translatePredicate q = (Some b, None)
  else translatePredicate q = (None, Some ErrNotImplemented).
Proof.
  assert (Hq : compiles (translateLoop ∅ q) ↔ forallb supported q = true).
  { apply translateLoop_accepted, Forall_forall. intros e _. apply translateExp_accepted. }
  assert (Herr : ∀ err, translateLoop ∅ q = inr err → err = ErrNotImplemented).
  { apply translateLoop_errors, Forall_forall. intros e _.
    apply translateExp_onlyNotImplemented. }
  unfold translatePredicate.
  destruct (forallb supported q).
  - destruct (proj2 Hq eq_refl) as [b ->]. by exists b.
  - destruct (translateLoop ∅ q) as [b|err].
    + discriminate (proj1 Hq (compiles_inl b)).
    + by rewrite (Herr err).
Qed.


Lemma writtenKey_not_id (e : query.Expression) (k : string) :
  writtenKey e = Some k → k ≠ "id".
Proof.
  destruct e as [l|l|f l| | | | | | | | | | |f p []|l|kind]; cbn; intros [= <-];
    try apply getField_not_id; done.
Qed.

Lemma translateLoop_dom (q : query.Predicate) (b r : bson.M) :
  translateLoop b q = inl r →
  dom r = dom b ∪ list_to_set (omap writtenKey q).
Proof.
  revert b. induction q as [|e q IH]; intros b; cbn.
  - intros [= ->]. by rewrite (right_id_L ∅ (∪)).
  - destruct (translateExp_frame e) as [(k & v & Hk & Hstep)|(err & Hstep)]; rewrite Hstep.
    + intros Hr. rewrite (IH _ Hr), Hk. cbn. rewrite dom_insert_L.
      by rewrite (comm_L (∪) {[k]} (dom b)), (assoc_L (∪)).
    + done.
Qed.

(** X9. The keys of a compiled predicate are exactly the keys its top-level
    expressions write: [$and], [$or], or the stored name of the field; the
    key ["id"] is never written. *)
Theorem translatePredicate_keys (q : query.Predicate) (b : bson.M) :
  translatePredicate q = (Some b, None) →
  dom b = list_to_set (omap writtenKey q)
  ∧ b !! "id" = None.
Proof.
  unfold translatePredicate.
  destruct (translateLoop ∅ q) as [r|err] eqn:Hrun; [|done]. intros [= <-].
  pose proof (translateLoop_dom q ∅ r Hrun) as Hdom.
  rewrite dom_empty_L, (left_id_L ∅ (∪)) in Hdom. split; [done|].
  apply not_elem_of_dom. rewrite Hdom, elem_of_list_to_set, list_elem_of_omap.
  intros (e & _ & He). by apply writtenKey_not_id in He.
Qed.

Lemma translatePredicate_keys_witness :
  translatePredicate [query.Equal "id" (VInt 1); query.Or []; query.Exist "name"]
  = (Some {[ "_id" := VInt 1; "$or" := VArray []; "name" := VDoc {[ "$exists" := VBool true ]} ]},
     None)
  ∧ ({[ "_id" := VInt 1; "$or" := VArray [];
        "name" := VDoc {[ "$exists" := VBool true ]} ]} : bson.M) !! "id" = None.
Proof.
  assert (Hrun : translatePredicate [query.Equal "id" (VInt 1); query.Or []; query.Exist "name"]
    = (Some {[ "_id" := VInt 1; "$or" := VArray [];
               "name" := VDoc {[ "$exists" := VBool true ]} ]}, None))
    by (vm_compute; reflexivity).
  split; [exact Hrun|]. exact (proj2 (translatePredicate_keys _ _ Hrun)).
Defined.

Lemma omap_writtenKey_NoDup_cons (e : query.Expression) (q : query.Predicate) :
  NoDup (omap writtenKey (e :: q)) → NoDup (omap writtenKey q).
Proof.
  cbn. destruct (writtenKey e); [by intros [_ ?]%NoDup_cons | done].
Qed.

Lemma translateLoop_permutation (q q' : query.Predicate) :
  q ≡ₚ q' → NoDup (omap writtenKey q) →
  ∀ b, translateLoop b q = translateLoop b q'.
Proof.
  induction 1 as [|x q q' Hperm IH|x y q|q q' q'' H1 IH1 H2 IH2]; intros Hnd b.
  - done.
  - cbn. destruct (translateExp b x); [|done].
    apply IH. by eapply omap_writtenKey_NoDup_cons.
  - cbn.
    destruct (translateExp_frame x) as [(kx & vx & Hkx & Hx)|(ex & Hx)],
             (translateExp_frame y) as [(ky & vy & Hky & Hy)|(ey & Hy)];
      repeat (first [rewrite Hx | rewrite Hy]; cbv beta iota); try done.
    + cbn in Hnd. rewrite Hkx, Hky in Hnd.
      apply NoDup_cons in Hnd as [Hne _].
      rewrite (insert_insert_ne b kx ky vx vy); [done|]. intros ->. apply Hne. left.
    + destruct (translateExp_onlyNotImplemented x) as [Hex _].
      destruct (translateExp_onlyNotImplemented y) as [Hey _].
      by rewrite (Hex b ex (Hx b)), (Hey b ey (Hy b)).
  - rewrite IH1 by done. apply IH2.
    eapply NoDup_Permutation_proper; [|exact Hnd].
    symmetry. by apply omap_Permutation.
Qed.

(** X10. When no two expressions of a predicate write the same key, the
    result of [translatePredicate] does not depend on the order of the
    expressions. *)
Theorem translatePredicate_order (q q' : query.Predicate) :
  q ≡ₚ q' → NoDup (omap writtenKey q) →
  translatePredicate q = translatePredicate q'.
Proof.
  intros Hperm Hnd. unfold translatePredicate.
  by rewrite (translateLoop_permutation q q' Hperm Hnd ∅).
Qed.

Lemma translatePredicate_order_witness :
  [query.Equal "a" (VInt 1); query.Exist "b"] ≡ₚ [query.Exist "b"; query.Equal "a" (VInt 1)]
  ∧ NoDup (omap writtenKey [query.Equal "a" (VInt 1); query.Exist "b"])
  ∧ translatePredicate [query.Equal "a" (VInt 1); query.Exist "b"]
    = translatePredicate [query.Exist "b"; query.Equal "a" (VInt 1)].
Proof.
  assert (Hperm : [query.Equal "a" (VInt 1); query.Exist "b"]
                  ≡ₚ [query.Exist "b"; query.Equal "a" (VInt 1)]) by apply perm_swap.
  assert (Hnd : NoDup (omap writtenKey [query.Equal "a" (VInt 1); query.Exist "b"])).
  { cbn. apply NoDup_cons. split; [|apply NoDup_singleton].
    intros Hin%list_elem_of_singleton. discriminate Hin. }
  split; [exact Hperm|]. split; [exact Hnd|].
  exact (translatePredicate_order _ _ Hperm Hnd).
Defined.

(** ** The operations of the handler *)

Section MoreRuns.
Context (env : Env) (Hex : ObjectID -> string) (Sprint : value -> string).
Implicit Types (m : Handler env) (ctx : Ctx env) (w : World env).

Lemma Find_native_run m ctx q w :
  zeroLimit q = false →
  Find env Hex Sprint m ctx q w =
  match getQuery q with
  | (_, Some err) => ((None, Some err), w)
  | (qry, None) =>
      match c env m ctx w with
      | (inr err, w1) => ((None, Some err), w1)
      | (inl coll, w1) =>
          let fo := findOptionsFor env ctx q w1.1 in
          match drvFind env coll ctx qry fo w1.1 with
          | (inr err, st2) => ((None, Some err), (st2, w1.2 ++ [CallFind qry fo]))
          | (inl cursor, st2) =>
              match findLoop env Hex Sprint ctx cursor [] (st2, w1.2 ++ [CallFind qry fo]) with
              | (inr err, w3) => ((None, Some err), w3)
              | (inl items, w3) =>
                  match drvCursorClose env ctx w3.1 with
                  | (Some err, st4) => ((None, Some err), (st4, w3.2 ++ [CallCursorClose]))
                  | (None, st4) =>
                      ((Some {| resource.Total := findTotal q (Z.of_nat (length items));
                                resource.Limit := default (-1) (query.Limit <$> query.qWindow q);
                                resource.Items := items |}, None),
                       (st4, w3.2 ++ [CallCursorClose]))
                  end
              end
          end
      end
  end.
Proof.
  intros Hzero. unfold Find. fold (zeroLimit q). rewrite Hzero.
  unfold bind, ret, native, Until, findOptionsFor, findTotal.
  destruct (getQuery q) as [qry [err|]]; [done|].
  destruct (c env m ctx w) as [[coll|err] w1]; [|done].
  destruct (query.qWindow q) as [win|]; cbn [fmap option_fmap option_map default].
  all: destruct (ctxDeadline env ctx) as [dl|]; cbn.
  all: destruct (drvFind _ _ _ _ _ _) as [[cursor|err] st2]; [|done].
  all: destruct (findLoop _ _ _ _ _ _ _) as [[items|err] w3]; [|done].
  all: by destruct (drvCursorClose _ _ _) as [[err|] st4].
Qed.

Lemma Reduce_native_run {Acc : Type} m ctx q (reducer : Reducer Acc) (acc : Acc) w :
  zeroLimit q = false →
  Reduce env Hex Sprint m ctx q reducer acc w =
  match getQuery q with
  | (_, Some err) => ((Some err, acc), w)
  | (qry, None) =>
      match c env m ctx w with
      | (inr err, w1) => ((Some err, acc), w1)
      | (inl coll, w1) =>
          let fo := findOptionsFor env ctx q w1.1 in
          match drvFind env coll ctx qry fo w1.1 with
          | (inr err, st2) => ((Some err, acc), (st2, w1.2 ++ [CallFind qry fo]))
          | (inl cursor, st2) =>
              match reduceLoop env Hex Sprint ctx cursor reducer acc
                      (st2, w1.2 ++ [CallFind qry fo]) with
              | ((Some err, acc'), w3) => ((Some err, acc'), w3)
              | ((None, acc'), w3) =>
                  ((drvCursorClose env ctx w3.1).1, acc',
                   ((drvCursorClose env ctx w3.1).2, w3.2 ++ [CallCursorClose]))
              end
          end
      end
  end.
Proof.
  intros Hzero. unfold Reduce. fold (zeroLimit q). rewrite Hzero.
  unfold bind, ret, native, Until, findOptionsFor.
  destruct (getQuery q) as [qry [err|]]; [done|].
  destruct (c env m ctx w) as [[coll|err] w1]; [|done].
  destruct (query.qWindow q) as [win|].
  all: destruct (ctxDeadline env ctx) as [dl|]; cbn.
  all: destruct (drvFind _ _ _ _ _ _) as [[cursor|err] st2]; [|done].
  all: destruct (reduceLoop _ _ _ _ _ _ _ _) as [[[err|] acc'] w3]; [done|].
  all: by destruct (drvCursorClose _ _ _) as [err st4].
Qed.

(** X11. When the collection cannot be had, because the context is done
    already or the handler function fails, [Insert], [Update] and [Delete]
    return that error and issue no native call; when the context is done at
    the start the error is the context's and nothing has happened at all. *)
Theorem writes_need_collection m ctx w err w1 items item original :
  c env m ctx w = (inr err, w1) →
  Insert env m ctx items w = (Some err, w1)
  ∧ Update env m ctx item original w = (Some err, w1)
  ∧ Delete env m ctx item w = (Some err, w1)
  ∧ w1.2 = w.2
  ∧ (∀ cerr, ctxErr env ctx w.1 = Some cerr → err = cerr ∧ w1 = w).
Proof.
  intros Hc. unfold Insert, Update, Delete, bind, ret. rewrite Hc.
  split; [done|]. split; [done|]. split; [done|]. split; [by eapply c_trace|].
  intros cerr Hdone. rewrite c_run, Hdone in Hc. by simplify_eq.
Qed.

(** X12. When the conditional native write of [Update] or [Delete] fails, or
    matches a document, it is the only native call: there is no re-fetch,
    the context is not looked at again, and the result is the native error
    as it is (a duplicate key is not remapped) or nil. *)
Theorem conditional_write_no_refetch m ctx w coll w1 :
  c env m ctx w = (inl coll, w1) →
  (∀ item original r st2,
      drvReplaceOne env coll ctx
        (matchFilter (resource.ID original) (resource.ETag original))
        (newMongoItem item) w1.1 = (r, st2) →
      r ≠ inl 0 →
      Update env m ctx item original w
      = (match r with inr err => Some err | inl _ => None end,
         (st2, w.2 ++ [CallReplaceOne (matchFilter (resource.ID original) (resource.ETag original))
                                      (newMongoItem item)])))
  ∧ (∀ item r st2,
      drvDeleteOne env coll ctx
        (matchFilter (resource.ID item) (resource.ETag item)) w1.1 = (r, st2) →
      r ≠ inl 0 →
      Delete env m ctx item w
      = (match r with inr err => Some err | inl _ => None end,
         (st2, w.2 ++ [CallDeleteOne (matchFilter (resource.ID item) (resource.ETag item))]))).
Proof.
  intros Hc. split.
  - intros item original r st2 Hwrite Hr.
    rewrite (Update_run env m ctx item original w coll w1 Hc). cbv zeta. rewrite Hwrite.
    destruct r as [n|err]; [|done]. rewrite decide_False; [done|]. by intros ->.
  - intros item r st2 Hwrite Hr.
    rewrite (Delete_run env m ctx item w coll w1 Hc). cbv zeta. rewrite Hwrite.
    destruct r as [n|err]; [|done]. rewrite decide_False; [done|]. by intros ->.
Qed.

(** X13. After a conditional write that matched no document, [Update] and
    [Delete] never return nil: the result is [ErrNotFound], [ErrConflict] or
    the error of the context.  An error of the re-fetch other than the
    absence of the document is not forwarded: with a live context the
    result is [ErrConflict]. *)
Theorem zero_match_results m ctx w coll w1 :
  c env m ctx w = (inl coll, w1) →
  (∀ item original st2 infoErr st3,
      drvReplaceOne env coll ctx
        (matchFilter (resource.ID original) (resource.ETag original))
        (newMongoItem item) w1.1 = (inl 0, st2) →
      drvFindOne env coll ctx {[ "_id" := resource.ID original ]} st2 = (infoErr, st3) →
      (Update env m ctx item original w).1 = Some ErrNotFound
      ∨ (Update env m ctx item original w).1 = Some ErrConflict
      ∨ ∃ cerr, ctxErr env ctx st3 = Some cerr
                ∧ (Update env m ctx item original w).1 = Some cerr)
  ∧ (∀ item st2 infoErr st3,
      drvDeleteOne env coll ctx
        (matchFilter (resource.ID item) (resource.ETag item)) w1.1 = (inl 0, st2) →
      drvFindOne env coll ctx {[ "_id" := resource.ID item ]} st2 = (infoErr, st3) →
      (Delete env m ctx item w).1 = Some ErrNotFound
      ∨ (Delete env m ctx item w).1 = Some ErrConflict
      ∨ ∃ cerr, ctxErr env ctx st3 = Some cerr
                ∧ (Delete env m ctx item w).1 = Some cerr)
  ∧ (∀ item original st2 err st3,
      drvReplaceOne env coll ctx
        (matchFilter (resource.ID original) (resource.ETag original))
        (newMongoItem item) w1.1 = (inl 0, st2) →
      drvFindOne env coll ctx {[ "_id" := resource.ID original ]} st2 = (Some err, st3) →
      err ≠ ErrNoDocuments → ctxErr env ctx st3 = None →
      (Update env m ctx item original w).1 = Some ErrConflict)
  ∧ (∀ item st2 err st3,
      drvDeleteOne env coll ctx
        (matchFilter (resource.ID item) (resource.ETag item)) w1.1 = (inl 0, st2) →
      drvFindOne env coll ctx {[ "_id" := resource.ID item ]} st2 = (Some err, st3) →
      err ≠ ErrNoDocuments → ctxErr env ctx st3 = None →
      (Delete env m ctx item w).1 = Some ErrConflict).
Proof.
  intros Hc. split; [|split; [|split]].
  - intros item original st2 infoErr st3 Hwrite Hfetch.
    rewrite (Update_run env m ctx item original w coll w1 Hc). cbv zeta.
    rewrite Hwrite, decide_True, Hfetch by done.
    case_decide; [by left|]. destruct (ctxErr env ctx st3) as [cerr|]; [|by right; left].
    right. right. by exists cerr.
  - intros item st2 infoErr st3 Hwrite Hfetch.
    rewrite (Delete_run env m ctx item w coll w1 Hc). cbv zeta.
    rewrite Hwrite, decide_True, Hfetch by done.
    case_decide; [by left|]. destruct (ctxErr env ctx st3) as [cerr|]; [|by right; left].
    right. right. by exists cerr.
  - intros item original st2 err st3 Hwrite Hfetch Hne Hlive.
    rewrite (Update_run env m ctx item original w coll w1 Hc). cbv zeta.
    rewrite Hwrite, decide_True, Hfetch by done.
    rewrite decide_False by congruence. by rewrite Hlive.
  - intros item st2 err st3 Hwrite Hfetch Hne Hlive.
    rewrite (Delete_run env m ctx item w coll w1 Hc). cbv zeta.
    rewrite Hwrite, decide_True, Hfetch by done.
    rewrite decide_False by congruence. by rewrite Hlive.
Qed.

(** X14. When the native insert returns without a duplicate key and the
    context is live afterwards, [Insert] has issued that one call and returns
    what it returned, nil or the native error unchanged; no document handed
    to the driver has the payload key ["id"]. *)
Theorem Insert_passes_through m ctx items w coll w1 err st2 :
  c env m ctx w = (inl coll, w1) →
  drvInsertMany env coll ctx (newMongoItem <$> items) w1.1 = (err, st2) →
  isDup err = false →
  ctxErr env ctx st2 = None →
  Insert env m ctx items w = (err, (st2, w.2 ++ [CallInsertMany (newMongoItem <$> items)]))
  ∧ Forall (fun d => entries (Payload d) !! "id" = None) (newMongoItem <$> items).
Proof.
  intros Hc Hins Hdup Hlive. split.
  - pose proof (c_trace env m ctx w _ _ Hc) as Htr.
    unfold Insert, bind, native, Err, ret. rewrite Hc, Hins, Hdup. cbn.
    by rewrite Hlive, Htr.
  - apply Forall_fmap, Forall_forall. intros i _. apply newMongoItem_no_id.
Qed.

(** X16. [Count] returns -1 whenever it returns an error.  When it returns
    none, the predicate compiled, the collection opened, and the one native
    call issued is a count with the compiled filter, bounded by the time
    left until the deadline of the context when it has one; the number
    returned is the native one. *)
Theorem Count_outcomes m ctx q w :
  (∀ err, (Count env m ctx q w).1.2 = Some err → (Count env m ctx q w).1.1 = -1)
  ∧ ((Count env m ctx q w).1.2 = None →
     ∃ coll w1 qry,
       c env m ctx w = (inl coll, w1) ∧ getQuery q = (qry, None)
       ∧ issued w (Count env m ctx q w)
         = [CallCountDocuments qry ((fun dl => timeUntil env dl w1.1) <$> ctxDeadline env ctx)]
       ∧ (drvCountDocuments env coll ctx qry
            ((fun dl => timeUntil env dl w1.1) <$> ctxDeadline env ctx) w1.1).1
         = inl (Count env m ctx q w).1.1).
Proof.
  rewrite Count_run.
  destruct (getQuery q) as [qry [err|]]; [split; [by intros ? [= <-] | done]|].
  destruct (c env m ctx w) as [[coll|err] w1] eqn:Hc; [|split; [by intros ? [= <-] | done]].
  cbv zeta.
  destruct (drvCountDocuments _ _ _ _ _ _) as [[n|err] st2] eqn:Hn; cbn.
  - split; [done|]. intros _. exists coll, w1, qry. repeat split; try done.
    + by rewrite (c_trace env m ctx w _ _ Hc), issued_app.
    + by rewrite Hn.
  - split; [by intros ? [= <-] | done].
Qed.

Lemma findLoop_items ctx cursor items w its w' :
  findLoop env Hex Sprint ctx cursor items w = (inl its, w') →
  ∃ docs, (inl <$> docs) `prefix_of` cursor ∧ its = items ++ (itemOf Hex Sprint <$> docs).
Proof.
  revert items w. induction cursor as [|d cursor IH]; intros items w; cbn -[newItem].
  - unfold bind, native, ret. destruct (drvCursorNext env ctx w.1) as [more st].
    intros [= <- <-]. exists []. split; [done | by rewrite app_nil_r].
  - unfold bind, native, ret, Err.
    destruct (drvCursorNext env ctx w.1) as [[|] st]; cbn -[newItem].
    + destruct d as [mItem|err]; [|done]. cbn -[newItem].
      destruct (ctxErr env ctx st) as [err|]; cbn -[newItem].
      * by destruct (drvCursorClose env ctx st).
      * intros (docs & Hpre & ->)%IH. exists (mItem :: docs). split.
        -- cbn. by apply prefix_cons.
        -- by rewrite <- app_assoc.
    + intros [= <- <-]. exists []. split; [apply prefix_nil | by rewrite app_nil_r].
Qed.


Lemma findLoop_extends ctx cursor items w :
  ∃ l, (findLoop env Hex Sprint ctx cursor items w).2.2 = w.2 ++ l ∧ Forall cursorCall l.
Proof.
  revert items w. induction cursor as [|d cursor IH]; intros items w; cbn -[newItem].
  - unfold bind, native, ret. destruct (drvCursorNext env ctx w.1) as [more st]. cbn.
    exists [CallCursorNext]. split; [done|]. apply Forall_singleton. by left.
  - unfold bind, native, ret, Err.
    destruct (drvCursorNext env ctx w.1) as [[|] st]; cbn -[newItem].
    + destruct d as [mItem|err]; cbn -[newItem].
      * destruct (ctxErr env ctx st) as [err|]; cbn -[newItem].
        -- destruct (drvCursorClose env ctx st) as [cerr st']. cbn.
           exists [CallCursorNext; CallCursorClose]. rewrite <- app_assoc. split; [done|].
           apply Forall_cons. split; [by left|]. apply Forall_singleton. by right.
        -- destruct (IH (items ++ [(newItem Hex Sprint mItem).1])
                        (st, w.2 ++ [CallCursorNext])) as (l & -> & Hl).
           exists (CallCursorNext :: l). cbn. rewrite <- app_assoc. split; [done|].
           constructor; [by left | done].
      * exists [CallCursorNext]. split; [done|]. apply Forall_singleton. by left.
    + exists [CallCursorNext]. split; [done|]. apply Forall_singleton. by left.
Qed.

Lemma findLoop_decodable ctx docs items w :
  ∃ k, (k ≤ S (length docs))%nat
       ∧ (findLoop env Hex Sprint ctx (inl <$> docs) items w).2.2
         = w.2 ++ replicate k CallCursorNext
           ++ match (findLoop env Hex Sprint ctx (inl <$> docs) items w).1 with
              | inr _ => [CallCursorClose]
              | inl _ => []
              end.
Proof.
  revert items w. induction docs as [|d docs IH]; intros items w; cbn -[newItem].
  - unfold bind, native, ret. destruct (drvCursorNext env ctx w.1) as [more st]. cbn.
    exists 1%nat. split; [lia | done].
  - unfold bind, native, ret, Err.
    destruct (drvCursorNext env ctx w.1) as [[|] st]; cbn -[newItem].
    + destruct (ctxErr env ctx st) as [err|]; cbn -[newItem].
      * destruct (drvCursorClose env ctx st) as [cerr st']. cbn.
        exists 1%nat. split; [lia | by rewrite <- app_assoc].
      * destruct (IH (items ++ [(newItem Hex Sprint d).1])
                     (st, w.2 ++ [CallCursorNext])) as (k & Hle & Hk).
        exists (S k). split; [lia|]. rewrite Hk. cbn. by rewrite <- app_assoc.
    + exists 1%nat. split; [lia | done].
Qed.

Lemma Find_native_issued m ctx q w :
  zeroLimit q = false →
  issued w (Find env Hex Sprint m ctx q w) = []
  ∨ ∃ coll w1 qry rest,
      c env m ctx w = (inl coll, w1) ∧ getQuery q = (qry, None)
      ∧ issued w (Find env Hex Sprint m ctx q w)
        = CallFind qry (findOptionsFor env ctx q w1.1) :: rest
      ∧ Forall cursorCall rest.
Proof.
  intros Hzero. rewrite (Find_native_run m ctx q w Hzero).
  destruct (getQuery q) as [qry [err|]]; [left; destruct w; apply issued_nil|].
  destruct (c env m ctx w) as [[coll|err] w1] eqn:Hc;
    pose proof (c_trace env m ctx w _ _ Hc) as Htr.
  2:{ left. destruct w1 as [st1 tr1]. cbn in Htr. subst tr1. apply issued_nil. }
  right. exists coll, w1, qry. cbv zeta. rewrite Htr.
  destruct (drvFind _ _ _ _ _ _) as [[cursor|err] st2].
  2:{ exists []. rewrite issued_app. done. }
  destruct (findLoop_extends ctx cursor [] (st2, w.2 ++ [CallFind qry (findOptionsFor env ctx q w1.1)]))
    as (l & Hl & Hcalls).
  destruct (findLoop _ _ _ _ _ _ _) as [[items|err] [st3 tr3]]. all: cbn in Hl; subst tr3.
  - destruct (drvCursorClose env ctx _) as [[err|] st4]; cbn.
    all: exists (l ++ [CallCursorClose]); rewrite <- !app_assoc, issued_app.
    all: repeat split; try done; apply Forall_app; split; [done|].
    all: apply Forall_singleton; by right.
  - exists l. rewrite <- app_assoc, issued_app. done.
Qed.

Lemma findOptionsFor_shape ctx q st :
  let opts := findOptionsFor env ctx q st in
  foSort opts = Some (getSort q)
  ∧ foProjection opts = Some (getProjection q)
  ∧ foLimit opts = (query.qWindow q ≫= fun win =>
                      if decide (query.Limit win > -1) then Some (query.Limit win) else None)
  ∧ foSkip opts = (query.qWindow q ≫= fun win =>
                     if decide (query.Offset win > 0) then Some (query.Offset win) else None)
  ∧ foMaxTime opts = (fun dl => timeUntil env dl st) <$> ctxDeadline env ctx.
Proof.
  unfold findOptionsFor, applyWindow.
  destruct (ctxDeadline env ctx), (query.qWindow q) as [win|]; cbn;
    repeat case_decide; done.
Qed.

(** X17. Every native find issued by [Find] has the compiled predicate as its
    filter, the sort of [getSort], the projection of [getProjection], the
    limit and the skip of the window when they are positive and none
    otherwise, and a maximal time exactly when the context has a deadline. *)
Theorem Find_call_options m ctx q w filter opts :
  CallFind filter opts ∈ issued w (Find env Hex Sprint m ctx q w) →
  filter = (getQuery q).1
  ∧ foSort opts = Some (getSort q)
  ∧ foProjection opts = Some (getProjection q)
  ∧ foLimit opts = (query.qWindow q ≫= fun win =>
                      if decide (query.Limit win > 0) then Some (query.Limit win) else None)
  ∧ foSkip opts = (query.qWindow q ≫= fun win =>
                     if decide (query.Offset win > 0) then Some (query.Offset win) else None)
  ∧ (is_Some (foMaxTime opts) ↔ is_Some (ctxDeadline env ctx)).
Proof.
  intros Hcall.
  destruct (zeroLimit q) eqn:Hzero.
  { unfold zeroLimit in Hzero. destruct (query.qWindow q) as [win|] eqn:Hwin; [|done].
    apply bool_decide_eq_true in Hzero.
    by destruct (Find_zero_limit_no_find env Hex Sprint m ctx q win w filter opts Hwin Hzero). }
  destruct (Find_native_issued m ctx q w Hzero) as [Hnil|(coll & w1 & qry & rest & _ & Hq & Hiss & Hrest)].
  { rewrite Hnil in Hcall. by apply elem_of_nil in Hcall. }
  rewrite Hiss in Hcall. apply elem_of_cons in Hcall as [[= -> ->]|Hin].
  2:{ rewrite Forall_forall in Hrest. by destruct (Hrest _ Hin). }
  destruct (findOptionsFor_shape ctx q w1.1) as (Hsort & Hproj & Hlimit & Hskip & Htime).
  rewrite Hq, Hsort, Hproj, Hlimit, Hskip, Htime. repeat split; try done.
  - unfold zeroLimit in Hzero. destruct (query.qWindow q) as [win|]; [|done]. cbn.
    apply bool_decide_eq_false in Hzero. repeat case_decide; try done; lia.
  - by intros ?%fmap_is_Some.
  - intros ?. by apply fmap_is_Some.
Qed.

(** X18. [Find] returns a nil list exactly when it returns an error. *)
Theorem Find_list_or_error m ctx q w :
  (Find env Hex Sprint m ctx q w).1.1 = None ↔ is_Some (Find env Hex Sprint m ctx q w).1.2.
Proof.
  destruct (zeroLimit q) eqn:Hzero.
  - unfold zeroLimit in Hzero. destruct (query.qWindow q) as [win|] eqn:Hwin; [|done].
    apply bool_decide_eq_true in Hzero.
    rewrite (Find_zero_limit_run env Hex Sprint m ctx q win w Hwin Hzero).
    destruct (Count env m ctx q w) as [[n [err|]] w']; cbn; split; try done;
      by intros [? [=]].
  - rewrite (Find_native_run m ctx q w Hzero).
    destruct (getQuery q) as [qry [err|]]; [by split|].
    destruct (c env m ctx w) as [[coll|err] w1]; [|by split]. cbv zeta.
    destruct (drvFind _ _ _ _ _ _) as [[cursor|err] st2]; [|by split].
    destruct (findLoop _ _ _ _ _ _ _) as [[items|err] w3]; [|by split].
    destruct (drvCursorClose _ _ _) as [[err|] st4]; cbn; split; try done;
      by intros [? [=]].
Qed.

Lemma itemOf_well_formed (d : mongoItem) :
  resource.ID (itemOf Hex Sprint d) = ID d
  ∧ resource.ETag (itemOf Hex Sprint d) ≠ ""
  ∧ entries (resource.Payload (itemOf Hex Sprint d)) !! "id" = Some (ID d).
Proof.
  unfold itemOf, newItem. cbn. case_decide as Htag; cbn.
  - split; [done|]. split; [|by rewrite lookup_insert_eq].
    destruct (ID d); by apply append_nonempty.
  - split; [done|]. split; [done | by rewrite lookup_insert_eq].
Qed.

(** X19. When [Find] with a limit other than 0 succeeds, its items are the
    decoded documents of a prefix of what the cursor yields, in the order of
    the cursor: they have the identifiers of these documents, a tag that is
    not empty and the identifier in the payload under ["id"]; the limit of
    the list is the limit of the window, or -1 without a window. *)
Theorem Find_items m ctx q w coll w1 qry cursor st2 l w' :
  zeroLimit q = false →
  getQuery q = (qry, None) →
  c env m ctx w = (inl coll, w1) →
  drvFind env coll ctx qry (findOptionsFor env ctx q w1.1) w1.1 = (inl cursor, st2) →
  Find env Hex Sprint m ctx q w = ((Some l, None), w') →
  ∃ docs,
    (inl <$> docs) `prefix_of` cursor
    ∧ resource.Items l = itemOf Hex Sprint <$> docs
    ∧ resource.ID <$> resource.Items l = ID <$> docs
    ∧ Forall (fun item => resource.ETag item ≠ ""
                          ∧ entries (resource.Payload item) !! "id" = Some (resource.ID item))
             (resource.Items l)
    ∧ resource.Limit l = default (-1) (query.Limit <$> query.qWindow q).
Proof.
  intros Hzero Hq Hc Hfind. rewrite (Find_native_run m ctx q w Hzero), Hq, Hc. cbv zeta.
  rewrite Hfind.
  destruct (findLoop _ _ _ _ _ _ _) as [[items|err] w3] eqn:Hloop; [|done].
  destruct (drvCursorClose _ _ _) as [[err|] st4]; [done|]. intros [= <- <-]. cbn.
  destruct (findLoop_items _ _ _ _ _ _ Hloop) as (docs & Hpre & ->). cbn.
  exists docs. split; [done|]. split; [done|]. split; [|split; [|done]].
  - rewrite <- list_fmap_compose. apply list_fmap_ext. intros i d _.
    apply itemOf_well_formed.
  - apply Forall_fmap, Forall_forall. intros d _.
    destruct (itemOf_well_formed d) as (Hid & Htag & Hpay).
    unfold compose. by rewrite Hid.
Qed.

(** X20. When every document of the cursor decodes, [Find] with a limit other
    than 0 issues the native find, at most one [Next] for each document and
    one more, and [Close] as its last call, also when the context ends while
    the cursor is read. *)
Theorem Find_closes_cursor m ctx q w coll w1 qry docs st2 :
  zeroLimit q = false →
  getQuery q = (qry, None) →
  c env m ctx w = (inl coll, w1) →
  drvFind env coll ctx qry (findOptionsFor env ctx q w1.1) w1.1 = (inl (inl <$> docs), st2) →
  ∃ k, (k ≤ S (length docs))%nat
       ∧ issued w (Find env Hex Sprint m ctx q w)
         = CallFind qry (findOptionsFor env ctx q w1.1)
             :: replicate k CallCursorNext ++ [CallCursorClose].
Proof.
  intros Hzero Hq Hc Hfind. rewrite (Find_native_run m ctx q w Hzero), Hq, Hc. cbv zeta.
  rewrite Hfind, (c_trace env m ctx w _ _ Hc).
  destruct (findLoop_decodable ctx docs []
              (st2, w.2 ++ [CallFind qry (findOptionsFor env ctx q w1.1)]))
    as (k & Hle & Hk).
  exists k. split; [done|].
  destruct (findLoop _ _ _ _ _ _ _) as [[items|err] [st3 tr3]]; cbn in Hk; subst tr3.
  - destruct (drvCursorClose _ _ _) as [[err|] st4]; cbn;
      by rewrite app_nil_r, <- !app_assoc, issued_app.
  - by rewrite <- !app_assoc, issued_app.
Qed.

(** X21. With a window of limit 0, [Reduce] returns nil at once: the reducer
    is not called, the context is not looked at, the predicate is not
    compiled and no native call is issued. *)
Theorem Reduce_zero_limit {Acc : Type} m ctx q win (reducer : Reducer Acc) (acc : Acc) w :
  query.qWindow q = Some win → query.Limit win = 0 →
  Reduce env Hex Sprint m ctx q reducer acc w = ((None, acc), w).
Proof.
  intros Hwin Hlimit. unfold Reduce. rewrite Hwin, Hlimit.
  by rewrite bool_decide_eq_true_2.
Qed.






(** X24. When the predicate compiles and the collection cannot be had,
    [Count] returns -1, [Find] no list and [Reduce], with a limit other than
    0, nothing done, each with that error and without a native call. *)
Theorem reads_need_collection {Acc : Type} m ctx q (reducer : Reducer Acc) (acc : Acc) w err w1 :
  c env m ctx w = (inr err, w1) →
  (getQuery q).2 = None →
  Count env m ctx q w = ((-1, Some err), w1)
  ∧ Find env Hex Sprint m ctx q w = ((None, Some err), w1)
  ∧ (zeroLimit q = false →
     Reduce env Hex Sprint m ctx q reducer acc w = ((Some err, acc), w1))
  ∧ w1.2 = w.2.
Proof.
  intros Hc Hq.
  assert (Hcount : Count env m ctx q w = ((-1, Some err), w1)).
  { rewrite Count_run, Hc. by destruct (getQuery q) as [qry [e|]]. }
  split; [done|]. split; [|split; [|by eapply c_trace]].
  - destruct (zeroLimit q) eqn:Hzero.
    + unfold zeroLimit in Hzero. destruct (query.qWindow q) as [win|] eqn:Hwin; [|done].
      apply bool_decide_eq_true in Hzero.
      by rewrite (Find_zero_limit_run env Hex Sprint m ctx q win w Hwin Hzero), Hcount.
    + rewrite (Find_native_run m ctx q w Hzero), Hc. by destruct (getQuery q) as [qry [e|]].
  - intros Hzero. rewrite (Reduce_native_run m ctx q reducer acc w Hzero), Hc.
    by destruct (getQuery q) as [qry [e|]].
Qed.

(** X25. A predicate that does not compile makes [Count], [Find] and, with a
    limit other than 0, [Reduce] fail with [ErrNotImplemented] before the
    context is looked at or the collection is opened: nothing has happened. *)
Theorem predicate_failure_first {Acc : Type} m ctx q (reducer : Reducer Acc) (acc : Acc) w r err :
  getQuery q = (r, Some err) →
  err = ErrNotImplemented
  ∧ Count env m ctx q w = ((-1, Some err), w)
  ∧ Find env Hex Sprint m ctx q w = ((None, Some err), w)
  ∧ (zeroLimit q = false →
     Reduce env Hex Sprint m ctx q reducer acc w = ((Some err, acc), w)).
Proof.
  intros Hq.
  assert (Hcount : Count env m ctx q w = ((-1, Some err), w)) by (by rewrite Count_run, Hq).
  split; [|split; [done|split]].
  - unfold getQuery in Hq.
    eapply (proj1 (translatePredicate_errors (query.qPredicate q) _)); [exact Hq].
    Unshelve. apply Forall_forall. intros e _. apply translateExp_onlyNotImplemented.
  - destruct (zeroLimit q) eqn:Hzero.
    + unfold zeroLimit in Hzero. destruct (query.qWindow q) as [win|] eqn:Hwin; [|done].
      apply bool_decide_eq_true in Hzero.
      by rewrite (Find_zero_limit_run env Hex Sprint m ctx q win w Hwin Hzero), Hcount.
    + by rewrite (Find_native_run m ctx q w Hzero), Hq.
  - intros Hzero. by rewrite (Reduce_native_run m ctx q reducer acc w Hzero), Hq.
Qed.
End MoreRuns.

(** ** [Clear] *)

Section BulkRuns.
Context (env : BulkEnv).
Implicit Types (m : Handler env) (ctx : Ctx env).

Lemma selectLoop_ids ctx cursor (ids : slice) (w : World env) ids' w' :
  selectLoop env ctx cursor ids w = (inl ids', w') →
  ∃ docs, (inl <$> docs) `prefix_of` cursor
          ∧ ids' = match docs with
                   | [] => ids
                   | _ => Some (default [] ids ++ (ID <$> docs))
                   end.
Proof.
  revert ids w. induction cursor as [|d cursor IH]; intros ids w; cbn.
  - unfold bind, native, ret. destruct (drvCursorNext env ctx w.1) as [more st].
    intros [= <- <-]. by exists [].
  - unfold bind, native, ret.
    destruct (drvCursorNext env ctx w.1) as [[|] st]; cbn.
    + destruct d as [tmp|err]; cbn.
      * intros (docs & Hpre & ->)%IH. exists (tmp :: docs). split.
        -- cbn. by apply prefix_cons.
        -- destruct docs as [|d' docs]; [done|]. unfold goAppend. cbn.
           by rewrite <- app_assoc.
      * by destruct (drvCursorClose env ctx st).
    + intros [= <- <-]. exists []. split; [apply prefix_nil | done].
Qed.

Lemma selectIDs_ids ctx cursor (w : World env) ids w' :
  selectIDs env ctx cursor w = ((ids, None), w') →
  ∃ docs, (inl <$> docs) `prefix_of` cursor ∧ ids = collected (ID <$> docs).
Proof.
  unfold selectIDs, bind, native, ret.
  destruct (selectLoop env ctx cursor None w) as [[ids'|err] w2] eqn:Hloop; [|done].
  destruct (drvCursorClose env ctx w2.1) as [[err|] st3]; [done|].
  intros [= <- <-]. apply selectLoop_ids in Hloop as (docs & Hpre & ->).
  exists docs. split; [done|]. by destruct docs.
Qed.

Lemma Clear_delete_step ctx (w : BulkWorld env) coll qry (info : option Z) err st2 :
  drvDeleteMany env coll ctx qry w.1 = ((info, err), st2) →
  (let* r := nativeBulk env (CallDeleteMany qry) (drvDeleteMany env coll ctx qry) in
   let '(info, err) := r in
   let* err :=
     match err with
     | None => lift env (Err env ctx)
     | Some _ => ret err
     end in
   match info with
   | None => ret (0, err)
   | Some DeletedCount => ret (DeletedCount, err)
   end) w
  = ((default 0 info, match err with
                      | Some e => Some e
                      | None => ctxErr env ctx st2
                      end),
     (st2, w.2 ++ [CallDeleteMany qry])).
Proof.
  intros Hdel. unfold bind, nativeBulk, lift, Err, ret. rewrite Hdel. cbn.
  destruct err as [e|], info as [n|]; cbn; by rewrite ?app_nil_r.
Qed.

(** X26. Without a window, [Clear] issues one native call, the bulk delete
    with the compiled predicate as its filter; it returns the number of
    deleted documents the driver reports, 0 when it reports none, together
    with the native error or, when there is none, with the error of the
    context after the call: the number and the error can both be set. *)
Theorem Clear_unwindowed m ctx q (w : BulkWorld env) qry coll st1 info err st2 :
  query.qWindow q = None →
  getQuery q = (qry, None) →
  ctxErr env ctx w.1 = None →
  m ctx w.1 = (inl coll, st1) →
  drvDeleteMany env coll ctx qry st1 = ((info, err), st2) →
  Clear env m ctx q w
  = ((default 0 info, match err with
                      | Some e => Some e
                      | None => ctxErr env ctx st2
                      end),
     (st2, w.2 ++ [CallDeleteMany qry])).
Proof.
  intros Hwin Hq Hlive Hopen Hdel. unfold Clear. rewrite Hq, Hwin.
  unfold bind at 1. unfold lift at 1. rewrite c_run. cbn [fst snd]. rewrite Hlive, Hopen.
  cbn [fst snd fmap list_fmap]. rewrite app_nil_r.
  unfold bind at 1. unfold ret at 1.
  by rewrite (Clear_delete_step ctx (st1, w.2) coll qry info err st2 Hdel).
Qed.

Lemma clearFindOptions_shape q win :
  foSort (clearFindOptions q win) = Some (getSort q)
  ∧ foProjection (clearFindOptions q win) = Some (Some {[ "_id" := VInt 1 ]})
  ∧ foSkip (clearFindOptions q win)
    = (if decide (query.Offset win > 0) then Some (query.Offset win) else None)
  ∧ foLimit (clearFindOptions q win)
    = (if decide (query.Limit win > -1) then Some (query.Limit win) else None)
  ∧ foMaxTime (clearFindOptions q win) = None.
Proof.
  unfold clearFindOptions, applyWindow.
  by destruct (decide (query.Offset win > 0)), (decide (query.Limit win > -1)).
Qed.

(** X27. With a window, [Clear] first issues a native find with the compiled
    predicate, the sort of [getSort], the skip and the limit of the window,
    the projection on [_id] and no maximal time; it reads the identifiers of
    a prefix of the documents of the cursor, in order, and deletes by
    [{_id: {$in: ids}}], where [ids] is the array of these identifiers, and
    the nil slice when no document was read; the result is that of the bulk
    delete as without a window. *)
Theorem Clear_windowed m ctx q (w : BulkWorld env) win qry coll st1 cursor st2 ids w3
    info err st4 :
  query.qWindow q = Some win →
  getQuery q = (qry, None) →
  ctxErr env ctx w.1 = None →
  m ctx w.1 = (inl coll, st1) →
  drvFind env coll ctx qry (clearFindOptions q win) st1 = (inl cursor, st2) →
  selectIDs env ctx cursor (st2, []) = ((ids, None), w3) →
  drvDeleteMany env coll ctx (idsFilter ids) w3.1 = ((info, err), st4) →
  Clear env m ctx q w
  = ((default 0 info, match err with
                      | Some e => Some e
                      | None => ctxErr env ctx st4
                      end),
     (st4, w.2 ++ [Native (CallFind qry (clearFindOptions q win))]
               ++ (Native <$> w3.2) ++ [CallDeleteMany (idsFilter ids)]))
  ∧ (∃ docs, (inl <$> docs) `prefix_of` cursor
             ∧ ids = collected (ID <$> docs)
             ∧ idsFilter ids
               = Some {[ "_id" := VDoc {[ "$in" := match docs with
                                                    | [] => VNil
                                                    | _ => VArray (ID <$> docs)
                                                    end ]} ]})
  ∧ foSort (clearFindOptions q win) = Some (getSort q)
  ∧ foProjection (clearFindOptions q win) = Some (Some {[ "_id" := VInt 1 ]})
  ∧ foSkip (clearFindOptions q win)
    = (if decide (query.Offset win > 0) then Some (query.Offset win) else None)
  ∧ foLimit (clearFindOptions q win)
    = (if decide (query.Limit win > -1) then Some (query.Limit win) else None)
  ∧ foMaxTime (clearFindOptions q win) = None.
Proof.
  intros Hwin Hq Hlive Hopen Hfind Hsel Hdel.
  split; [|split; [|apply clearFindOptions_shape]].
  2:{ destruct (selectIDs_ids ctx cursor _ ids w3 Hsel) as (docs & Hpre & ->).
      exists docs. split; [done|]. split; [done|]. by destruct docs. }
  unfold Clear. rewrite Hq, Hwin.
  unfold bind at 1. unfold lift at 1. rewrite c_run. cbn [fst snd]. rewrite Hlive, Hopen.
  cbn [fst snd fmap list_fmap]. rewrite app_nil_r.
  fold (clearFindOptions q win).
  unfold bind at 1. unfold bind at 1. unfold lift at 1. unfold native at 1.
  cbn [fst snd]. rewrite Hfind. cbn [fst snd].
  unfold bind at 1. unfold lift at 1. cbn [fst snd]. rewrite Hsel.
  unfold ret at 1. fold (idsFilter ids).
  rewrite (Clear_delete_step ctx (w3.1, _) coll (idsFilter ids) info err st4 Hdel).
  cbn [fst snd fmap list_fmap]. by rewrite <- !app_assoc.
Qed.

Lemma lift_issued {A : Type} (op : Op (World env) A) (w : BulkWorld env) :
  ∃ l, (lift env op w).2.2 = w.2 ++ (Native <$> l).
Proof.
  unfold lift. destruct (op (w.1, [])) as [a w']. by exists w'.2.
Qed.

(** X28. Any run of [Clear] issues at most one bulk delete, as its last
    call; a run that issues none returns the number 0 and an error. *)
Theorem Clear_one_delete m ctx q (w : BulkWorld env) :
  ∃ l,
    ((Clear env m ctx q w).2.2 = w.2 ++ (Native <$> l)
     ∧ (Clear env m ctx q w).1.1 = 0
     ∧ is_Some (Clear env m ctx q w).1.2)
    ∨ (∃ f, (Clear env m ctx q w).2.2 = w.2 ++ (Native <$> l) ++ [CallDeleteMany f]).
Proof.
  set (P := fun r : (Z * option error) * BulkWorld env =>
    ∃ l, (r.2.2 = w.2 ++ (Native <$> l) ∧ r.1.1 = 0 ∧ is_Some r.1.2)
         ∨ (∃ f, r.2.2 = w.2 ++ (Native <$> l) ++ [CallDeleteMany f])).
  change (P (Clear env m ctx q w)).
  unfold Clear. destruct (getQuery q) as [qry [err|]].
  { exists []. left. cbn. by rewrite app_nil_r. }
  unfold bind at 1. unfold lift at 1.
  destruct (c env m ctx (w.1, [])) as [[coll|err] w1] eqn:Hc;
    pose proof (c_trace env m ctx _ _ _ Hc) as Htrace; cbn in Htrace; rewrite Htrace;
    cbn [fst snd fmap list_fmap]; rewrite app_nil_r.
  2: { exists []. left. cbn. by rewrite app_nil_r. }
  assert (Hdelete : ∀ (w' : BulkWorld env) f l, w'.2 = w.2 ++ (Native <$> l) →
    P ((let* r := nativeBulk env (CallDeleteMany f) (drvDeleteMany env coll ctx f) in
          let '(info, err) := r in
          let* err :=
            match err with
            | None => lift env (Err env ctx)
            | Some _ => ret err
            end in
          match info with
          | None => ret (0, err)
          | Some DeletedCount => ret (DeletedCount, err)
          end) w')).
  { intros w' f l Hw'.
    destruct (drvDeleteMany env coll ctx f w'.1) as [[info err] st] eqn:Hdel.
    rewrite (Clear_delete_step ctx w' coll f info err st Hdel).
    exists l. right. exists f. cbn. by rewrite Hw', <- app_assoc. }
  destruct (query.qWindow q) as [win|].
  - fold (clearFindOptions q win).
    unfold bind at 1. unfold bind at 1. unfold lift at 1. unfold native at 1.
    cbn [fst snd].
    destruct (drvFind env coll ctx qry _ w1.1) as [[cursor|err] st2] eqn:Hfind;
      cbn [fst snd fmap list_fmap].
    2: { exists [CallFind qry (clearFindOptions q win)]. by left. }
    unfold bind at 1. unfold lift at 1. cbn [fst snd].
    destruct (selectIDs env ctx cursor (st2, [])) as [[ids [err|]] w3] eqn:Hsel;
      cbn [fst snd].
    { exists (CallFind qry (clearFindOptions q win) :: w3.2). left. unfold ret. cbn.
      split; [|done]. by rewrite <- app_assoc. }
    unfold ret at 1.
    apply (Hdelete _ _ (CallFind qry (clearFindOptions q win) :: w3.2)).
    cbn. by rewrite <- app_assoc.
  - unfold bind at 1. unfold ret at 1.
    apply (Hdelete _ _ []). cbn. by rewrite app_nil_r.
Qed.
End BulkRuns.

(** ** More of [Insert], [Clear] and [selectIDs] *)

Section MoreWrites.
Context (env : Env).
Implicit Types (m : Handler env) (ctx : Ctx env) (w : World env).

(** X15. With the collection open and the context live after the native
    insert, [Insert] returns [ErrConflict] exactly when the native error
    carries the code 11000 in its write exception or in its bulk write
    exception, or is [ErrConflict] itself. *)
Theorem Insert_conflict_only_on_duplicate m ctx items w coll w1 err st2 :
  c env m ctx w = (inl coll, w1) →
  drvInsertMany env coll ctx (newMongoItem <$> items) w1.1 = (err, st2) →
  ctxErr env ctx st2 = None →
  (Insert env m ctx items w).1 = Some ErrConflict
  ↔ err = Some ErrConflict
    ∨ ∃ e codes, err = Some e
                 ∧ (asWriteException e = Some codes ∨ asBulkWriteException e = Some codes)
                 ∧ 11000 ∈ codes.
Proof.
  intros Hc Hins Hlive. rewrite (Insert_run env m ctx items w coll w1 err st2 Hc Hins), Hlive.
  destruct err as [e|]; [|split; [done | by intros [?|(? & ? & ? & _)]]].
  destruct (isDup (Some e)) eqn:Hdup.
  - split; [intros _ | done]. right. apply isDup_spec in Hdup as (codes & Hshape & Hin).
    by exists e, codes.
  - split; [by left|]. intros [Herr|(e' & codes & [= <-] & Hshape & Hin)]; [done|].
    rewrite (isDup_codes e codes Hshape Hin) in Hdup. discriminate.
Qed.
End MoreWrites.

Lemma Insert_conflict_only_on_duplicate_witness :
  c (scenarioEnv duplicateKey) (scenarioHandler duplicateKey) tt start = (inl tt, start)
  ∧ ctxErr (scenarioEnv duplicateKey) tt 1%nat = None
  ∧ (Insert (scenarioEnv duplicateKey) (scenarioHandler duplicateKey) tt [sampleItem] start).1
    = Some ErrConflict.
Proof.
  split; [reflexivity|]. split; [reflexivity|].
  apply (Insert_conflict_only_on_duplicate (scenarioEnv duplicateKey)
           (scenarioHandler duplicateKey) tt [sampleItem] start tt start
           (Some (Wrapped "insert" (BulkWriteException [121; 11000]))) 1%nat
           eq_refl eq_refl eq_refl).
  right. exists (Wrapped "insert" (BulkWriteException [121; 11000])), [121; 11000].
  split; [reflexivity|]. split; [by right | right; left].
Defined.

Section MoreBulk.
Context (env : BulkEnv).
Implicit Types (m : Handler env) (ctx : Ctx env).

(** X29. When the predicate does not compile, or compiles while the
    collection cannot be had, [Clear] returns 0 and that error, and issues no
    native call. *)
Theorem Clear_early_failure m ctx q (w : BulkWorld env) err :
  (getQuery q).2 = Some err
  ∨ ((getQuery q).2 = None ∧ ∃ w1, c env m ctx (w.1, []) = (inr err, w1)) →
  (Clear env m ctx q w).1 = (0, Some err) ∧ (Clear env m ctx q w).2.2 = w.2.
Proof.
  unfold Clear. destruct (getQuery q) as [qry [qerr|]]; cbn [snd].
  - intros [[= ->]|[[=] _]]. done.
  - intros [[=]|[_ [w1 Hc]]]. unfold bind, lift. rewrite Hc.
    pose proof (c_trace env m ctx _ _ _ Hc) as Htrace. cbn in Htrace. rewrite Htrace.
    cbn. by rewrite app_nil_r.
Qed.

(** X30. [selectIDs] returns either, without an error, the identifiers of a
    prefix of the documents of the cursor, in order, as a slice that is nil
    when no document was read; or the nil slice and an error, which is a
    decoding error of the cursor or the error of closing it. *)
Theorem selectIDs_outcomes ctx cursor (w : World env) :
  (∃ docs, (inl <$> docs) `prefix_of` cursor
           ∧ (selectIDs env ctx cursor w).1 = (collected (ID <$> docs), None)
           ∧ sliceValue (selectIDs env ctx cursor w).1.1
             = match docs with
               | [] => VNil
               | _ => VArray (ID <$> docs)
               end)
  ∨ (∃ err, (selectIDs env ctx cursor w).1 = (None, Some err)
            ∧ (err ∈ omap (λ d, match d with inr e => Some e | inl _ => None end) cursor
               ∨ ∃ st, (drvCursorClose env ctx st).1 = Some err)).
Proof.
  unfold selectIDs, bind, native, ret.
  destruct (selectLoop env ctx cursor None w) as [[ids|err] w2] eqn:Hloop.
  - destruct (drvCursorClose env ctx w2.1) as [[err|] st3] eqn:Hclose.
    + right. exists err. split; [done|]. right. exists w2.1. by rewrite Hclose.
    + left. apply selectLoop_ids in Hloop as (docs & Hpre & ->). exists docs.
      split; [done|]. by destruct docs.
  - right. exists err. split; [done|]. left.
    clear -Hloop. revert w Hloop. generalize (@None (list value)).
    induction cursor as [|d cursor IH]; intros ids w; cbn.
    + unfold bind, native, ret. by destruct (drvCursorNext env ctx w.1).
    + unfold bind, native, ret.
      destruct (drvCursorNext env ctx w.1) as [[|] st]; cbn; [|done].
      destruct d as [tmp|e]; cbn.
      * apply IH.
      * destruct (drvCursorClose env ctx st). intros [= <- <-]. left.
Qed.
End MoreBulk.

Lemma Clear_early_failure_witness :
  (getQuery (plainQuery [query.Foreign "geoWithin"])).2 = Some ErrNotImplemented
  ∧ (Clear (bulkScenarioEnv quiet (Some 3, None)) (scenarioHandler quiet) tt
       (plainQuery [query.Foreign "geoWithin"]) bulkStart).1 = (0, Some ErrNotImplemented)
  ∧ (Clear (bulkScenarioEnv quiet (Some 3, None)) (scenarioHandler quiet) tt
       (plainQuery [query.Foreign "geoWithin"]) bulkStart).2.2 = [].
Proof.
  split; [reflexivity|].
  exact (Clear_early_failure (bulkScenarioEnv quiet (Some 3, None)) (scenarioHandler quiet) tt
           (plainQuery [query.Foreign "geoWithin"]) bulkStart ErrNotImplemented
           (or_introl eq_refl)).
Defined.

(** ** Runs in the scripted environment *)

Lemma writes_need_collection_witness :
  c (scenarioEnv alreadyCancelled) (scenarioHandler alreadyCancelled) tt start
  = (inr Canceled, start)
  ∧ Insert (scenarioEnv alreadyCancelled) (scenarioHandler alreadyCancelled) tt [sampleItem] start
    = (Some Canceled, start)
  ∧ Update (scenarioEnv alreadyCancelled) (scenarioHandler alreadyCancelled) tt
      sampleItem sampleItem start
    = (Some Canceled, start)
  ∧ Delete (scenarioEnv alreadyCancelled) (scenarioHandler alreadyCancelled) tt sampleItem start
    = (Some Canceled, start).
Proof.
  split; [reflexivity|].
  destruct (writes_need_collection (scenarioEnv alreadyCancelled)
              (scenarioHandler alreadyCancelled) tt start Canceled start
              [sampleItem] sampleItem sampleItem eq_refl)
    as (Hinsert & Hupdate & Hdelete & _).
  split; [exact Hinsert|]. split; [exact Hupdate | exact Hdelete].
Defined.

Lemma reads_need_collection_witness :
  c (scenarioEnv alreadyCancelled) (scenarioHandler alreadyCancelled) tt start
  = (inr Canceled, start)
  ∧ (getQuery (windowQuery 0 10)).2 = None
  ∧ Count (scenarioEnv alreadyCancelled) (scenarioHandler alreadyCancelled) tt
      (windowQuery 0 10) start
    = ((-1, Some Canceled), start)
  ∧ Find (scenarioEnv alreadyCancelled) hexEncode sprintScalar
      (scenarioHandler alreadyCancelled) tt (windowQuery 0 10) start
    = ((None, Some Canceled), start).
Proof.
  split; [reflexivity|]. split; [reflexivity|].
  destruct (reads_need_collection (scenarioEnv alreadyCancelled) hexEncode sprintScalar
              (scenarioHandler alreadyCancelled) tt (windowQuery 0 10) collect []
              start Canceled start eq_refl eq_refl)
    as (Hcount & Hfind & _).
  split; [exact Hcount | exact Hfind].
Defined.

Lemma predicate_failure_first_witness :
  getQuery (plainQuery [query.Foreign "geoWithin"]) = (None, Some ErrNotImplemented)
  ∧ Count (scenarioEnv quiet) (scenarioHandler quiet) tt
      (plainQuery [query.Foreign "geoWithin"]) start
    = ((-1, Some ErrNotImplemented), start)
  ∧ Find (scenarioEnv quiet) hexEncode sprintScalar (scenarioHandler quiet) tt
      (plainQuery [query.Foreign "geoWithin"]) start
    = ((None, Some ErrNotImplemented), start).
Proof.
  split; [reflexivity|].
  destruct (predicate_failure_first (scenarioEnv quiet) hexEncode sprintScalar
              (scenarioHandler quiet) tt (plainQuery [query.Foreign "geoWithin"])
              collect [] start None ErrNotImplemented eq_refl)
    as (_ & Hcount & Hfind & _).
  split; [exact Hcount | exact Hfind].
Defined.

Lemma conditional_write_no_refetch_witness :
  c (scenarioEnv writeFails) (scenarioHandler writeFails) tt start = (inl tt, start)
  ∧ Update (scenarioEnv writeFails) (scenarioHandler writeFails) tt sampleItem sampleItem start
    = (Some (WriteException [11000]),
       (1%nat, [CallReplaceOne (matchFilter (VString "42") "abc") (newMongoItem sampleItem)]))
  ∧ Delete (scenarioEnv writeFails) (scenarioHandler writeFails) tt sampleItem start
    = (Some (OtherError "connection reset"),
       (1%nat, [CallDeleteOne (matchFilter (VString "42") "abc")])).
Proof.
  split; [reflexivity|].
  destruct (conditional_write_no_refetch (scenarioEnv writeFails) (scenarioHandler writeFails)
              tt start tt start eq_refl) as [Hupdate Hdelete].
  split.
  - apply (Hupdate sampleItem sampleItem (inr (WriteException [11000])) 1%nat eq_refl).
    discriminate.
  - apply (Hdelete sampleItem (inr (OtherError "connection reset")) 1%nat eq_refl).
    discriminate.
Defined.

Lemma zero_match_results_witness :
  c (scenarioEnv refetchFails) (scenarioHandler refetchFails) tt start = (inl tt, start)
  ∧ (Update (scenarioEnv refetchFails) (scenarioHandler refetchFails) tt
       sampleItem sampleItem start).1 = Some ErrConflict
  ∧ (Delete (scenarioEnv refetchFails) (scenarioHandler refetchFails) tt sampleItem start).1
    = Some ErrConflict.
Proof.
  split; [reflexivity|].
  destruct (zero_match_results (scenarioEnv refetchFails) (scenarioHandler refetchFails)
              tt start tt start eq_refl) as (_ & _ & Hupdate & Hdelete).
  split.
  - apply (Hupdate sampleItem sampleItem 1%nat (OtherError "connection reset") 2%nat
             eq_refl eq_refl); [discriminate | reflexivity].
  - apply (Hdelete sampleItem 1%nat (OtherError "connection reset") 2%nat
             eq_refl eq_refl); [discriminate | reflexivity].
Defined.

Lemma Insert_passes_through_witness :
  c (scenarioEnv writeFails) (scenarioHandler writeFails) tt start = (inl tt, start)
  ∧ isDup (Some (OtherError "connection reset")) = false
  ∧ Insert (scenarioEnv writeFails) (scenarioHandler writeFails) tt [sampleItem] start
    = (Some (OtherError "connection reset"),
       (1%nat, [CallInsertMany [newMongoItem sampleItem]])).
Proof.
  split; [reflexivity|]. split; [reflexivity|].
  destruct (Insert_passes_through (scenarioEnv writeFails) (scenarioHandler writeFails)
              tt [sampleItem] start tt start (Some (OtherError "connection reset")) 1%nat
              eq_refl eq_refl eq_refl eq_refl) as [Hrun _].
  exact Hrun.
Defined.

Lemma Find_call_options_witness :
  CallFind (Some ∅)
    (SetMaxTime (SetLimit (SetSkip (SetProjection (SetSort optionsFind [("_id", VInt 1)]) None) 2) 3)
       1000)
  ∈ issued start (Find (scenarioEnv withDeadline) hexEncode sprintScalar
                    (scenarioHandler withDeadline) tt (windowQuery 2 3) start)
  ∧ foSort (SetMaxTime (SetLimit (SetSkip (SetProjection (SetSort optionsFind [("_id", VInt 1)])
                                              None) 2) 3) 1000)
    = Some (getSort (windowQuery 2 3)).
Proof.
  assert (Hcall : CallFind (Some ∅)
    (SetMaxTime (SetLimit (SetSkip (SetProjection (SetSort optionsFind [("_id", VInt 1)]) None) 2) 3)
       1000)
  ∈ issued start (Find (scenarioEnv withDeadline) hexEncode sprintScalar
                    (scenarioHandler withDeadline) tt (windowQuery 2 3) start)).
  { vm_compute. left. }
  split; [exact Hcall|].
  destruct (Find_call_options (scenarioEnv withDeadline) hexEncode sprintScalar
              (scenarioHandler withDeadline) tt (windowQuery 2 3) start _ _ Hcall)
    as (_ & Hsort & _).
  exact Hsort.
Defined.

Lemma Find_items_witness :
  zeroLimit (windowQuery 0 10) = false
  ∧ (Find (scenarioEnv fiveDocuments) hexEncode sprintScalar (scenarioHandler fiveDocuments)
       tt (windowQuery 0 10) start).1.2 = None
  ∧ ∃ l docs,
      (Find (scenarioEnv fiveDocuments) hexEncode sprintScalar (scenarioHandler fiveDocuments)
         tt (windowQuery 0 10) start).1.1 = Some l
      ∧ ((inl <$> docs) : list (mongoItem + error))
        `prefix_of` (inl <$> (storedDocument <$> [1; 2; 3; 4; 5]))
      ∧ resource.ID <$> resource.Items l = ID <$> docs
      ∧ resource.Limit l = 10.
Proof.
  split; [reflexivity|]. split; [reflexivity|].
  destruct (Find (scenarioEnv fiveDocuments) hexEncode sprintScalar (scenarioHandler fiveDocuments)
              tt (windowQuery 0 10) start) as [[[l|] [err|]] w'] eqn:Hrun;
    try (exfalso; revert Hrun; vm_compute; discriminate).
  destruct (Find_items (scenarioEnv fiveDocuments) hexEncode sprintScalar
              (scenarioHandler fiveDocuments) tt (windowQuery 0 10) start tt start (Some ∅)
              (inl <$> (storedDocument <$> [1; 2; 3; 4; 5])) 1%nat l w'
              eq_refl eq_refl eq_refl eq_refl Hrun)
    as (docs & Hpre & _ & Hids & _ & Hlimit).
  exists l, docs. split; [reflexivity|]. split; [exact Hpre|]. split; [exact Hids | exact Hlimit].
Defined.

Lemma Find_closes_cursor_witness :
  zeroLimit (windowQuery 0 10) = false
  ∧ ∃ k, (k ≤ 6)%nat
         ∧ issued start (Find (scenarioEnv fiveDocuments) hexEncode sprintScalar
                           (scenarioHandler fiveDocuments) tt (windowQuery 0 10) start)
           = CallFind (Some ∅)
               (findOptionsFor (scenarioEnv fiveDocuments) tt (windowQuery 0 10) 0%nat)
               :: replicate k CallCursorNext ++ [CallCursorClose].
Proof.
  split; [reflexivity|].
  exact (Find_closes_cursor (scenarioEnv fiveDocuments) hexEncode sprintScalar
           (scenarioHandler fiveDocuments) tt (windowQuery 0 10) start tt start (Some ∅)
           (storedDocument <$> [1; 2; 3; 4; 5]) 1%nat eq_refl eq_refl eq_refl eq_refl).
Defined.

Lemma Reduce_zero_limit_witness :
  query.qWindow (windowQuery 3 0) = Some {| query.Offset := 3; query.Limit := 0 |}
  ∧ Reduce (scenarioEnv fiveDocuments) hexEncode sprintScalar (scenarioHandler fiveDocuments)
      tt (windowQuery 3 0) collect [] start
    = ((None, []), start).
Proof.
  split; [reflexivity|].
  exact (Reduce_zero_limit (scenarioEnv fiveDocuments) hexEncode sprintScalar
           (scenarioHandler fiveDocuments) tt (windowQuery 3 0)
           {| query.Offset := 3; query.Limit := 0 |} collect [] start eq_refl eq_refl).
Defined.



Lemma Clear_unwindowed_witness :
  query.qWindow (plainQuery [query.Equal "name" (VString "x")]) = None
  ∧ getQuery (plainQuery [query.Equal "name" (VString "x")])
    = (Some {[ "name" := VString "x" ]}, None)
  ∧ Clear (bulkScenarioEnv quiet (Some 3, None)) (scenarioHandler quiet) tt
      (plainQuery [query.Equal "name" (VString "x")]) bulkStart
    = ((3, None), (1%nat, [CallDeleteMany (Some {[ "name" := VString "x" ]})])).
Proof.
  split; [reflexivity|]. split; [reflexivity|].
  exact (Clear_unwindowed (bulkScenarioEnv quiet (Some 3, None)) (scenarioHandler quiet) tt
           (plainQuery [query.Equal "name" (VString "x")]) bulkStart
           (Some {[ "name" := VString "x" ]}) tt 0%nat (Some 3) None 1%nat
           eq_refl eq_refl eq_refl eq_refl eq_refl).
Defined.

Lemma Clear_windowed_witness :
  query.qWindow (windowQuery 0 5) = Some {| query.Offset := 0; query.Limit := 5 |}
  ∧ (Clear (bulkScenarioEnv fiveDocuments (Some 5, None)) (scenarioHandler fiveDocuments) tt
       (windowQuery 0 5) bulkStart).1 = (5, None)
  ∧ CallDeleteMany
      (Some {[ "_id" := VDoc {[ "$in" := VArray [VInt 1; VInt 2; VInt 3; VInt 4; VInt 5] ]} ]})
    ∈ (Clear (bulkScenarioEnv fiveDocuments (Some 5, None)) (scenarioHandler fiveDocuments) tt
         (windowQuery 0 5) bulkStart).2.2
  ∧ CallDeleteMany (Some {[ "_id" := VDoc {[ "$in" := VNil ]} ]})
    ∈ (Clear (bulkScenarioEnv pastTheEnd (Some 0, None)) (scenarioHandler pastTheEnd) tt
         (windowQuery 10 5) bulkStart).2.2.
Proof.
  split; [reflexivity|].
  destruct (Clear_windowed (bulkScenarioEnv fiveDocuments (Some 5, None))
              (scenarioHandler fiveDocuments) tt (windowQuery 0 5) bulkStart
              {| query.Offset := 0; query.Limit := 5 |} (Some ∅) tt 0%nat
              (inl <$> (storedDocument <$> [1; 2; 3; 4; 5])) 1%nat
              (Some [VInt 1; VInt 2; VInt 3; VInt 4; VInt 5])
              (8%nat, replicate 6 CallCursorNext ++ [CallCursorClose])
              (Some 5) None 9%nat
              eq_refl eq_refl eq_refl eq_refl eq_refl eq_refl eq_refl) as [Hfive _].
  destruct (Clear_windowed (bulkScenarioEnv pastTheEnd (Some 0, None))
              (scenarioHandler pastTheEnd) tt (windowQuery 10 5) bulkStart
              {| query.Offset := 10; query.Limit := 5 |} (Some ∅) tt 0%nat
              [] 1%nat None (3%nat, [CallCursorNext; CallCursorClose])
              (Some 0) None 4%nat
              eq_refl eq_refl eq_refl eq_refl eq_refl eq_refl eq_refl) as [Hnone _].
  rewrite Hfive, Hnone. split; [reflexivity|].
  cbn [snd]. rewrite !elem_of_app. split; right; right; right; left.
Defined.
